(** * abracadabra: positions, the in-memory editor and refactoring discovery

    A shallow embedding of
    - [src/refactorings/position.ts]              ([Position]),
    - the in-memory editor adapter                ([InMemoryEditor]),
    - the quick-fix provider                      ([RefactoringActionProvider]),
    followed by the properties established about them.

    Conventions.  A JavaScript [number] used as an index is an integer of
    [Z]; a JavaScript string is a [list ascii] (one [ascii] per code unit);
    an array is a [list]; a [Map] keyed by strings is a [gmap string _] when
    only lookups matter and an association list when insertion order
    matters.  A call that can throw returns an [Outcome]. *)

From Stdlib Require Import ZArith Ascii String DecimalString.
From stdpp Require Import gmap strings list list_numbers sorting.

Local Open Scope Z_scope.

Abbreviation Code := (list ascii) (only parsing).
Abbreviation Char := (list ascii) (only parsing).
Abbreviation Line := (list (list ascii)) (only parsing).
Abbreviation CodeMatrix := (list (list (list ascii))) (only parsing).
Abbreviation RelativePath := string (only parsing).

(** String literals of the source, as code-unit lists. *)
Definition str (s : string) : Code := list_ascii_of_string s.

(** ** Exceptions *)

Inductive Exception : Type :=
  | TypeError      (* property access on [undefined] *)
  | ParseFailure   (* the parser rejected the code *)
  | VisitorFailure (* a visitor callback threw *)
  | HostFailure.   (* the host (file system, configuration) threw *)

Inductive Outcome (A : Type) : Type :=
  | Return (a : A)
  | Throw (e : Exception).
Arguments Return {A} a.
Arguments Throw {A} e.

(** ** The JavaScript built-ins the sources call *)

Module JS.

(** The relative index of [Array.prototype.slice] and [splice]: a negative
    index counts from the end, and the result is clamped to [0, len]. *)
Definition relativeIndex (len i : Z) : Z :=
  if i <? 0 then Z.max (len + i) 0 else Z.min i len.

(** [l.slice(first, last)] *)
Definition slice {A} (l : list A) (first last : Z) : list A :=
  let len := Z.of_nat (length l) in
  let k := relativeIndex len first in
  let final := relativeIndex len last in
  take (Z.to_nat (final - k)) (drop (Z.to_nat k) l).

(** [l.slice(first)] *)
Definition sliceFrom {A} (l : list A) (first : Z) : list A :=
  drop (Z.to_nat (relativeIndex (Z.of_nat (length l)) first)) l.

(** [l.splice(first, deleteCount, item)], the array it leaves in [l]. *)
Definition splice {A} (l : list A) (first deleteCount : Z) (item : A) : list A :=
  let len := Z.of_nat (length l) in
  let k := relativeIndex len first in
  let actualDeleteCount := Z.min (Z.max deleteCount 0) (len - k) in
  take (Z.to_nat k) l ++ item :: drop (Z.to_nat (k + actualDeleteCount)) l.

(** [l[i]]: [None] is [undefined]. *)
Definition get {A} (l : list A) (i : Z) : option A :=
  if i <? 0 then None else l !! Z.to_nat i.

(** [s.split(sep)] for a one-unit separator: never the empty array. *)
Fixpoint split (sep : ascii) (s : Code) : list Code :=
  match s with
  | [] => [[]]
  | c :: s' =>
      if decide (c = sep) then [] :: split sep s'
      else match split sep s' with
           | l :: ls => (c :: l) :: ls
           | [] => [[c]]
           end
  end.

(** [s.split("")] *)
Definition chars (s : Code) : list Char := map (λ c, [c]) s.

(** [l.join(sep)] *)
Fixpoint join (sep : Code) (l : list Code) : Code :=
  match l with
  | [] => []
  | [x] => x
  | x :: l' => x ++ sep ++ join sep l'
  end.

Fixpoint startsWith (pat s : Code) : bool :=
  match pat, s with
  | [], _ => true
  | _ :: _, [] => false
  | p :: pat', c :: s' => if decide (p = c) then startsWith pat' s' else false
  end.

Fixpoint indexOfFrom (pat s : Code) (i : Z) : Z :=
  if startsWith pat s then i
  else match s with
       | [] => -1
       | _ :: s' => indexOfFrom pat s' (i + 1)
       end.

(** [s.indexOf(pat)]: the first index, or -1. *)
Definition indexOf (pat s : Code) : Z := indexOfFrom pat s 0.

(** [s.replace(pat, by)] for a string pattern: the first occurrence only. *)
Fixpoint replace (pat by_ s : Code) : Code :=
  if startsWith pat s then by_ ++ drop (length pat) s
  else match s with
       | [] => []
       | c :: s' => c :: replace pat by_ s'
       end.

(** [l.sort(compare)], as an insertion sort: each element moves left past
    every element that [compare] puts after it.  [sortedRev] holds the
    sorted prefix last-element-first.  Where [compare] is not a consistent
    order the language leaves the result open; the properties below use
    [sort] on lists on which it is consistent. *)
Fixpoint insertRev {A} (compare : A → A → Z) (element : A) (sortedRev : list A)
  : list A :=
  match sortedRev with
  | [] => [element]
  | tmp :: rest =>
      if compare tmp element >? 0 then tmp :: insertRev compare element rest
      else element :: tmp :: rest
  end.

Definition sortRev {A} (compare : A → A → Z) (l : list A) : list A :=
  fold_left (λ sortedRev element, insertRev compare element sortedRev) l [].

Definition sort {A} (compare : A → A → Z) (l : list A) : list A :=
  rev (sortRev compare l).

(** A [Map] in insertion order: [set] keeps the place of a key it already
    holds and replaces its value. *)
Fixpoint mapSet {V} (m : list (string * V)) (k : string) (v : V)
  : list (string * V) :=
  match m with
  | [] => [(k, v)]
  | (k', v') :: m' =>
      if decide (k' = k) then (k, v) :: m' else (k', v') :: mapSet m' k v
  end.

Definition mapValues {V} (m : list (string * V)) : list V := map snd m.

(** [l.splice(first, deleteCount)], the array it leaves in [l]. *)
Definition spliceOut {A} (l : list A) (first deleteCount : Z) : list A :=
  let len := Z.of_nat (length l) in
  let k := relativeIndex len first in
  let actualDeleteCount := Z.min (Z.max deleteCount 0) (len - k) in
  take (Z.to_nat k) l ++ drop (Z.to_nat (k + actualDeleteCount)) l.

(** The white space and the line terminators a code unit below 256 can be:
    TAB, LF, VT, FF, CR, SP and NBSP. *)
Definition isWhiteSpace (c : ascii) : bool :=
  let n := N_of_ascii c in
  ((9 <=? n) && (n <=? 13) || (n =? 32) || (n =? 160))%N.

Fixpoint trimStart (s : Code) : Code :=
  match s with
  | [] => []
  | c :: s' => if isWhiteSpace c then trimStart s' else s
  end.

Definition trimEnd (s : Code) : Code := rev (trimStart (rev s)).

(** [s.trim()] *)
Definition trim (s : Code) : Code := trimEnd (trimStart s).

End JS.

(** ** [Position] *)

Module Position.

Record t : Type := mk { line : Z; character : Z }.

Definition isSameLineThan (this position : t) : bool :=
  line this =? line position.

Definition isEqualTo (this position : t) : bool :=
  isSameLineThan this position && (character this =? character position).

Definition isBefore (this position : t) : bool :=
  isEqualTo this position
  || (line this <? line position)
  || (isSameLineThan this position && (character this <? character position)).

Definition isAfter (this position : t) : bool :=
  isEqualTo this position || negb (isBefore this position).





End Position.

(** ** [Selection] *)

Module Selection.

(** Modelled from the spec: [selection.ts] is not among the sources.  A
    Selection is a pair of Positions, [start] and [end]. *)
Record t : Type := mk { start : Position.t; end_ : Position.t }.

(** Modelled from the spec: a degenerate selection whose start equals its
    end represents a cursor. *)
Definition cursorAtPosition (position : Position.t) : t := mk position position.

Definition cursorAt (line character : Z) : t :=
  cursorAtPosition (Position.mk line character).

(** Modelled from the spec: Modifications are ordered by their start
    position, so a selection starts before another when its start is
    before the other's start. *)
Definition startsBefore (this selection : t) : bool :=
  Position.isBefore (start this) (start selection).

(** Modelled from the spec: the end marker extends the selection up to the
    marker, and an extension never leaves the end before the start: the end
    moves only to a position that is not before it. *)
Definition extendEndToStartOf (this selection : t) : t :=
  if Position.isAfter (start selection) (end_ this)
  then mk (start this) (start selection)
  else this.

End Selection.

(** ** [Modification] *)

Module Modification.

Record t : Type := mk { code : Code; selection : Selection.t }.

End Modification.

(** ** [InMemoryEditor] *)

Module InMemoryEditor.

Definition LINE_SEPARATOR : ascii := "010"%char.
Definition CHARS_SEPARATOR : Code := [].
Definition DELETED_LINE : Code := str "___DELETED_LINE___".
Definition CURSOR : Code := str "[cursor]".
Definition SELECTION_START : Code := str "[start]".
Definition SELECTION_END : Code := str "[end]".

(** The fields the operations below touch; the highlight registry is left
    out, no operation below reads or writes it.  A relative path is its
    string. *)
#[warnings="-register-all"]
Inductive t : Type :=
  mk { codeMatrix : CodeMatrix;
       _selection : Selection.t;
       otherFiles : gmap string t }.

Definition withCodeMatrix (this : t) (m : CodeMatrix) : t :=
  mk m (_selection this) (otherFiles this).

Definition withSelection (this : t) (s : Selection.t) : t :=
  mk (codeMatrix this) s (otherFiles this).

Definition withOtherFiles (this : t) (o : gmap string t) : t :=
  mk (codeMatrix this) (_selection this) o.

(** [read]: join every line, drop the lines that spell the deletion
    sentinel, join the rest with line separators. *)
Definition read (codeMatrix : CodeMatrix) : Code :=
  JS.join [LINE_SEPARATOR]
    (filter (λ line, line ≠ DELETED_LINE)
       (map (λ line, JS.join CHARS_SEPARATOR line) codeMatrix)).

Definition stripMarkers (line : Code) : Code :=
  JS.replace SELECTION_END []
    (JS.replace SELECTION_START [] (JS.replace CURSOR [] line)).

Definition setCodeMatrix (code : Code) : CodeMatrix :=
  map (λ line, JS.chars (stripMarkers line)) (JS.split LINE_SEPARATOR code).

(** The body of the reduction of [setSelectionFromCursor]; [lineIndex] is
    the counter the callback increments. *)
Definition scanLine (acc : Selection.t * Z) (line : Code) : Selection.t * Z :=
  let '(selection, lineIndex) := acc in
  let cursorChar := JS.indexOf CURSOR line in
  let selection :=
    if cursorChar >? -1 then Selection.cursorAt lineIndex cursorChar
    else selection in
  let line := JS.replace CURSOR [] line in
  let startChar := JS.indexOf SELECTION_START line in
  let selection :=
    if startChar >? -1 then Selection.cursorAt lineIndex startChar
    else selection in
  let line := JS.replace SELECTION_START [] line in
  let endChar := JS.indexOf SELECTION_END line in
  let selection :=
    if endChar >? -1
    then Selection.extendEndToStartOf selection
           (Selection.cursorAt lineIndex endChar)
    else selection in
  (selection, lineIndex + 1).

Definition setSelectionFromCursor (code : Code) (defaultSelection : Selection.t)
  : Selection.t :=
  fst (fold_left scanLine (JS.split LINE_SEPARATOR code) (defaultSelection, 0)).

(** [new InMemoryEditor(code, position)] *)
Definition create (code : Code) (position : Position.t) : t :=
  mk (setCodeMatrix code)
     (setSelectionFromCursor code (Selection.cursorAtPosition position))
     ∅.

(** [new InMemoryEditor(code)] *)
Definition new (code : Code) : t := create code (Position.mk 0 0).

(** The getter [code]. *)
Definition code (this : t) : Code := read (codeMatrix this).

Definition selection (this : t) : Selection.t := _selection this.

Definition position (this : t) : Position.t := Selection.start (selection this).

Definition codeOf (this : t) (path : RelativePath) : Code :=
  match otherFiles this !! path with
  | None => []
  | Some otherFile => code otherFile
  end.

Definition write (this : t) (code : Code) (newCursorPosition : option Position.t)
  : t :=
  let this := withCodeMatrix this (setCodeMatrix code) in
  match newCursorPosition with
  | Some p => withSelection this (Selection.cursorAtPosition p)
  | None => this
  end.

Definition writeIn (this : t) (path : RelativePath) (code : Code) : t :=
  withOtherFiles this (<[path := new code]> (otherFiles this)).

Definition moveCursorTo (this : t) (position : Position.t) : t :=
  withSelection this (Selection.cursorAtPosition position).

(** *** Statements that read and write the editor and can throw *)

Definition M (A : Type) : Type := t → t * Outcome A.

Definition ret {A} (a : A) : M A := λ this, (this, Return a).

Definition bind {A B} (c : M A) (k : A → M B) : M B :=
  λ this,
    match c this with
    | (this', Return a) => k a this'
    | (this', Throw e) => (this', Throw e)
    end.

#[export] Instance M_ret : MRet M := @ret.
#[export] Instance M_bind : MBind M := λ A B k c, bind c k.

(** [this.codeMatrix[i]] used as an array: a [TypeError] when it is
    [undefined]. *)
Definition lineAt (i : Z) : M Line :=
  λ this,
    match JS.get (codeMatrix this) i with
    | Some line => (this, Return line)
    | None => (this, Throw TypeError)
    end.

(** [this.codeMatrix[i] = line], for a line that exists: every assignment
    below follows a read of a line at the same or a later index. *)
Definition setLine (i : Z) (line : Line) : M unit :=
  λ this, (withCodeMatrix this (<[Z.to_nat i := line]> (codeMatrix this)),
           Return tt).

Definition setSelection (s : Selection.t) : M unit :=
  λ this, (withSelection this s, Return tt).

Fixpoint forEach {A} (l : list A) (body : A → M unit) : M unit :=
  match l with
  | [] => ret tt
  | x :: l' => body x ;; forEach l' body
  end.

Fixpoint mapM {A B} (l : list A) (f : A → M B) : M (list B) :=
  match l with
  | [] => ret []
  | x :: l' => y ← f x; ys ← mapM l' f; ret (y :: ys)
  end.

(** The first half of [readThenWrite]: the lines of the selection.  A line
    strictly between the two ends that does not exist lies before an end
    line that does not exist either, so the [undefined] the loop would push
    is followed by the [TypeError] of the last statement. *)
Definition readSelection (selection : Selection.t) : M CodeMatrix :=
  let start := Selection.start selection in
  let end_ := Selection.end_ selection in
  if Position.line start =? Position.line end_ then
    line ← lineAt (Position.line start);
    ret [JS.slice line (Position.character start) (Position.character end_)]
  else if Position.line end_ >? Position.line start then
    first ← lineAt (Position.line start);
    between ← mapM (seqZ (Position.line start + 1)
                      (Position.line end_ - Position.line start - 1)) lineAt;
    last ← lineAt (Position.line end_);
    ret ([JS.sliceFrom first (Position.character start)]
           ++ between
           ++ [JS.slice last 0 (Position.character end_)])
  else ret [].

(** The body of the [forEach] of [readThenWrite]. *)
Definition applyModification (m : Modification.t) : M unit :=
  let start := Selection.start (Modification.selection m) in
  let end_ := Selection.end_ (Modification.selection m) in
  if Position.line start =? Position.line end_ then
    line ← lineAt (Position.line start);
    setLine (Position.line start)
      (JS.splice line (Position.character start)
         (Position.character end_ - Position.character start)
         (Modification.code m))
  else if Position.line end_ >? Position.line start then
    line ← lineAt (Position.line start);
    setLine (Position.line start)
      (JS.splice line (Position.character start)
         (Z.of_nat (length line) - Position.character start)
         (Modification.code m)) ;;
    line ← lineAt (Position.line start);
    last ← lineAt (Position.line end_);
    setLine (Position.line start)
      (line ++ JS.sliceFrom last (Position.character end_)) ;;
    forEach (seqZ (Position.line start + 1)
               (Position.line end_ - Position.line start))
      (λ i, setLine i [DELETED_LINE])
  else ret tt.

(** The comparison [readThenWrite] sorts with. *)
Definition rightMostFirst (a b : Modification.t) : Z :=
  if Selection.startsBefore (Modification.selection a) (Modification.selection b)
  then 1 else -1.

Definition readThenWrite (selection : Selection.t)
    (getModifications : Code → list Modification.t)
    (newCursorPosition : option Position.t) : M unit :=
  match newCursorPosition with
  | Some p => setSelection (Selection.cursorAtPosition p)
  | None => ret tt
  end ;;
  readCodeMatrix ← readSelection selection;
  forEach (JS.sort rightMostFirst (getModifications (read readCodeMatrix)))
    applyModification.

Definition isLineBlank (line : Z) : M bool :=
  cells ← lineAt line;
  ret (bool_decide (JS.trim (JS.join CHARS_SEPARATOR cells) = [])).

Definition removeLine (line : Z) : M unit :=
  λ this, (withCodeMatrix this (JS.spliceOut (codeMatrix this) line 1),
           Return tt).

End InMemoryEditor.

(** ** The highlights of [InMemoryEditor] *)

Module Highlights.

(** [`${index}`] for an integer below 10^21: its decimal digits, after a
    minus sign when it is negative. *)
Definition numberToString (index : Z) : Code :=
  str (NilZero.string_of_int (Z.to_int index)).

Section Registry.

(** [highlights] is keyed by Selection objects and [highlightSelections]
    holds arrays of them, both compared by reference: [SelectionRef] and
    [SelectionsRef] are the references, [selectionOf] the Selection of an
    object and [elementsOf] the elements of an array. *)
Context {SelectionRef SelectionsRef : Type}.
Context `{!EqDecision SelectionRef, !EqDecision SelectionsRef}.
Variable selectionOf : SelectionRef → Selection.t.
Variable elementsOf : SelectionsRef → list SelectionRef.

(** The three fields of the editor that the highlights use; [highlights]
    and [highlightSelections] in insertion order, each key once. *)
Record t : Type :=
  mk { highlights : list (SelectionRef * Z);
       highlightSelections : list SelectionsRef;
       nextHighlightColorIndex : Z }.

(** The fields as the class initializes them. *)
Definition initial : t := mk [] [] 0.

(** [map.set(key, value)] *)
Fixpoint mapSet (map : list (SelectionRef * Z)) (key : SelectionRef) (value : Z)
  : list (SelectionRef * Z) :=
  match map with
  | [] => [(key, value)]
  | (key', value') :: map' =>
      if decide (key' = key) then (key, value) :: map'
      else (key', value') :: mapSet map' key value
  end.

(** [map.delete(key)] *)
Definition mapDelete (map : list (SelectionRef * Z)) (key : SelectionRef)
  : list (SelectionRef * Z) :=
  filter (λ entry, entry.1 ≠ key) map.

(** [map.get(key)]; [None] is [undefined]. *)
Fixpoint mapGet (map : list (SelectionRef * Z)) (key : SelectionRef) : option Z :=
  match map with
  | [] => None
  | (key', value) :: map' =>
      if decide (key' = key) then Some value else mapGet map' key
  end.

(** [set.add(value)] and [set.delete(value)] *)
Definition setAdd (set : list SelectionsRef) (value : SelectionsRef)
  : list SelectionsRef :=
  if decide (value ∈ set) then set else set ++ [value].

Definition setDelete (set : list SelectionsRef) (value : SelectionsRef)
  : list SelectionsRef :=
  filter (λ value', value' ≠ value) set.

Definition highlight (selections : SelectionsRef) (this : t) : t :=
  mk (fold_left
        (λ highlights selection,
           mapSet highlights selection (nextHighlightColorIndex this + 1))
        (elementsOf selections) (highlights this))
     (setAdd (highlightSelections this) selections)
     (nextHighlightColorIndex this).

Definition removeHighlight (selections : SelectionsRef) (this : t) : t :=
  mk (fold_left (λ highlights selection, mapDelete highlights selection)
        (elementsOf selections) (highlights this))
     (setDelete (highlightSelections this) selections)
     (nextHighlightColorIndex this).

(** [l.map(f)] and [l.flatMap(f)] for an [f] that takes the index and can
    fail; [None] is the failure. *)
Fixpoint mapFrom {A B} (f : A → Z → option B) (l : list A) (index : Z)
  : option (list B) :=
  match l with
  | [] => Some []
  | x :: l' =>
      y ← f x index; ys ← mapFrom f l' (index + 1); Some (y :: ys)
  end.

Fixpoint flatMapFrom {A B} (f : A → Z → option (list B)) (l : list A)
    (index : Z) : option (list B) :=
  match l with
  | [] => Some []
  | x :: l' =>
      y ← f x index; ys ← flatMapFrom f l' (index + 1); Some (y ++ ys)
  end.

(** The callback of [flatMap] in [highlightCodeMatrix]; [None] is the
    [AssertionError] of an [assert] that fails. *)
Definition highlightCell (this : t)
    (startSelections endSelections : list SelectionRef)
    (char : Char) (charIndex : Z) : option (list Char) :=
  match List.find
          (λ selection,
             Position.character (Selection.start (selectionOf selection))
             =? charIndex)
          startSelections with
  | Some start =>
      index ← mapGet (highlights this) start;
      Some [str "[h" ++ numberToString index ++ str "]"; char]
  | None =>
      match List.find
              (λ selection,
                 Position.character (Selection.end_ (selectionOf selection))
                 =? charIndex)
              endSelections with
      | Some end_ =>
          index ← mapGet (highlights this) end_;
          Some [str "[/h" ++ numberToString index ++ str "]"; char]
      | None => Some [char]
      end
  end.

Definition highlightCodeMatrix (this : t) (codeMatrix : CodeMatrix)
  : option CodeMatrix :=
  let selections := map fst (highlights this) in
  mapFrom
    (λ line lineIndex,
       let startSelections :=
         List.filter
           (λ selection,
              Position.line (Selection.start (selectionOf selection))
              =? lineIndex)
           selections in
       let endSelections :=
         List.filter
           (λ selection,
              Position.line (Selection.end_ (selectionOf selection))
              =? lineIndex)
           selections in
       flatMapFrom (highlightCell this startSelections endSelections) line 0)
    codeMatrix 0.

(** [editor.highlightedCode], for the editor whose highlights are [this]. *)
Definition highlightedCode (this : t) (editor : InMemoryEditor.t)
  : option Code :=
  InMemoryEditor.read
    <$> highlightCodeMatrix this (InMemoryEditor.codeMatrix editor).

End Registry.

End Highlights.

(** ** [RefactoringActionProvider] *)

Module RefactoringActionProvider.

(** What a callback of a visitor does that discovery can observe: it calls
    the [onMatch] it was created with, any number of times, and returns or
    throws. *)
Inductive Run (NodePath : Type) : Type :=
  | Finish
  | OnMatch (visitedPath : NodePath) (next : Run NodePath)
  | Fail.
Arguments Finish {NodePath}.
Arguments OnMatch {NodePath} visitedPath next.
Arguments Fail {NodePath}.

Fixpoint andThen {NodePath} (first second : Run NodePath) : Run NodePath :=
  match first with
  | Finish => second
  | OnMatch visitedPath next => OnMatch visitedPath (andThen next second)
  | Fail => Fail
  end.

(** The values a visitor object can hold under a key: a function, an object
    of members, or anything else, of which only the truthiness matters. *)
Inductive Member (NodePath : Type) : Type :=
  | Method (f : NodePath → Run NodePath)
  | NotAFunction.
Arguments Method {NodePath} f.
Arguments NotAFunction {NodePath}.

Inductive VisitorValue (NodePath : Type) : Type :=
  | Function (f : NodePath → Run NodePath)
  | Object (members : list (string * Member NodePath))
  | Other (truthy : bool).
Arguments Function {NodePath} f.
Arguments Object {NodePath} members.
Arguments Other {NodePath} truthy.

Definition isTruthy {NodePath} (v : VisitorValue NodePath) : bool :=
  match v with
  | Function _ | Object _ => true
  | Other truthy => truthy
  end.

(** A visitor: its own keys in the order of [Object.keys], each once. *)
Abbreviation Visitor NodePath := (list (string * VisitorValue NodePath)).

(** [visitor[key]]; [None] is [undefined]. *)
Fixpoint property {V} (visitor : list (string * V)) (key : string) : option V :=
  match visitor with
  | [] => None
  | (k, v) :: visitor' =>
      if decide (k = key) then Some v else property visitor' key
  end.

(** [if (visitor[key])] *)
Definition holdsTruthy {NodePath} (visitor : Visitor NodePath) (key : string)
  : bool :=
  match property visitor key with
  | Some v => isTruthy v
  | None => false
  end.

Definition keys {V} (visitor : list (string * V)) : list string :=
  map fst visitor.

(** [l.find(p)] *)
Fixpoint find {A} (p : A → bool) (l : list A) : option A :=
  match l with
  | [] => None
  | x :: l' => if p x then Some x else find p l'
  end.

Record ActionProvider (NodePath : Type) : Type :=
  mkActionProvider {
    message : Code;
    isPreferred : bool;
    updateMessage : option (NodePath → Code);
    (** [createVisitor(selection, onMatch, new TypeChecker(code, _))] *)
    createVisitor : Selection.t → Code → Visitor NodePath }.
Arguments mkActionProvider {NodePath} _ _ _ _.
Arguments message {NodePath} _.
Arguments isPreferred {NodePath} _.
Arguments updateMessage {NodePath} _.
Arguments createVisitor {NodePath} _ _ _.

Record Command : Type := mkCommand { key : string; title : Code }.

Record Refactoring (NodePath : Type) : Type :=
  mkRefactoring { command : Command; actionProvider : ActionProvider NodePath }.
Arguments mkRefactoring {NodePath} _ _.
Arguments command {NodePath} _.
Arguments actionProvider {NodePath} _.

Record CodeAction : Type :=
  mkCodeAction {
    actionTitle : Code;
    actionIsPreferred : bool;
    actionCommand : Code;
    actionCommandTitle : Code }.

(** What [findApplicableRefactorings] reads of the editor. *)
Record Editor : Type := mkEditor { code : Code; selection : Selection.t }.

Record TextDocument : Type := mkTextDocument { uriPath : Code }.

(** The host: the configuration, the file system and the active editor. *)
Record Host : Type :=
  mkHost {
    asRelativePath : Code → Code;
    getIgnoredFolders : list Code;
    getIgnoredPatterns : list Code;
    minimatch : Code → Code → bool;
    readFile : Code → Outcome Code;
    getMaxFileLinesCount : Z;
    shouldShowInQuickFix : string → bool;
    createVSCodeEditor : option Editor }.

(** The state of a discovery: the [Map] of the refactorings recorded, each
    with the place it has in [this.refactorings], and the messages written
    into their action providers.  The descriptors are shared objects, so a
    message written during discovery is read afterwards by whoever holds
    the refactoring: the messages are kept apart from the descriptors, by
    place. *)
Record Discovery (NodePath : Type) : Type :=
  mkDiscovery {
    applicableRefactorings : list (string * (nat * Refactoring NodePath));
    messages : gmap nat Code }.
Arguments mkDiscovery {NodePath} _ _.
Arguments applicableRefactorings {NodePath} _.
Arguments messages {NodePath} _.

Section Provider.

Context {AST NodePath : Type}.

(** The parser: [t.parse], the paths [t.traverseAST] enters in order, the
    type of the node of a path, and [t.isType]. *)
Variable parse : Code → Outcome AST.
Variable traverseAST : AST → list NodePath.
Variable nodeType : NodePath → string.
Variable isType : string → string → bool.

Variable host : Host.

(** [this.refactorings] *)
Variable refactorings : list (Refactoring NodePath).

Definition getVisitorNode (visitor : Visitor NodePath) (path : NodePath)
  : option (VisitorValue NodePath) :=
  let nodeType := nodeType path in
  if holdsTruthy visitor nodeType then property visitor nodeType
  else
    match find (λ type, isType nodeType type) (keys visitor) with
    | Some matchingType =>
        (* [matchingType ? visitor[matchingType] : null] *)
        if decide (matchingType = EmptyString) then None
        else property visitor matchingType
    | None => None
    end.

(** The first statement of [visit]: [visitor.enter], when a function. *)
Definition visitEnter (visitor : Visitor NodePath) (path : NodePath)
  : Run NodePath :=
  match property visitor "enter"%string with
  | Some (Function enter) => enter path
  | _ => Finish
  end.

Fixpoint callMethods (members : list (string * Member NodePath))
    (path : NodePath) : Run NodePath :=
  match members with
  | [] => Finish
  | (_, Method method) :: members' =>
      andThen (method path) (callMethods members' path)
  | (_, NotAFunction) :: members' => callMethods members' path
  end.

(** The rest of [visit]: the callbacks under the resolved key. *)
Definition visitNode (visitor : Visitor NodePath) (path : NodePath)
  : Run NodePath :=
  match getVisitorNode visitor path with
  | Some (Function visitorNode) => visitorNode path
  | Some (Object members) => callMethods members path
  | Some (Other _) | None => Finish
  end.

Definition visit (visitor : Visitor NodePath) (path : NodePath)
  : Run NodePath :=
  andThen (visitEnter visitor path) (visitNode visitor path).

(** The callback [createVisitor] receives, run over what a visit did. *)
Fixpoint onMatches (index : nat) (refactoring : Refactoring NodePath)
    (run : Run NodePath) (found : Discovery NodePath)
  : Discovery NodePath * Outcome unit :=
  match run with
  | Finish => (found, Return tt)
  | Fail => (found, Throw VisitorFailure)
  | OnMatch visitedPath next =>
      let messages :=
        match updateMessage (actionProvider refactoring) with
        | Some update => <[index := update visitedPath]> (messages found)
        | None => messages found
        end in
      onMatches index refactoring next
        (mkDiscovery
           (JS.mapSet (applicableRefactorings found)
              (key (command refactoring)) (index, refactoring))
           messages)
  end.

Fixpoint forEach {A} (l : list A)
    (body : A → Discovery NodePath → Discovery NodePath * Outcome unit)
    (found : Discovery NodePath) : Discovery NodePath * Outcome unit :=
  match l with
  | [] => (found, Return tt)
  | x :: l' =>
      match body x found with
      | (found', Return _) => forEach l' body found'
      | (found', Throw e) => (found', Throw e)
      end
  end.

(** [this.refactorings.filter(...)], each with its place in
    [this.refactorings]. *)
Definition refactoringsToCheck : list (nat * Refactoring NodePath) :=
  List.filter (λ r, shouldShowInQuickFix host (key (command r.2)))
    (imap (λ i r, (i, r)) refactorings).

(** The [enter] that [findApplicableRefactorings] traverses with. *)
Definition enterPath (editor : Editor) (path : NodePath)
  : Discovery NodePath → Discovery NodePath * Outcome unit :=
  forEach refactoringsToCheck
    (λ r,
       onMatches r.1 r.2
         (visit (createVisitor (actionProvider r.2) (selection editor)
                   (code editor))
            path)).

(** [findApplicableRefactorings]: the messages written so far go in, the
    messages written and the refactorings found (or the exception) come
    out. *)
Definition findApplicableRefactorings (editor : Editor)
    (written : gmap nat Code)
  : gmap nat Code * Outcome (list (nat * Refactoring NodePath)) :=
  match parse (code editor) with
  | Throw e => (written, Throw e)
  | Return ast =>
      match forEach (traverseAST ast) (enterPath editor)
              (mkDiscovery [] written) with
      | (found, Return _) =>
          (messages found, Return (JS.mapValues (applicableRefactorings found)))
      | (found, Throw e) => (messages found, Throw e)
      end
  end.

(** [refactoring.actionProvider.message], as last written. *)
Definition currentMessage (written : gmap nat Code)
    (refactoring : nat * Refactoring NodePath) : Code :=
  default (message (actionProvider refactoring.2)) (written !! refactoring.1).

Definition buildCodeActionFor (written : gmap nat Code)
    (refactoring : nat * Refactoring NodePath) : CodeAction :=
  mkCodeAction
    (currentMessage written refactoring ++ str " ✨")
    (isPreferred (actionProvider refactoring.2))
    (str "abracadabra." ++ list_ascii_of_string (key (command refactoring.2)))
    (title (command refactoring.2)).

(** [s.includes(pat)] *)
Definition includes (s pat : Code) : bool := JS.indexOf pat s >? -1.

Definition isNavigatingAnIgnoredFile (filePath : Code) : Outcome bool :=
  let relativeFilePath := asRelativePath host filePath in
  let isFolderIgnored :=
    existsb (λ ignored, includes relativeFilePath (str "/" ++ ignored ++ str "/"))
      (getIgnoredFolders host) in
  let isPatternIgnored :=
    existsb (λ ignored, minimatch host relativeFilePath ignored)
      (getIgnoredPatterns host) in
  match readFile host filePath with
  | Throw e => Throw e
  | Return fileContent =>
      let fileLength :=
        Z.of_nat (length (JS.split InMemoryEditor.LINE_SEPARATOR fileContent)) in
      let isTooLarge := fileLength >? getMaxFileLinesCount host in
      Return (isFolderIgnored || isPatternIgnored || isTooLarge)
  end.

Definition NO_ACTION : list CodeAction := [].

Definition provideCodeActions (document : TextDocument)
    (written : gmap nat Code)
  : gmap nat Code * Outcome (list CodeAction) :=
  match isNavigatingAnIgnoredFile (uriPath document) with
  | Throw e => (written, Throw e)
  | Return true => (written, Return NO_ACTION)
  | Return false =>
      match createVSCodeEditor host with
      | None => (written, Return NO_ACTION)
      | Some editor =>
          match findApplicableRefactorings editor written with
          | (written', Return found) =>
              (written', Return (map (buildCodeActionFor written') found))
          | (written', Throw _) => (written', Return NO_ACTION)
          end
      end
  end.

End Provider.

End RefactoringActionProvider.

(** * Definitions the properties are stated with *)

(** Exactly one of three conditions holds. *)
Definition exactlyOne (p q r : bool) : Prop :=
  (p = true ∧ q = false ∧ r = false)
  ∨ (p = false ∧ q = true ∧ r = false)
  ∨ (p = false ∧ q = false ∧ r = true).

(** The calls a client makes on an in-memory editor. *)
Inductive Call : Type :=
  | Write (code : Code) (newCursorPosition : option Position.t)
  | WriteIn (path : RelativePath) (code : Code)
  | ReadThenWrite (selection : Selection.t)
      (getModifications : Code → list Modification.t)
      (newCursorPosition : option Position.t)
  | MoveCursorTo (position : Position.t).

Definition perform (editor : InMemoryEditor.t) (call : Call) : InMemoryEditor.t :=
  match call with
  | Write code newCursorPosition =>
      InMemoryEditor.write editor code newCursorPosition
  | WriteIn path code => InMemoryEditor.writeIn editor path code
  | ReadThenWrite selection getModifications newCursorPosition =>
      (InMemoryEditor.readThenWrite selection getModifications newCursorPosition
         editor).1
  | MoveCursorTo position => InMemoryEditor.moveCursorTo editor position
  end.

Definition writesIn (path : RelativePath) (call : Call) : Prop :=
  match call with
  | WriteIn path' _ => path' = path
  | _ => False
  end.

(** A line of a fixture that holds none of the three markers. *)
Definition holdsNoMarker (line : Code) : Prop :=
  JS.indexOf InMemoryEditor.CURSOR line = -1
  ∧ JS.indexOf InMemoryEditor.SELECTION_START line = -1
  ∧ JS.indexOf InMemoryEditor.SELECTION_END line = -1.

(** What a run of a callback did: the paths it gave to [onMatch], and
    whether it returned. *)
Fixpoint matches {NodePath} (run : RefactoringActionProvider.Run NodePath)
  : list NodePath :=
  match run with
  | RefactoringActionProvider.OnMatch visitedPath next =>
      visitedPath :: matches next
  | _ => []
  end.

Fixpoint returns {NodePath} (run : RefactoringActionProvider.Run NodePath)
  : Prop :=
  match run with
  | RefactoringActionProvider.Finish => True
  | RefactoringActionProvider.OnMatch _ next => returns next
  | RefactoringActionProvider.Fail => False
  end.

(** The identifier of a candidate. *)
Definition keyOf {NodePath}
    (r : nat * RefactoringActionProvider.Refactoring NodePath) : string :=
  RefactoringActionProvider.key (RefactoringActionProvider.command r.2).

(** The first occurrence of every element, in order. *)
Fixpoint firstOccurrences (l : list string) : list string :=
  match l with
  | [] => []
  | k :: l' => k :: filter (λ k', k' ≠ k) (firstOccurrences l')
  end.

(** The first claim of every refactoring, in order. *)
Fixpoint firstClaims {NodePath}
    (l : list (nat * RefactoringActionProvider.Refactoring NodePath))
  : list (nat * RefactoringActionProvider.Refactoring NodePath) :=
  match l with
  | [] => []
  | r :: l' => r :: filter (λ r', keyOf r' ≠ keyOf r) (firstClaims l')
  end.

Section Claims.

Import RefactoringActionProvider.

Context {AST NodePath : Type}.
Variable nodeType : NodePath → string.
Variable isType : string → string → bool.
Variable host : Host.
Variable refactorings : list (Refactoring NodePath).
Variable editor : Editor.

(** The visit of [path] with the visitor of a candidate. *)
Definition visitOf (r : nat * Refactoring NodePath) (path : NodePath)
  : Run NodePath :=
  visit nodeType isType
    (createVisitor (actionProvider r.2) (selection editor) (code editor)) path.

(** The claims made at a node: every candidate, in the order of the
    candidates, once for each call of its [onMatch]. *)
Definition claimedAt (path : NodePath) : list (nat * Refactoring NodePath) :=
  flat_map (λ r, map (λ _, r) (matches (visitOf r path)))
    (refactoringsToCheck host refactorings).

(** The claims of a traversal, in the order of the nodes. *)
Definition claimed (paths : list NodePath) : list (nat * Refactoring NodePath) :=
  flat_map claimedAt paths.

(** Every visit of the traversal returns. *)
Definition allReturn (paths : list NodePath) : Prop :=
  ∀ path r,
    path ∈ paths → r ∈ refactoringsToCheck host refactorings →
    returns (visitOf r path).

End Claims.

(** The [Map] of a discovery after the claims [cs], made in that order. *)
Definition recorded {NodePath}
    (cs : list (nat * RefactoringActionProvider.Refactoring NodePath))
    (m : list (string * (nat * RefactoringActionProvider.Refactoring NodePath)))
  : list (string * (nat * RefactoringActionProvider.Refactoring NodePath)) :=
  fold_left (λ m c, JS.mapSet m (keyOf c) c) cs m.

Definition addKey (acc : list string) (k : string) : list string :=
  if decide (k ∈ acc) then acc else acc ++ [k].

(** The code matrix of a buffer whose lines are [lines], as the constructor
    and [write] build it: one code unit per cell. *)
Definition matrixOf (lines : list Code) : CodeMatrix := map JS.chars lines.

(** The text of a buffer whose lines are [lines]. *)
Definition textOf (lines : list Code) : Code :=
  JS.join [InMemoryEditor.LINE_SEPARATOR] lines.

(** A position of the buffer: on a line of it, at or before its end. *)
Definition inBuffer (lines : list Code) (p : Position.t) : Prop :=
  0 ≤ Position.line p ∧ 0 ≤ Position.character p
  ∧ ∃ line,
      lines !! Z.to_nat (Position.line p) = Some line
      ∧ Position.character p ≤ Z.of_nat (length line).

(** The offset of a position in the text: the lines above, each with its
    separator, and the characters before it on its line. *)
Definition offsetOf (lines : list Code) (p : Position.t) : nat :=
  (sum_list (map (λ line, S (length line))
               (take (Z.to_nat (Position.line p)) lines))
   + Z.to_nat (Position.character p))%nat.

(** A Modification over the buffer: its range starts and ends in the buffer
    and does not end before it starts. *)
Definition validModification (lines : list Code) (m : Modification.t) : Prop :=
  inBuffer lines (Selection.start (Modification.selection m))
  ∧ inBuffer lines (Selection.end_ (Modification.selection m))
  ∧ Position.isBefore (Selection.start (Modification.selection m))
      (Selection.end_ (Modification.selection m)) = true.

(** [b] follows [a] in the document without overlapping it: [a] ends at or
    before the start of [b], and the two do not start at the same place. *)
Definition follows (a b : Modification.t) : Prop :=
  Position.isBefore (Selection.end_ (Modification.selection a))
    (Selection.start (Modification.selection b)) = true
  ∧ Selection.start (Modification.selection a)
    ≠ Selection.start (Modification.selection b).

(** The text with the ranges [first, last) replaced, left to right: what is
    between the previous range and this one, the replacement, and so on. *)
Fixpoint spliceFrom (text : Code) (from : nat) (edits : list (nat * nat * Code))
  : Code :=
  match edits with
  | [] => drop from text
  | (first, last, code) :: edits' =>
      take (first - from) (drop from text) ++ code ++ spliceFrom text last edits'
  end.

(** The original text with the range of every Modification replaced by its
    code, the Modifications being given in document order. *)

(** The text of the lines that follow a line: each after a separator. *)
Definition following (ts : list Code) : Code :=
  concat (map (λ t, InMemoryEditor.LINE_SEPARATOR :: t) ts).

(** The text of the lines that precede a line: each before a separator. *)
Definition preceding (ts : list Code) : Code :=
  concat (map (λ t, t ++ [InMemoryEditor.LINE_SEPARATOR]) ts).

(** The texts of the lines of a code matrix that are not deleted, for a code
    matrix whose deleted lines are known: a line marked deleted has no text,
    any other line has the text of its cells. *)
Inductive liveTexts : CodeMatrix → list Code → Prop :=
  | liveTexts_nil : liveTexts [] []
  | liveTexts_deleted rows ts :
      liveTexts rows ts →
      liveTexts ([InMemoryEditor.DELETED_LINE] :: rows) ts
  | liveTexts_live row rows ts :
      liveTexts rows ts → liveTexts (row :: rows) (concat row :: ts).

(** The code matrix in the course of a commit, right-most Modification
    first.  Up to the frontier [p] the code matrix is the original buffer,
    cell by cell; from it on, the line of [p] holds [cells] and the lines
    below are [rows], of which the live ones have the texts [ts]; [tail] is
    the text that the code matrix holds from the frontier on. *)
Definition atFrontier (lines : list Code) (matrix : CodeMatrix)
    (p : Position.t) (tail : Code) : Prop :=
  ∃ above line below cells rows ts,
    lines = above ++ line :: below
    ∧ 0 ≤ Position.line p ∧ 0 ≤ Position.character p
    ∧ length above = Z.to_nat (Position.line p)
    ∧ (Z.to_nat (Position.character p) ≤ length line)%nat
    ∧ matrix
      = matrixOf above
        ++ (JS.chars (take (Z.to_nat (Position.character p)) line) ++ cells)
           :: rows
    ∧ length rows = length below
    ∧ liveTexts rows ts
    ∧ tail = concat cells ++ following ts.

(** The text from [from] up to [stop] with the ranges [first, last) in
    between replaced, left to right. *)
Fixpoint spliceBetween (text : Code) (from : nat)
    (edits : list (nat * nat * Code)) (stop : nat) : Code :=
  match edits with
  | [] => take (stop - from) (drop from text)
  | (first, last, code) :: edits' =>
      take (first - from) (drop from text) ++ code
      ++ spliceBetween text last edits' stop
  end.

(** The ranges of Modifications, as offsets in the text. *)
Definition editsOf (lines : list Code) (ms : list Modification.t)
  : list (nat * nat * Code) :=
  map (λ m, (offsetOf lines (Selection.start (Modification.selection m)),
             offsetOf lines (Selection.end_ (Modification.selection m)),
             Modification.code m)) ms.

(** The original text with the range of every Modification replaced by its
    code, the Modifications being given in document order. *)
Definition spliceInDocumentOrder (lines : list Code) (ms : list Modification.t)
  : Code :=
  spliceFrom (textOf lines) 0 (editsOf lines ms).

(** Modifications from right to left, each over the buffer and ending at or
    before the start of the one before it, the first at or before [p]. *)
Fixpoint rightToLeft (lines : list Code) (p : Position.t)
    (ms : list Modification.t) : Prop :=
  match ms with
  | [] => True
  | m :: ms' =>
      validModification lines m
      ∧ Position.isBefore (Selection.end_ (Modification.selection m)) p = true
      ∧ rightToLeft lines (Selection.start (Modification.selection m)) ms'
  end.

(** [a] starts at or before [b]: what [startsBefore] tests. *)
Definition startsNoLater (a b : Modification.t) : Prop :=
  Selection.startsBefore (Modification.selection a) (Modification.selection b)
  = true.

(** [keeps R c]: running [c] relates the editor before to the editor
    after, whether [c] returns or throws. *)
Definition keeps {A} (R : InMemoryEditor.t → InMemoryEditor.t → Prop)
    (c : InMemoryEditor.M A) : Prop :=
  ∀ this, R this (c this).1.

(** The commit writes lines only: the selection and the other files stay. *)
Definition sameFrame (this this' : InMemoryEditor.t) : Prop :=
  InMemoryEditor._selection this' = InMemoryEditor._selection this
  ∧ InMemoryEditor.otherFiles this' = InMemoryEditor.otherFiles this.

(** A statement whose outcome depends on the code matrix only. *)
Definition readsMatrixOnly {A} (c : InMemoryEditor.M A) : Prop :=
  ∀ this1 this2,
    InMemoryEditor.codeMatrix this1 = InMemoryEditor.codeMatrix this2 →
    (c this1).2 = (c this2).2
    ∧ InMemoryEditor.codeMatrix (c this1).1
      = InMemoryEditor.codeMatrix (c this2).1.

Section Messages.

Import RefactoringActionProvider.

Context {NodePath : Type}.
Variable nodeType : NodePath → string.
Variable isType : string → string → bool.
Variable editor : Editor.

(** The paths the [onMatch] of a candidate receives during a traversal, in
    the order of the calls. *)
Definition matchedBy (r : nat * Refactoring NodePath) (paths : list NodePath)
  : list NodePath :=
  flat_map (λ path, matches (visitOf nodeType isType editor r path)) paths.

(** The message of a candidate whose [onMatch] received [visitedPaths], in
    that order, when it was [before]. *)
Definition lastWritten (r : nat * Refactoring NodePath)
    (visitedPaths : list NodePath) (before : Code) : Code :=
  match updateMessage (actionProvider r.2), last visitedPaths with
  | Some update, Some visitedPath => update visitedPath
  | _, _ => before
  end.

End Messages.

(** The [Map] of a discovery holds candidates only, each under its
    identifier, and no identifier twice. *)
Definition holdsCandidates {NodePath} (host : RefactoringActionProvider.Host)
    (refactorings : list (RefactoringActionProvider.Refactoring NodePath))
    (found : RefactoringActionProvider.Discovery NodePath) : Prop :=
  (∀ e, e ∈ RefactoringActionProvider.applicableRefactorings found →
        e.1 = keyOf e.2
        ∧ e.2 ∈ RefactoringActionProvider.refactoringsToCheck host refactorings)
  ∧ NoDup (RefactoringActionProvider.keys
             (RefactoringActionProvider.applicableRefactorings found)).

(** The number of code units of [s] that are [c]. *)
Definition occurrences (c : ascii) (s : Code) : nat :=
  length (filter (λ x, x = c) s).

(** [pat] occurs in [s]. *)
Definition occursIn (pat s : Code) : Prop :=
  ∃ before after, s = before ++ pat ++ after.

(** [text] with [tag] put in before the code unit at [n]. *)
Definition insertAt (n : nat) (tag text : Code) : Code :=
  take n text ++ tag ++ drop n text.

(** A position at a code unit of the buffer: on a line of it, before its
    end. *)
Definition atCell (lines : list Code) (p : Position.t) : bool :=
  match JS.get lines (Position.line p) with
  | Some line =>
      (0 <=? Position.character p)
      && (Position.character p <? Z.of_nat (length line))
  | None => false
  end.

(** The tag of the one highlight [selection] before the cell at
    ([lineIndex], [charIndex]): opening at its start, else closing at its
    end. *)
Definition tagAt (opening closing : Code) (selection : Selection.t)
    (lineIndex charIndex : Z) : Code :=
  if (Position.line (Selection.start selection) =? lineIndex)
     && (Position.character (Selection.start selection) =? charIndex)
  then opening
  else if (Position.line (Selection.end_ selection) =? lineIndex)
          && (Position.character (Selection.end_ selection) =? charIndex)
  then closing
  else [].

(** A line with the tag of every cell before it, the first cell being at
    [charIndex]. *)
Fixpoint tagged (tag : Z → Code) (line : Code) (charIndex : Z) : Code :=
  match line with
  | [] => []
  | c :: line' => tag charIndex ++ c :: tagged tag line' (charIndex + 1)
  end.

(** A line of the buffer with the tags of the one highlight [selection]
    put in: the closing tag before the cell of its end, unless its end is
    its start, and the opening tag before the cell of its start. *)
Definition highlightedLine (opening closing : Code) (selection : Selection.t)
    (lineIndex : Z) (line : Code) : Code :=
  let start := Selection.start selection in
  let end_ := Selection.end_ selection in
  let closed :=
    if (Position.line end_ =? lineIndex)
       && (0 <=? Position.character end_)
       && (Position.character end_ <? Z.of_nat (length line))
       && negb (Position.isEqualTo start end_)
    then insertAt (Z.to_nat (Position.character end_)) closing line
    else line in
  if (Position.line start =? lineIndex)
     && (0 <=? Position.character start)
     && (Position.character start <? Z.of_nat (length line))
  then insertAt (Z.to_nat (Position.character start)) opening closed
  else closed.


(** * Properties *)

(** ** Positions *)

Section PositionOrder.

Import Position.

Lemma isEqualTo_eq (a b : t) : isEqualTo a b = true ↔ a = b.
Proof.
  destruct a as [la ca], b as [lb cb].
  unfold isEqualTo, isSameLineThan; simpl.
  rewrite andb_true_iff, !Z.eqb_eq.
  split; [intros [-> ->]; reflexivity | intros [= -> ->]; auto].
Qed.

(** [isBefore] is "before or equal": the lexicographic order on
    (line, character). *)
Lemma isBefore_le (a b : t) :
  isBefore a b = true
  ↔ line a < line b ∨ (line a = line b ∧ character a ≤ character b).
Proof.
  unfold isBefore, isEqualTo, isSameLineThan.
  rewrite !orb_true_iff, !andb_true_iff, !Z.eqb_eq, !Z.ltb_lt. lia.
Qed.

Lemma isBefore_false (a b : t) :
  isBefore a b = false
  ↔ line b < line a ∨ (line a = line b ∧ character b < character a).
Proof.
  rewrite <- not_true_iff_false, isBefore_le. lia.
Qed.

Lemma isAfter_ge (a b : t) :
  isAfter a b = true
  ↔ line b < line a ∨ (line a = line b ∧ character b ≤ character a).
Proof.
  unfold isAfter. rewrite orb_true_iff, negb_true_iff, isBefore_false.
  unfold isEqualTo, isSameLineThan.
  rewrite andb_true_iff, !Z.eqb_eq. lia.
Qed.

End PositionOrder.

(** C1, as stated, fails: [isBefore] holds of equal positions, so for a
    position compared with itself all three conditions hold, not one. *)
Lemma position_trichotomy_fails :
  let a := Position.mk 0 0 in
  ¬ exactlyOne (Position.isBefore a a) (Position.isEqualTo a a)
      (Position.isBefore a a).
Proof.
  intros a [(_ & H & _) | [(H & _) | (H & _)]]; vm_compute in H; discriminate.
Qed.

(** C1, amended: for all positions [a] and [b], [a.isBefore(b)] or
    [b.isBefore(a)] holds; both hold exactly when [a.isEqualTo(b)] (so all
    three hold of equal positions); and of different positions exactly one
    of [a.isBefore(b)], [a.isEqualTo(b)], [b.isBefore(a)] holds. *)
Theorem position_order_total (a b : Position.t) :
  (Position.isBefore a b = true ∨ Position.isBefore b a = true)
  ∧ (Position.isEqualTo a b = true
     ↔ Position.isBefore a b = true ∧ Position.isBefore b a = true)
  ∧ (a ≠ b →
     exactlyOne (Position.isBefore a b) (Position.isEqualTo a b)
       (Position.isBefore b a)).
Proof.
  assert (Heq := isEqualTo_eq a b).
  assert (Hab := isBefore_le a b). assert (Hba := isBefore_le b a).
  assert (Hab' := isBefore_false a b). assert (Hba' := isBefore_false b a).
  split; [|split].
  - rewrite Hab, Hba. lia.
  - rewrite Heq, Hab, Hba. split.
    + intros ->. lia.
    + intros [H1 H2]. destruct a, b; simpl in *. f_equal; lia.
  - intros Hne. unfold exactlyOne.
    assert (Position.isEqualTo a b = false) as ->.
    { apply not_true_iff_false. rewrite Heq. exact Hne. }
    assert (Position.line a ≠ Position.line b
            ∨ Position.character a ≠ Position.character b) as Hd.
    { destruct a as [la ca], b as [lb cb]; simpl.
      destruct (decide (la = lb)) as [->|]; [|auto].
      right. intros ->. auto. }
    clear Hab Hba Hab' Hba' Heq.
    destruct (Position.isBefore a b) eqn:E1, (Position.isBefore b a) eqn:E2;
      [exfalso | left; auto | right; right; auto | exfalso].
    + apply isBefore_le in E1. apply isBefore_le in E2. lia.
    + apply isBefore_false in E1. apply isBefore_false in E2. lia.
Qed.

Lemma position_order_total_witness :
  let a := Position.mk 1 4 in
  let b := Position.mk 2 0 in
  a ≠ b
  ∧ exactlyOne (Position.isBefore a b) (Position.isEqualTo a b)
      (Position.isBefore b a).
Proof.
  intros a b.
  assert (a ≠ b) as Hne by (intros [=]).
  split; [exact Hne|].
  exact (proj2 (proj2 (position_order_total a b)) Hne).
Defined.

(** ** The statements of the in-memory editor *)

Section EditorStatements.

Import InMemoryEditor.

Context (R : t → t → Prop) `{!Reflexive R} `{!Transitive R}.

Lemma keeps_ret {A} (a : A) : keeps R (mret a).
Proof. intros this. simpl. reflexivity. Qed.

Lemma keeps_bind {A B} (c : M A) (k : A → M B) :
  keeps R c → (∀ a, keeps R (k a)) → keeps R (c ≫= k).
Proof.
  intros Hc Hk this. unfold mbind, M_bind, bind.
  specialize (Hc this). destruct (c this) as [this' [a|e]]; simpl in *.
  - etransitivity; [exact Hc | apply Hk].
  - exact Hc.
Qed.

Lemma keeps_lineAt i : keeps R (lineAt i).
Proof.
  intros this. unfold lineAt.
  destruct (JS.get (codeMatrix this) i); simpl; reflexivity.
Qed.

Lemma keeps_forEach {A} (l : list A) (body : A → M unit) :
  (∀ x, keeps R (body x)) → keeps R (forEach l body).
Proof.
  intros Hbody. induction l as [|x l IH]; simpl.
  - intros this. simpl. reflexivity.
  - apply keeps_bind; auto.
Qed.

Lemma keeps_mapM {A B} (l : list A) (f : A → M B) :
  (∀ x, keeps R (f x)) → keeps R (mapM l f).
Proof.
  intros Hf. induction l as [|x l IH]; simpl.
  - intros this. simpl. reflexivity.
  - apply keeps_bind; [auto|]. intros y.
    apply keeps_bind; [auto|]. intros ys this. simpl. reflexivity.
Qed.

Lemma keeps_readSelection selection : keeps R (readSelection selection).
Proof.
  unfold readSelection.
  destruct (_ =? _); [|destruct (_ >? _)].
  - apply keeps_bind; [apply keeps_lineAt|]. intros line this. simpl. reflexivity.
  - apply keeps_bind; [apply keeps_lineAt|]. intros first.
    apply keeps_bind; [apply keeps_mapM, keeps_lineAt|]. intros between.
    apply keeps_bind; [apply keeps_lineAt|]. intros last this. simpl. reflexivity.
  - intros this. simpl. reflexivity.
Qed.

Hypothesis keeps_setLine : ∀ i line, keeps R (setLine i line).

Lemma keeps_applyModification m : keeps R (applyModification m).
Proof.
  unfold applyModification.
  destruct (_ =? _); [|destruct (_ >? _)].
  - apply keeps_bind; [apply keeps_lineAt|]. intros line. apply keeps_setLine.
  - apply keeps_bind; [apply keeps_lineAt|]. intros line.
    apply keeps_bind; [apply keeps_setLine|]. intros _.
    apply keeps_bind; [apply keeps_lineAt|]. intros line'.
    apply keeps_bind; [apply keeps_lineAt|]. intros last.
    apply keeps_bind; [apply keeps_setLine|]. intros _.
    apply keeps_forEach. intros i. apply keeps_setLine.
  - intros this. simpl. reflexivity.
Qed.

End EditorStatements.

Section EditorFrame.

Import InMemoryEditor.

(** Reading the selection leaves the editor as it is. *)
Lemma readSelection_state selection this :
  (readSelection selection this).1 = this.
Proof.
  symmetry. apply (keeps_readSelection eq).
Qed.

#[local] Instance sameFrame_refl : Reflexive sameFrame.
Proof. intros this. split; reflexivity. Qed.

#[local] Instance sameFrame_trans : Transitive sameFrame.
Proof. intros a b c [H1 H2] [H3 H4]. split; congruence. Qed.

Lemma sameFrame_setLine i line : keeps sameFrame (setLine i line).
Proof. intros this. split; reflexivity. Qed.

Lemma sameFrame_commit (l : list Modification.t) :
  keeps sameFrame (forEach l applyModification).
Proof.
  apply keeps_forEach; try apply _. intros m.
  apply keeps_applyModification; try apply _. apply sameFrame_setLine.
Qed.

(** What [readThenWrite] does after it has placed the cursor. *)
Lemma readThenWrite_unfold selection getModifications newCursorPosition this :
  readThenWrite selection getModifications newCursorPosition this =
    let this0 :=
      match newCursorPosition with
      | Some p => withSelection this (Selection.cursorAtPosition p)
      | None => this
      end in
    match readSelection selection this0 with
    | (_, Return readCodeMatrix) =>
        forEach (JS.sort rightMostFirst (getModifications (read readCodeMatrix)))
          applyModification this0
    | (_, Throw e) => (this0, Throw e)
    end.
Proof.
  unfold readThenWrite, mbind, M_bind, bind.
  destruct newCursorPosition as [p|]; simpl.
  - pose proof (readSelection_state selection
                  (withSelection this (Selection.cursorAtPosition p))) as Hs.
    destruct (readSelection _ _) as [this' [m|e]]; simpl in Hs; subst; reflexivity.
  - pose proof (readSelection_state selection this) as Hs.
    destruct (readSelection _ _) as [this' [m|e]]; simpl in Hs; subst; reflexivity.
Qed.

Lemma readThenWrite_frame selection getModifications newCursorPosition this :
  sameFrame
    match newCursorPosition with
    | Some p => withSelection this (Selection.cursorAtPosition p)
    | None => this
    end
    (readThenWrite selection getModifications newCursorPosition this).1.
Proof.
  rewrite readThenWrite_unfold. cbv zeta.
  destruct (readSelection _ _) as [this' [m|e]]; simpl.
  - apply sameFrame_commit.
  - reflexivity.
Qed.

End EditorFrame.

(** C8: after every call to [readThenWrite], whether it returned or threw,
    the selection is a cursor at [newCursorPosition] when that argument was
    supplied, and is the selection of before the call when it was omitted. *)
Theorem readThenWrite_cursor (selection : Selection.t)
    (getModifications : Code → list Modification.t) (editor : InMemoryEditor.t) :
  (∀ newCursorPosition,
     InMemoryEditor.selection
       (InMemoryEditor.readThenWrite selection getModifications
          (Some newCursorPosition) editor).1
     = Selection.cursorAtPosition newCursorPosition)
  ∧ InMemoryEditor.selection
      (InMemoryEditor.readThenWrite selection getModifications None editor).1
    = InMemoryEditor.selection editor.
Proof.
  split.
  - intros p.
    destruct (readThenWrite_frame selection getModifications (Some p) editor)
      as [H _].
    unfold InMemoryEditor.selection. rewrite H. reflexivity.
  - destruct (readThenWrite_frame selection getModifications None editor)
      as [H _].
    unfold InMemoryEditor.selection. rewrite H. reflexivity.
Qed.

(** ** Selections whose end line is above their start line *)

Section ReversedLines.

Import InMemoryEditor.

Lemma readSelection_reversed selection this :
  Position.line (Selection.end_ selection)
  < Position.line (Selection.start selection) →
  readSelection selection this = (this, Return []).
Proof.
  intros H. unfold readSelection.
  destruct (Z.eqb_spec (Position.line (Selection.start selection))
              (Position.line (Selection.end_ selection))); [lia|].
  destruct (Z.gtb_spec (Position.line (Selection.end_ selection))
              (Position.line (Selection.start selection))); [lia|].
  reflexivity.
Qed.

Lemma applyModification_reversed m this :
  Position.line (Selection.end_ (Modification.selection m))
  < Position.line (Selection.start (Modification.selection m)) →
  applyModification m this = (this, Return tt).
Proof.
  intros H. unfold applyModification.
  destruct (Z.eqb_spec
              (Position.line (Selection.start (Modification.selection m)))
              (Position.line (Selection.end_ (Modification.selection m))));
    [lia|].
  destruct (Z.gtb_spec
              (Position.line (Selection.end_ (Modification.selection m)))
              (Position.line (Selection.start (Modification.selection m))));
    [lia|].
  reflexivity.
Qed.

Lemma forEach_app {A} (l1 l2 : list A) (body : A → M unit) this :
  forEach (l1 ++ l2) body this =
    match forEach l1 body this with
    | (this', Return _) => forEach l2 body this'
    | (this', Throw e) => (this', Throw e)
    end.
Proof.
  revert this. induction l1 as [|x l1 IH]; intros this; simpl.
  - reflexivity.
  - unfold mbind, M_bind, bind.
    destruct (body x this) as [this' [[]|e]]; [apply IH | reflexivity].
Qed.

End ReversedLines.

(** C9: when the selection given to [readThenWrite] ends on a line above the
    one it starts on, no line is read, the text passed to
    [getModifications] is the empty string, and the call is the commit of
    [getModifications("")]; and a Modification whose selection ends on a line
    above the one it starts on is skipped: it leaves the editor, hence the
    code matrix and the serialized code, as they are, and the commit of a
    list that holds it is the commit of the list without it. *)
Theorem reversed_lines_are_skipped (selection : Selection.t)
    (m : Modification.t) (editor : InMemoryEditor.t) :
  (Position.line (Selection.end_ selection)
   < Position.line (Selection.start selection) →
   InMemoryEditor.readSelection selection editor = (editor, Return [])
   ∧ InMemoryEditor.read [] = []
   ∧ ∀ getModifications newCursorPosition,
       InMemoryEditor.readThenWrite selection getModifications
         newCursorPosition editor
       = InMemoryEditor.readThenWrite selection (λ _, getModifications [])
           newCursorPosition editor)
  ∧ (Position.line (Selection.end_ (Modification.selection m))
     < Position.line (Selection.start (Modification.selection m)) →
     InMemoryEditor.applyModification m editor = (editor, Return tt)
     ∧ InMemoryEditor.code (InMemoryEditor.applyModification m editor).1
       = InMemoryEditor.code editor
     ∧ ∀ before after,
         InMemoryEditor.forEach (before ++ m :: after)
           InMemoryEditor.applyModification editor
         = InMemoryEditor.forEach (before ++ after)
             InMemoryEditor.applyModification editor).
Proof.
  split.
  - intros H. split; [|split].
    + apply readSelection_reversed, H.
    + reflexivity.
    + intros f p. rewrite !readThenWrite_unfold. cbv zeta.
      rewrite !readSelection_reversed by exact H. reflexivity.
  - intros H. split; [|split].
    + apply applyModification_reversed, H.
    + rewrite applyModification_reversed by exact H. reflexivity.
    + intros before after. rewrite !forEach_app.
      destruct (InMemoryEditor.forEach before _ editor) as [this' [[]|e]];
        [|reflexivity].
      simpl. unfold mbind, InMemoryEditor.M_bind, InMemoryEditor.bind.
      rewrite applyModification_reversed by exact H. reflexivity.
Qed.

Lemma reversed_lines_are_skipped_witness :
  let selection := Selection.mk (Position.mk 2 0) (Position.mk 1 3) in
  let m := Modification.mk (str "X") selection in
  let editor := InMemoryEditor.new (str "abc") in
  InMemoryEditor.readSelection selection editor = (editor, Return [])
  ∧ InMemoryEditor.applyModification m editor = (editor, Return tt).
Proof.
  intros selection m editor.
  assert (Position.line (Selection.end_ selection)
          < Position.line (Selection.start selection)) as H by (simpl; lia).
  destruct (reversed_lines_are_skipped selection m editor) as [H1 H2].
  split.
  - exact (proj1 (H1 H)).
  - exact (proj1 (H2 H)).
Defined.

(** ** Other files *)

Section OtherFiles.

Import InMemoryEditor.

Lemma perform_otherFiles editor call path :
  ¬ writesIn path call →
  otherFiles (perform editor call) !! path = otherFiles editor !! path.
Proof.
  intros Hw. destruct call as [c p|path' c|s f p|p]; simpl in *.
  - unfold write. destruct p; reflexivity.
  - apply lookup_insert_ne. exact Hw.
  - destruct (readThenWrite_frame s f p editor) as [_ ->].
    destruct p; reflexivity.
  - reflexivity.
Qed.

Lemma calls_otherFiles calls editor path :
  Forall (λ call, ¬ writesIn path call) calls →
  otherFiles (fold_left perform calls editor) !! path
  = otherFiles editor !! path.
Proof.
  revert editor. induction calls as [|call calls IH]; intros editor H; simpl.
  - reflexivity.
  - inversion H as [|? ? Hc Hcs]; subst.
    rewrite IH by exact Hcs. apply perform_otherFiles, Hc.
Qed.

End OtherFiles.

(** C10: on an editor built by the constructor and used through any calls
    none of which is a [writeIn] of [path], [codeOf(path)] returns the empty
    string. *)
Theorem codeOf_unwritten (code : Code) (position : Position.t)
    (calls : list Call) (path : RelativePath) :
  Forall (λ call, ¬ writesIn path call) calls →
  InMemoryEditor.codeOf
    (fold_left perform calls (InMemoryEditor.create code position)) path
  = [].
Proof.
  intros H. unfold InMemoryEditor.codeOf.
  rewrite calls_otherFiles by exact H. simpl.
  rewrite lookup_empty. reflexivity.
Qed.

Lemma codeOf_unwritten_witness :
  InMemoryEditor.codeOf
    (fold_left perform
       [WriteIn "other.ts"%string (str "let a = 1"); MoveCursorTo (Position.mk 0 1)]
       (InMemoryEditor.create (str "abc") (Position.mk 0 0)))
    "unwritten.ts"%string
  = [].
Proof.
  apply codeOf_unwritten.
  repeat constructor; simpl; [discriminate | tauto].
Defined.

(** ** The multi-line example *)

(** C3: on the buffer of lines "abc", "def", "ghi", [readThenWrite] over the
    selection (0,1)-(2,2), with a [getModifications] that answers the text
    read there, "bc\ndef\ngh", by the one Modification replacing that
    selection with "X", returns and leaves the serialized text "aXi": the
    start line up to the selection, the replacement, the end line from the
    selection on, the two other lines marked deleted. *)
Theorem multi_line_merge_example
    (getModifications : Code → list Modification.t)
    (newCursorPosition : option Position.t) :
  let selection := Selection.mk (Position.mk 0 1) (Position.mk 2 2) in
  let editor := InMemoryEditor.new (str "abc
def
ghi") in
  getModifications (str "bc
def
gh") = [Modification.mk (str "X") selection] →
  ∃ editor',
    InMemoryEditor.readThenWrite selection getModifications newCursorPosition
      editor = (editor', Return tt)
    ∧ InMemoryEditor.codeMatrix editor'
      = [[str "a"; str "X"; str "i"];
         [InMemoryEditor.DELETED_LINE]; [InMemoryEditor.DELETED_LINE]]
    ∧ InMemoryEditor.code editor' = str "aXi".
Proof.
  intros selection editor Hget.
  rewrite readThenWrite_unfold. cbv zeta.
  destruct newCursorPosition as [p|].
  - change (InMemoryEditor.readSelection selection _)
      with (InMemoryEditor.withSelection editor (Selection.cursorAtPosition p),
            Return (A := CodeMatrix) [[str "b"; str "c"]; [str "d"; str "e"; str "f"];
                    [str "g"; str "h"]]).
    cbv iota beta.
    change (InMemoryEditor.read _) with (str "bc
def
gh").
    rewrite Hget. eexists. split; [reflexivity|]. split; reflexivity.
  - change (InMemoryEditor.readSelection selection _)
      with (editor,
            Return (A := CodeMatrix) [[str "b"; str "c"]; [str "d"; str "e"; str "f"];
                    [str "g"; str "h"]]).
    cbv iota beta.
    change (InMemoryEditor.read _) with (str "bc
def
gh").
    rewrite Hget. eexists. split; [reflexivity|]. split; reflexivity.
Qed.

Lemma multi_line_merge_example_witness :
  let selection := Selection.mk (Position.mk 0 1) (Position.mk 2 2) in
  ∃ editor',
    InMemoryEditor.readThenWrite selection
      (λ _, [Modification.mk (str "X") selection]) None
      (InMemoryEditor.new (str "abc
def
ghi")) = (editor', Return tt)
    ∧ InMemoryEditor.code editor' = str "aXi".
Proof.
  intros selection.
  destruct (multi_line_merge_example
              (λ _, [Modification.mk (str "X") selection]) None eq_refl)
    as (editor' & H1 & _ & H2).
  exists editor'. split; assumption.
Defined.

(** ** Markers of a fixture *)

Section Markers.

Import InMemoryEditor.

Lemma indexOfFrom_absent_replace pat by_ s i :
  0 ≤ i → JS.indexOfFrom pat s i = -1 → JS.replace pat by_ s = s.
Proof.
  revert i. induction s as [|c s IH]; intros i Hi H.
  - simpl in *. destruct (JS.startsWith pat []); [lia | reflexivity].
  - cbn [JS.indexOfFrom JS.replace] in *.
    destruct (JS.startsWith pat (c :: s)); [lia|].
    f_equal. apply (IH (i + 1)); [lia | exact H].
Qed.

Lemma indexOf_absent_replace pat by_ s :
  JS.indexOf pat s = -1 → JS.replace pat by_ s = s.
Proof. apply indexOfFrom_absent_replace. lia. Qed.

(** A line without markers leaves the selection and moves to the next line. *)
Lemma scanLine_holdsNoMarker selection lineIndex line :
  holdsNoMarker line →
  scanLine (selection, lineIndex) line = (selection, lineIndex + 1).
Proof.
  intros (Hc & Hs & He). unfold scanLine.
  rewrite (indexOf_absent_replace _ _ _ Hc), Hc.
  rewrite (indexOf_absent_replace _ _ _ Hs), Hs, He.
  reflexivity.
Qed.

Lemma scan_holdsNoMarker lines selection lineIndex :
  Forall holdsNoMarker lines →
  (fold_left scanLine lines (selection, lineIndex)).1 = selection.
Proof.
  revert lineIndex. induction lines as [|line lines IH]; intros lineIndex H.
  - reflexivity.
  - inversion H as [|? ? Hl Hls]; subst. cbn [fold_left].
    rewrite scanLine_holdsNoMarker by exact Hl. apply IH, Hls.
Qed.

Lemma scan_holdsNoMarker_pair lines selection lineIndex :
  Forall holdsNoMarker lines →
  fold_left scanLine lines (selection, lineIndex)
  = (selection, lineIndex + Z.of_nat (length lines)).
Proof.
  revert lineIndex. induction lines as [|line lines IH]; intros lineIndex H.
  - simpl. f_equal. lia.
  - inversion H as [|? ? Hl Hls]; subst. cbn [fold_left].
    rewrite scanLine_holdsNoMarker by exact Hl. rewrite IH by exact Hls.
    f_equal. simpl length. lia.
Qed.

(** The counter is the number of lines scanned. *)
Lemma scan_lineIndex lines acc :
  (fold_left scanLine lines acc).2 = acc.2 + Z.of_nat (length lines).
Proof.
  revert acc. induction lines as [|line lines IH]; intros [selection i].
  - simpl. lia.
  - cbn [fold_left]. rewrite IH. unfold scanLine. simpl. lia.
Qed.

End Markers.

(** C4, as stated, fails for the cursor marker: with a cursor marker on two
    lines, the first one observed is at line 0, character 0, and the
    selection is the cursor at the marker of the second line. *)
Lemma first_cursor_marker_is_overwritten :
  let fixture := str "[cursor]a
b[cursor]" in
  JS.split InMemoryEditor.LINE_SEPARATOR fixture
  = [str "[cursor]a"; str "b[cursor]"]
  ∧ JS.indexOf InMemoryEditor.CURSOR (str "[cursor]a") = 0
  ∧ InMemoryEditor.selection (InMemoryEditor.new fixture)
    = Selection.cursorAt 1 1
  ∧ InMemoryEditor.selection (InMemoryEditor.new fixture)
    ≠ Selection.cursorAt 0 0.
Proof.
  intros fixture. repeat split; try reflexivity.
  vm_compute. discriminate.
Qed.

(** C4, amended: the scan assigns line after line and a later assignment
    overwrites an earlier one, for the cursor marker as for the start and end
    markers.  Whatever the lines above hold and whatever the default
    selection is: a line with a cursor marker and no start or end marker,
    with no marker below it, sets the cursor selection at the first cursor
    marker of that line; a line with a start marker and, at or after it, an
    end marker, with no marker below it, sets the selection from the one to
    the other; and a line with a start marker and no end marker, followed
    further down by a line whose only marker is an end marker, with no other
    marker below, sets the selection from the start marker to that end
    marker. *)
Theorem last_marker_line_wins (code : Code) (before : list Code)
    (defaultSelection : Selection.t) :
  let lineIndex := Z.of_nat (length before) in
  (∀ line after,
     JS.split InMemoryEditor.LINE_SEPARATOR code = before ++ line :: after →
     Forall holdsNoMarker after →
     let cursorChar := JS.indexOf InMemoryEditor.CURSOR line in
     let line1 := JS.replace InMemoryEditor.CURSOR [] line in
     let startChar := JS.indexOf InMemoryEditor.SELECTION_START line1 in
     let line2 := JS.replace InMemoryEditor.SELECTION_START [] line1 in
     let endChar := JS.indexOf InMemoryEditor.SELECTION_END line2 in
     (cursorChar > -1 → startChar = -1 → endChar = -1 →
      InMemoryEditor.setSelectionFromCursor code defaultSelection
      = Selection.cursorAt lineIndex cursorChar)
     ∧ (startChar > -1 → startChar ≤ endChar →
        InMemoryEditor.setSelectionFromCursor code defaultSelection
        = Selection.mk (Position.mk lineIndex startChar)
            (Position.mk lineIndex endChar)))
  ∧ (∀ line between last after,
       JS.split InMemoryEditor.LINE_SEPARATOR code
       = before ++ line :: between ++ last :: after →
       Forall holdsNoMarker between → Forall holdsNoMarker after →
       let line1 := JS.replace InMemoryEditor.CURSOR [] line in
       let startChar := JS.indexOf InMemoryEditor.SELECTION_START line1 in
       let line2 := JS.replace InMemoryEditor.SELECTION_START [] line1 in
       let endChar := JS.indexOf InMemoryEditor.SELECTION_END last in
       startChar > -1 →
       JS.indexOf InMemoryEditor.SELECTION_END line2 = -1 →
       JS.indexOf InMemoryEditor.CURSOR last = -1 →
       JS.indexOf InMemoryEditor.SELECTION_START last = -1 →
       endChar > -1 →
       InMemoryEditor.setSelectionFromCursor code defaultSelection
       = Selection.mk (Position.mk lineIndex startChar)
           (Position.mk (lineIndex + 1 + Z.of_nat (length between)) endChar)).
Proof.
  intros lineIndex.
  pose proof (scan_lineIndex before (defaultSelection, 0)) as Hidx.
  destruct (fold_left InMemoryEditor.scanLine before (defaultSelection, 0))
    as [selection i] eqn:Hbefore.
  simpl in Hidx. assert (i = lineIndex) as -> by (unfold lineIndex; lia).
  split.
  - intros line after Hsplit Hafter cursorChar line1 startChar line2 endChar.
    unfold InMemoryEditor.setSelectionFromCursor.
    rewrite Hsplit, fold_left_app, Hbefore. cbn [fold_left].
    unfold InMemoryEditor.scanLine.
    fold cursorChar line1. fold startChar line2. fold endChar.
    split.
    + intros Hc Hs He.
      rewrite scan_holdsNoMarker by exact Hafter.
      destruct (Z.gtb_spec cursorChar (-1)); [|lia].
      rewrite Hs, He. reflexivity.
    + intros Hs He.
      rewrite scan_holdsNoMarker by exact Hafter.
      destruct (Z.gtb_spec startChar (-1)); [|lia].
      destruct (Z.gtb_spec endChar (-1)); [|lia].
      unfold Selection.extendEndToStartOf, Selection.cursorAt,
        Selection.cursorAtPosition. simpl.
      assert (Position.isAfter (Position.mk lineIndex endChar)
                (Position.mk lineIndex startChar) = true) as ->.
      { apply isAfter_ge. simpl. lia. }
      reflexivity.
  - intros line between last after Hsplit Hbetween Hafter line1 startChar
      line2 endChar Hs He Hlc Hls Hle.
    assert (InMemoryEditor.scanLine (selection, lineIndex) line
            = (Selection.cursorAt lineIndex startChar, lineIndex + 1)) as Hline.
    { unfold InMemoryEditor.scanLine. fold line1. fold startChar line2.
      rewrite He. destruct (Z.gtb_spec startChar (-1)); [|lia]. reflexivity. }
    assert (∀ selection' lineIndex',
              InMemoryEditor.scanLine (selection', lineIndex') last
              = (Selection.extendEndToStartOf selection'
                   (Selection.cursorAt lineIndex' endChar),
                 lineIndex' + 1)) as Hlast.
    { intros selection' lineIndex'. unfold InMemoryEditor.scanLine.
      rewrite Hlc, (indexOf_absent_replace _ _ _ Hlc).
      rewrite Hls, (indexOf_absent_replace _ _ _ Hls). fold endChar.
      destruct (Z.gtb_spec endChar (-1)); [|lia]. reflexivity. }
    unfold InMemoryEditor.setSelectionFromCursor.
    rewrite Hsplit, fold_left_app, Hbefore. cbn [fold_left].
    rewrite Hline, fold_left_app.
    rewrite scan_holdsNoMarker_pair by exact Hbetween.
    cbn [fold_left]. rewrite Hlast.
    rewrite scan_holdsNoMarker by exact Hafter.
    unfold Selection.extendEndToStartOf, Selection.cursorAt,
      Selection.cursorAtPosition. simpl.
    assert (Position.isAfter
              (Position.mk (lineIndex + 1 + Z.of_nat (length between)) endChar)
              (Position.mk lineIndex startChar) = true) as ->.
    { apply isAfter_ge. simpl. lia. }
    reflexivity.
Qed.

Lemma last_marker_line_wins_witness :
  InMemoryEditor.setSelectionFromCursor
    (str "[cursor]a
b[cursor][cursor]
c") (Selection.cursorAt 0 0)
  = Selection.cursorAt 1 1
  ∧ InMemoryEditor.setSelectionFromCursor
      (str "[start]a[end]
b[start]c[end]d") (Selection.cursorAt 0 0)
    = Selection.mk (Position.mk 1 1) (Position.mk 1 2)
  ∧ InMemoryEditor.setSelectionFromCursor
      (str "[start]a[end]
b[start]c
d
e[end]f") (Selection.cursorAt 0 0)
    = Selection.mk (Position.mk 1 1) (Position.mk 3 1).
Proof.
  split; [|split].
  - refine (proj1 (proj1 (last_marker_line_wins _ [str "[cursor]a"] _)
                     (str "b[cursor][cursor]") [str "c"] _ _) _ _ _).
    + reflexivity.
    + repeat constructor.
    + vm_compute. reflexivity.
    + reflexivity.
    + reflexivity.
  - refine (proj2 (proj1 (last_marker_line_wins _ [str "[start]a[end]"] _)
                     (str "b[start]c[end]d") [] _ _) _ _).
    + reflexivity.
    + constructor.
    + vm_compute. reflexivity.
    + vm_compute. discriminate.
  - refine (proj2 (last_marker_line_wins _ [str "[start]a[end]"] _)
              (str "b[start]c") [str "d"] (str "e[end]f") [] _ _ _ _ _ _ _ _).
    + reflexivity.
    + repeat constructor.
    + constructor.
    + vm_compute. reflexivity.
    + reflexivity.
    + reflexivity.
    + reflexivity.
    + vm_compute. reflexivity.
Defined.

(** ** Dispatch of a visitor *)

Section Dispatch.

Import RefactoringActionProvider.

Context {NodePath : Type}.
Variable nodeType : NodePath → string.
Variable isType : string → string → bool.

Lemma find_first {A} (p : A → bool) (before : list A) (x : A) (after : list A) :
  Forall (λ y, p y = false) before → p x = true →
  find p (before ++ x :: after) = Some x.
Proof.
  intros Hb Hx. induction Hb as [|y before Hy _ IH]; simpl.
  - rewrite Hx. reflexivity.
  - rewrite Hy. exact IH.
Qed.

Lemma find_none {A} (p : A → bool) (l : list A) :
  Forall (λ y, p y = false) l → find p l = None.
Proof.
  intros H. induction H as [|y l Hy _ IH]; simpl; [|rewrite Hy]; auto.
Qed.

Lemma property_first {V} (before : list (string * V)) k v after :
  k ∉ keys before → property (before ++ (k, v) :: after) k = Some v.
Proof.
  induction before as [|[k' v'] before IH]; simpl; intros Hk.
  - rewrite decide_True; reflexivity.
  - rewrite not_elem_of_cons in Hk. destruct Hk as [Hne Hk].
    rewrite decide_False by congruence. apply IH, Hk.
Qed.

Lemma andThen_Finish (run : Run NodePath) : andThen run Finish = run.
Proof. induction run; simpl; congruence. Qed.

Lemma matching_key_not_before (type : string)
    (before : list (string * VisitorValue NodePath)) k :
  Forall (λ kv, isType type kv.1 = false) before → isType type k = true →
  k ∉ keys before.
Proof.
  intros Hb Hk Hin. unfold keys in Hin.
  apply list_elem_of_fmap in Hin as ([k' v'] & -> & Hin).
  rewrite Forall_forall in Hb. specialize (Hb _ Hin). simpl in *. congruence.
Qed.

End Dispatch.

(** C6, as stated, fails where it says that the keys are scanned only if no
    exact key is present: a visitor that holds [undefined] under the exact
    type and a function under a category of that type has the exact key, and
    the function of the category is what the dispatch resolves and calls. *)
Lemma exact_key_with_falsy_value_is_scanned_past :
  let isType := λ nodeType type : string,
    bool_decide (nodeType = type)
    || (bool_decide (type = "Function"%string)
        && bool_decide (nodeType = "ArrowFunctionExpression"%string)) in
  let callback := λ path : string, RefactoringActionProvider.OnMatch path
                                   RefactoringActionProvider.Finish in
  let visitor :=
    [("Function"%string, RefactoringActionProvider.Function callback);
     ("ArrowFunctionExpression"%string, RefactoringActionProvider.Other false)] in
  let path := "ArrowFunctionExpression"%string in
  RefactoringActionProvider.property visitor path
  = Some (RefactoringActionProvider.Other false)
  ∧ RefactoringActionProvider.getVisitorNode id isType visitor path
    = Some (RefactoringActionProvider.Function callback)
  ∧ RefactoringActionProvider.visit id isType visitor path
    = RefactoringActionProvider.OnMatch path RefactoringActionProvider.Finish.
Proof. repeat split. Qed.

(** C6, amended: the dispatch uses the value under the node's concrete type
    when the visitor holds a truthy value there; when it holds none there
    (no such key, or a falsy value under it) it scans the keys in their
    declared order and uses the value of the first key whose category
    contains the concrete type; and when no key matches either, nothing but
    [enter] is called, and the visit returns if [enter] does. *)
Theorem dispatch_resolution {NodePath : Type} (nodeType : NodePath → string)
    (isType : string → string → bool)
    (visitor : RefactoringActionProvider.Visitor NodePath) (path : NodePath) :
  (∀ v,
     RefactoringActionProvider.property visitor (nodeType path) = Some v →
     RefactoringActionProvider.isTruthy v = true →
     RefactoringActionProvider.getVisitorNode nodeType isType visitor path
     = Some v)
  ∧ (RefactoringActionProvider.holdsTruthy visitor (nodeType path) = false →
     ∀ before k v after,
       visitor = before ++ (k, v) :: after →
       Forall (λ kv, isType (nodeType path) kv.1 = false) before →
       isType (nodeType path) k = true →
       k ≠ EmptyString →
       RefactoringActionProvider.getVisitorNode nodeType isType visitor path
       = Some v)
  ∧ (RefactoringActionProvider.holdsTruthy visitor (nodeType path) = false →
     Forall (λ kv, isType (nodeType path) kv.1 = false) visitor →
     RefactoringActionProvider.getVisitorNode nodeType isType visitor path
     = None
     ∧ RefactoringActionProvider.visit nodeType isType visitor path
       = RefactoringActionProvider.visitEnter visitor path).
Proof.
  split; [|split].
  - intros v Hv Ht. unfold RefactoringActionProvider.getVisitorNode,
      RefactoringActionProvider.holdsTruthy.
    rewrite Hv, Ht. reflexivity.
  - intros Hf before k v after -> Hb Hk Hne.
    unfold RefactoringActionProvider.getVisitorNode. rewrite Hf.
    unfold RefactoringActionProvider.keys. rewrite map_app. simpl map.
    rewrite (find_first (λ type, isType (nodeType path) type)).
    + rewrite decide_False by exact Hne.
      apply property_first. eapply matching_key_not_before; eauto.
    + apply Forall_forall. intros k' Hin.
      apply list_elem_of_fmap in Hin as ([k'' v'] & -> & Hin).
      rewrite Forall_forall in Hb. apply (Hb _ Hin).
    + exact Hk.
  - intros Hf Hall.
    assert (RefactoringActionProvider.getVisitorNode nodeType isType visitor path
            = None) as Hnone.
    { unfold RefactoringActionProvider.getVisitorNode. rewrite Hf.
      rewrite find_none; [reflexivity|].
      unfold RefactoringActionProvider.keys.
      apply Forall_forall. intros k' Hin.
      apply list_elem_of_fmap in Hin as ([k'' v'] & -> & Hin).
      rewrite Forall_forall in Hall. apply (Hall _ Hin). }
    split; [exact Hnone|].
    unfold RefactoringActionProvider.visit, RefactoringActionProvider.visitNode.
    rewrite Hnone. apply andThen_Finish.
Qed.

Lemma dispatch_resolution_witness :
  let isType := λ nodeType type : string,
    bool_decide (nodeType = type)
    || (bool_decide (type = "Function"%string)
        && bool_decide (nodeType = "ArrowFunctionExpression"%string)) in
  let exact := λ path : string, RefactoringActionProvider.OnMatch path
                                RefactoringActionProvider.Finish in
  let category := λ path : string, RefactoringActionProvider.Finish in
  RefactoringActionProvider.getVisitorNode id isType
    [("Function"%string, RefactoringActionProvider.Function category);
     ("ArrowFunctionExpression"%string, RefactoringActionProvider.Function exact)]
    "ArrowFunctionExpression"%string
  = Some (RefactoringActionProvider.Function exact)
  ∧ RefactoringActionProvider.getVisitorNode id isType
      [("Identifier"%string, RefactoringActionProvider.Function exact);
       ("Function"%string, RefactoringActionProvider.Function category)]
      "ArrowFunctionExpression"%string
    = Some (RefactoringActionProvider.Function category)
  ∧ RefactoringActionProvider.visit id isType
      [("Identifier"%string, RefactoringActionProvider.Function exact)]
      "ArrowFunctionExpression"%string
    = RefactoringActionProvider.Finish.
Proof.
  intros isType exact category. split; [|split].
  - apply (proj1 (dispatch_resolution id isType
                    [("Function"%string, RefactoringActionProvider.Function category);
                     ("ArrowFunctionExpression"%string,
                      RefactoringActionProvider.Function exact)]
                    "ArrowFunctionExpression"%string)); reflexivity.
  - apply (proj1 (proj2 (dispatch_resolution id isType
                           [("Identifier"%string,
                             RefactoringActionProvider.Function exact);
                            ("Function"%string,
                             RefactoringActionProvider.Function category)]
                           "ArrowFunctionExpression"%string)) eq_refl
             [("Identifier"%string, RefactoringActionProvider.Function exact)]
             "Function"%string (RefactoringActionProvider.Function category) []).
    + reflexivity.
    + repeat constructor.
    + reflexivity.
    + discriminate.
  - refine (eq_trans
              (proj2 (proj2 (proj2 (dispatch_resolution id isType
                                      [("Identifier"%string,
                                        RefactoringActionProvider.Function exact)]
                                      "ArrowFunctionExpression"%string))
                        eq_refl _)) eq_refl).
    repeat constructor.
Defined.

(** ** Discovery *)

Section InsertionOrder.

Import RefactoringActionProvider.

Lemma mapSet_keys {V} (m : list (string * V)) k v :
  keys (JS.mapSet m k v) = addKey (keys m) k.
Proof.
  unfold addKey. induction m as [|[k' v'] m IH]; cbn [JS.mapSet keys map fst].
  - rewrite decide_False; [reflexivity | apply not_elem_of_nil].
  - destruct (decide (k' = k)) as [->|Hne]; cbn [keys map fst].
    + rewrite decide_True by left. reflexivity.
    + fold (keys (JS.mapSet m k v)). fold (keys m). rewrite IH.
      destruct (decide (k ∈ keys m)) as [Hin|Hnin].
      * rewrite decide_True by (right; exact Hin). reflexivity.
      * rewrite decide_False; [reflexivity|].
        rewrite not_elem_of_cons. split; [congruence | exact Hnin].
Qed.

Lemma mapSet_entries {V} (m : list (string * V)) k v e :
  e ∈ JS.mapSet m k v → e = (k, v) ∨ e ∈ m.
Proof.
  induction m as [|[k' v'] m IH]; simpl; intros He.
  - apply list_elem_of_singleton in He. auto.
  - destruct (decide (k' = k)) as [->|Hne].
    + apply elem_of_cons in He as [->|He]; [auto | right; right; exact He].
    + apply elem_of_cons in He as [->|He]; [right; left|].
      destruct (IH He) as [->|Hin]; [auto | right; right; exact Hin].
Qed.

Lemma addKey_firstOccurrences ks acc :
  fold_left addKey ks acc = acc ++ filter (λ k, k ∉ acc) (firstOccurrences ks).
Proof.
  revert acc. induction ks as [|k ks IH]; intros acc; simpl.
  - rewrite filter_nil, app_nil_r. reflexivity.
  - rewrite IH. unfold addKey. destruct (decide (k ∈ acc)) as [Hin|Hnin].
    + rewrite filter_cons_False by tauto. f_equal.
      rewrite list_filter_filter. apply list_filter_iff.
      intros x. split; [|tauto]. intros Hx. split; [exact Hx|].
      intros ->. exact (Hx Hin).
    + rewrite filter_cons_True by exact Hnin.
      rewrite <- app_assoc. simpl. do 2 f_equal.
      rewrite list_filter_filter. apply list_filter_iff.
      intros x. rewrite not_elem_of_app, list_elem_of_singleton. tauto.
Qed.

Lemma filter_all {A} (P : A → Prop) `{!∀ x, Decision (P x)} (l : list A) :
  (∀ x, P x) → filter P l = l.
Proof.
  intros HP. induction l as [|x l IH]; [reflexivity|].
  rewrite filter_cons_True by apply HP. f_equal. exact IH.
Qed.

Lemma firstOccurrences_NoDup ks : NoDup (firstOccurrences ks).
Proof.
  induction ks as [|k ks IH]; simpl; constructor.
  - rewrite list_elem_of_filter. tauto.
  - apply NoDup_filter, IH.
Qed.

Lemma firstOccurrences_elem_of ks k : k ∈ firstOccurrences ks ↔ k ∈ ks.
Proof.
  induction ks as [|k' ks IH]; simpl; [reflexivity|].
  rewrite !elem_of_cons, list_elem_of_filter, IH.
  destruct (decide (k = k')); tauto.
Qed.

Lemma map_filter_comm {A B} (f : A → B) (P : B → Prop)
    `{!∀ y, Decision (P y)} `{!∀ x, Decision (P (f x))} (l : list A) :
  map f (filter (λ x, P (f x)) l) = filter P (map f l).
Proof.
  induction l as [|x l IH]; simpl; [reflexivity|].
  rewrite !filter_cons.
  destruct (decide (P (f x))) as [H1|H1];
    [rewrite decide_True by exact H1 | rewrite decide_False by exact H1];
    simpl; congruence.
Qed.

Lemma same_keys_same_list {A B} (f : A → B) (l1 l2 : list A) :
  map f l1 = map f l2 →
  (∀ x y, x ∈ l1 → y ∈ l2 → f x = f y → x = y) →
  l1 = l2.
Proof.
  revert l2. induction l1 as [|x l1 IH]; intros [|y l2] Hmap Hinj;
    simpl in Hmap; try discriminate; [reflexivity|].
  injection Hmap as Hxy Hmap.
  f_equal.
  - apply Hinj; [left | left | exact Hxy].
  - apply IH; [exact Hmap|]. intros a b Ha Hb. apply Hinj; right; assumption.
Qed.

Context {NodePath : Type}.

Lemma firstClaims_keys (cs : list (nat * Refactoring NodePath)) :
  map keyOf (firstClaims cs) = firstOccurrences (map keyOf cs).
Proof.
  induction cs as [|c cs IH]; simpl; [reflexivity|].
  f_equal. rewrite <- IH.
  apply (map_filter_comm keyOf (λ k', k' ≠ keyOf c)).
Qed.

Lemma firstClaims_subseteq (cs : list (nat * Refactoring NodePath)) c :
  c ∈ firstClaims cs → c ∈ cs.
Proof.
  induction cs as [|c' cs IH]; simpl; [auto|].
  rewrite !elem_of_cons, list_elem_of_filter. tauto.
Qed.

Lemma recorded_app (cs1 cs2 : list (nat * Refactoring NodePath)) m :
  recorded (cs1 ++ cs2) m = recorded cs2 (recorded cs1 m).
Proof. apply fold_left_app. Qed.

Lemma recorded_keys (cs : list (nat * Refactoring NodePath)) m :
  keys (recorded cs m) = fold_left addKey (map keyOf cs) (keys m).
Proof.
  revert m. induction cs as [|c cs IH]; intros m; simpl; [reflexivity|].
  rewrite IH, mapSet_keys. reflexivity.
Qed.

(** Every entry of the [Map] is a claim, under the key of that claim. *)
Lemma recorded_entries (cs : list (nat * Refactoring NodePath)) m e :
  e ∈ recorded cs m → (e.1 = keyOf e.2 ∧ e.2 ∈ cs) ∨ e ∈ m.
Proof.
  revert m. induction cs as [|c cs IH]; intros m He; simpl in He; [auto|].
  destruct (IH _ He) as [[Hk Hin]|Hin].
  - left. split; [exact Hk | right; exact Hin].
  - destruct (mapSet_entries _ _ _ _ Hin) as [->|Hm]; [|auto].
    left. split; [reflexivity | left].
Qed.

Lemma recorded_values (cs : list (nat * Refactoring NodePath)) :
  map keyOf (JS.mapValues (recorded cs [])) = keys (recorded cs [])
  ∧ ∀ c, c ∈ JS.mapValues (recorded cs []) → c ∈ cs.
Proof.
  assert (∀ e, e ∈ recorded cs [] → e.1 = keyOf e.2 ∧ e.2 ∈ cs) as H.
  { intros e He. destruct (recorded_entries _ _ _ He) as [H|H]; [exact H|].
    inversion H. }
  revert H. generalize (recorded cs []). intros m H. split.
  - induction m as [|[k v] m IH]; simpl; [reflexivity|].
    f_equal.
    + symmetry. apply (H (k, v)). left.
    + apply IH. intros e He. apply H. right. exact He.
  - intros c Hc. unfold JS.mapValues in Hc.
    apply list_elem_of_fmap in Hc as (e & -> & He). apply H, He.
Qed.

End InsertionOrder.

Section Discovery.

Import RefactoringActionProvider.

Context {AST NodePath : Type}.
Variable parse : Code → Outcome AST.
Variable traverseAST : AST → list NodePath.
Variable nodeType : NodePath → string.
Variable isType : string → string → bool.
Variable host : Host.
Variable refactorings : list (Refactoring NodePath).
Variable editor : Editor.

Lemma onMatches_returns index (refactoring : Refactoring NodePath)
    (run : Run NodePath) (found : Discovery NodePath) :
  returns run →
  ∃ written,
    onMatches index refactoring run found
    = (mkDiscovery
         (recorded (map (λ _, (index, refactoring)) (matches run))
            (applicableRefactorings found))
         written,
       Return tt).
Proof.
  revert found. induction run as [|visitedPath next IH|]; intros found Hr.
  - destruct found as [m written]. exists written. reflexivity.
  - simpl in Hr. cbn [onMatches matches map recorded fold_left].
    destruct (IH (mkDiscovery
                    (JS.mapSet (applicableRefactorings found)
                       (key (command refactoring)) (index, refactoring))
                    match updateMessage (actionProvider refactoring) with
                    | Some update => <[index := update visitedPath]> (messages found)
                    | None => messages found
                    end) Hr) as [written Hw].
    exists written. exact Hw.
  - destruct Hr.
Qed.

Lemma forEach_candidates path (candidates : list (nat * Refactoring NodePath))
    (found : Discovery NodePath) :
  (∀ r, r ∈ candidates → returns (visitOf nodeType isType editor r path)) →
  ∃ written,
    forEach candidates
      (λ r, onMatches r.1 r.2
              (visit nodeType isType
                 (createVisitor (actionProvider r.2) (selection editor)
                    (code editor)) path))
      found
    = (mkDiscovery
         (recorded
            (flat_map
               (λ r, map (λ _, r) (matches (visitOf nodeType isType editor r path)))
               candidates)
            (applicableRefactorings found))
         written,
       Return tt).
Proof.
  revert found. induction candidates as [|[i r] candidates IH]; intros found H.
  - destruct found as [m written]. exists written. reflexivity.
  - cbn [forEach flat_map]. rewrite recorded_app.
    destruct (onMatches_returns i r
                (visitOf nodeType isType editor (i, r) path) found)
      as [written Hw]; [apply H; left|].
    unfold visitOf in Hw at 1. cbn [fst snd] in *. rewrite Hw.
    destruct (IH (mkDiscovery
                    (recorded
                       (map (λ _, (i, r))
                          (matches (visitOf nodeType isType editor (i, r) path)))
                       (applicableRefactorings found)) written))
      as [written' Hw']; [intros r' Hr'; apply H; right; exact Hr'|].
    exists written'. exact Hw'.
Qed.

Lemma forEach_paths (paths : list NodePath) (found : Discovery NodePath) :
  allReturn nodeType isType host refactorings editor paths →
  ∃ written,
    forEach paths (enterPath nodeType isType host refactorings editor) found
    = (mkDiscovery
         (recorded (claimed nodeType isType host refactorings editor paths)
            (applicableRefactorings found))
         written,
       Return tt).
Proof.
  revert found. induction paths as [|path paths IH]; intros found H.
  - destruct found as [m written]. exists written. reflexivity.
  - cbn [forEach]. unfold claimed. cbn [flat_map]. rewrite recorded_app.
    destruct (forEach_candidates path
                (refactoringsToCheck host refactorings) found)
      as [written Hw]; [intros r Hr; apply H; [left | exact Hr]|].
    unfold enterPath at 1. rewrite Hw.
    destruct (IH (mkDiscovery
                    (recorded
                       (claimedAt nodeType isType host refactorings editor path)
                       (applicableRefactorings found)) written))
      as [written' Hw'];
      [intros path' r Hp Hr; apply H; [right; exact Hp | exact Hr]|].
    exists written'. exact Hw'.
Qed.

(** Every claim is made by a candidate. *)
Lemma claimed_candidates paths c :
  c ∈ claimed nodeType isType host refactorings editor paths →
  c ∈ refactoringsToCheck host refactorings.
Proof.
  unfold claimed, claimedAt. rewrite !list_elem_of_In, in_flat_map.
  intros (path & _ & Hc). apply in_flat_map in Hc as (r & Hr & Hc).
  apply in_map_iff in Hc as (_ & <- & _). exact Hr.
Qed.

(** Candidates with different places have different identifiers, when the
    refactorings have. *)
Lemma candidates_keyOf_inj c1 c2 :
  NoDup (map (λ r, key (command r)) refactorings) →
  c1 ∈ refactoringsToCheck host refactorings →
  c2 ∈ refactoringsToCheck host refactorings →
  keyOf c1 = keyOf c2 → c1 = c2.
Proof.
  intros Hnd H1 H2 Hk. unfold refactoringsToCheck in *.
  apply list_elem_of_In, filter_In in H1 as [H1 _].
  apply list_elem_of_In, filter_In in H2 as [H2 _].
  apply list_elem_of_In, elem_of_lookup_imap in H1 as (i & r1 & -> & Hr1).
  apply list_elem_of_In, elem_of_lookup_imap in H2 as (j & r2 & -> & Hr2).
  unfold keyOf in Hk. simpl in Hk.
  assert (i = j) as ->.
  { eapply NoDup_lookup; [exact Hnd | |].
    - change (map ?f ?l) with (f <$> l). rewrite list_lookup_fmap, Hr1. reflexivity.
    - change (map ?f ?l) with (f <$> l). rewrite list_lookup_fmap, Hr2. simpl.
      rewrite Hk. reflexivity. }
  congruence.
Qed.

End Discovery.

(** C5: when the code parses and every visit of the traversal returns,
    discovery returns a collection whose identifiers are the identifiers
    claimed, each once, in the order of their first claim during the
    traversal (nodes in traversal order, candidates in their order at each
    node); and, the identifiers of the refactorings being distinct, the
    collection is the refactorings claimed, each exactly once, in the order
    of their first claim. *)
Theorem discovery_records_first_claims {AST NodePath : Type}
    (parse : Code → Outcome AST) (traverseAST : AST → list NodePath)
    (nodeType : NodePath → string) (isType : string → string → bool)
    (host : RefactoringActionProvider.Host)
    (refactorings : list (RefactoringActionProvider.Refactoring NodePath))
    (editor : RefactoringActionProvider.Editor) (written : gmap nat Code)
    (ast : AST) :
  parse (RefactoringActionProvider.code editor) = Return ast →
  allReturn nodeType isType host refactorings editor (traverseAST ast) →
  let claims :=
    claimed nodeType isType host refactorings editor (traverseAST ast) in
  ∃ written' found,
    RefactoringActionProvider.findApplicableRefactorings parse traverseAST
      nodeType isType host refactorings editor written
    = (written', Return found)
    ∧ map keyOf found = firstOccurrences (map keyOf claims)
    ∧ NoDup (map keyOf found)
    ∧ (NoDup (map (λ r, RefactoringActionProvider.key
                          (RefactoringActionProvider.command r)) refactorings) →
       found = firstClaims claims
       ∧ NoDup found
       ∧ ∀ r, r ∈ found ↔ r ∈ claims).
Proof.
  intros Hparse Hreturn claims.
  unfold RefactoringActionProvider.findApplicableRefactorings. rewrite Hparse.
  destruct (forEach_paths nodeType isType host refactorings editor
              (traverseAST ast)
              (RefactoringActionProvider.mkDiscovery [] written) Hreturn)
    as [written' Hw].
  rewrite Hw. fold claims. cbn [RefactoringActionProvider.messages
    RefactoringActionProvider.applicableRefactorings].
  exists written', (JS.mapValues (recorded claims [])).
  destruct (recorded_values claims) as [Hkeys Hin].
  assert (map keyOf (JS.mapValues (recorded claims []))
          = firstOccurrences (map keyOf claims)) as Hfirst.
  { rewrite Hkeys, recorded_keys, addKey_firstOccurrences. simpl.
    apply filter_all. intros k. apply not_elem_of_nil. }
  split; [reflexivity|]. split; [exact Hfirst|]. split.
  { rewrite Hfirst. apply firstOccurrences_NoDup. }
  intros Hnd.
  assert (∀ x y, x ∈ claims → y ∈ claims → keyOf x = keyOf y → x = y) as Hinj.
  { intros x y Hx Hy. apply (candidates_keyOf_inj host refactorings); auto;
      eapply claimed_candidates; eassumption. }
  assert (JS.mapValues (recorded claims []) = firstClaims claims) as Heq.
  { apply (same_keys_same_list keyOf).
    - rewrite Hfirst, firstClaims_keys. reflexivity.
    - intros x y Hx Hy. apply Hinj; [apply Hin, Hx|].
      apply firstClaims_subseteq, Hy. }
  split; [exact Heq|]. split.
  - apply (NoDup_fmap_1 keyOf). change (keyOf <$> ?l) with (map keyOf l).
    rewrite Hfirst. apply firstOccurrences_NoDup.
  - intros r. split; [apply Hin|]. intros Hr. rewrite Heq.
    assert (keyOf r ∈ map keyOf (firstClaims claims)) as Hk.
    { rewrite firstClaims_keys, firstOccurrences_elem_of.
      apply list_elem_of_In, in_map, list_elem_of_In, Hr. }
    apply list_elem_of_In, in_map_iff in Hk as (r' & Hk & Hr').
    apply list_elem_of_In in Hr'.
    rewrite <- (Hinj r' r); [exact Hr' | | exact Hr | exact Hk].
    apply firstClaims_subseteq, Hr'.
Qed.

Lemma discovery_records_first_claims_witness :
  let isType := λ nodeType type : string,
    bool_decide (nodeType = type)
    || (bool_decide (type = "Function"%string)
        && bool_decide (nodeType = "ArrowFunctionExpression"%string)) in
  let claim := λ path : string, RefactoringActionProvider.OnMatch path
                                RefactoringActionProvider.Finish in
  let addBraces :=
    RefactoringActionProvider.mkRefactoring
      (RefactoringActionProvider.mkCommand "addBracesToArrowFunction" (str "Add braces"))
      (RefactoringActionProvider.mkActionProvider (str "Add braces") false None
         (λ _ _, [("Function"%string, RefactoringActionProvider.Function claim)])) in
  let rename :=
    RefactoringActionProvider.mkRefactoring
      (RefactoringActionProvider.mkCommand "renameSymbol" (str "Rename"))
      (RefactoringActionProvider.mkActionProvider (str "Rename") true None
         (λ _ _, [("Identifier"%string, RefactoringActionProvider.Function claim)])) in
  let host :=
    RefactoringActionProvider.mkHost id [] [] (λ _ _, false) (λ _, Return [])
      1000 (λ _, true) None in
  ∃ written',
    RefactoringActionProvider.findApplicableRefactorings
      (λ _, Return ["Identifier"; "ArrowFunctionExpression"; "Identifier"]%string)
      id id isType host [addBraces; rename]
      (RefactoringActionProvider.mkEditor (str "a => a") (Selection.cursorAt 0 0))
      ∅
    = (written', Return [(1%nat, rename); (0%nat, addBraces)]).
Proof.
  intros isType claim addBraces rename host.
  destruct (discovery_records_first_claims
              (λ _, Return ["Identifier"; "ArrowFunctionExpression"; "Identifier"]%string)
              id id isType host [addBraces; rename]
              (RefactoringActionProvider.mkEditor (str "a => a")
                 (Selection.cursorAt 0 0))
              ∅ ["Identifier"; "ArrowFunctionExpression"; "Identifier"]%string
              eq_refl)
    as (written' & found & Hrun & _ & _ & Hfirst).
  - intros path r Hpath Hr.
    repeat (apply elem_of_cons in Hpath as [->|Hpath]);
      [| | |inversion Hpath];
      (repeat (apply elem_of_cons in Hr as [->|Hr]); [| |inversion Hr]);
      exact I.
  - destruct Hfirst as [Heq _].
    + repeat constructor; rewrite ?list_elem_of_singleton;
        [discriminate | apply not_elem_of_nil].
    + exists written'. rewrite Hrun, Heq. reflexivity.
Defined.

(** ** Failures of discovery *)

Section DiscoveryFailure.

Import RefactoringActionProvider.

Context {AST NodePath : Type}.
Variable parse : Code → Outcome AST.
Variable traverseAST : AST → list NodePath.
Variable nodeType : NodePath → string.
Variable isType : string → string → bool.
Variable host : Host.
Variable refactorings : list (Refactoring NodePath).
Variable editor : Editor.

Lemma onMatches_fails index (refactoring : Refactoring NodePath)
    (run : Run NodePath) (found : Discovery NodePath) :
  ¬ returns run →
  ∃ found' e, onMatches index refactoring run found = (found', Throw e).
Proof.
  revert found. induction run as [|visitedPath next IH|]; intros found Hr.
  - destruct Hr. exact I.
  - simpl in Hr. cbn [onMatches]. apply IH, Hr.
  - exists found, VisitorFailure. reflexivity.
Qed.

Lemma forEach_fails {A} (l : list A)
    (body : A → Discovery NodePath → Discovery NodePath * Outcome unit) :
  Exists (λ x, ∀ found, ∃ found' e, body x found = (found', Throw e)) l →
  ∀ found, ∃ found' e, forEach l body found = (found', Throw e).
Proof.
  intros H. induction H as [x l Hx|x l _ IH]; intros found; cbn [forEach].
  - destruct (Hx found) as (found' & e & ->). eauto.
  - destruct (body x found) as [found' [[]|e]]; [apply IH | eauto].
Qed.

(** A callback that throws makes discovery throw. *)
Lemma traversal_fails paths (found : Discovery NodePath) :
  (∃ path r,
     path ∈ paths ∧ r ∈ refactoringsToCheck host refactorings
     ∧ ¬ returns (visitOf nodeType isType editor r path)) →
  ∃ found' e,
    forEach paths (enterPath nodeType isType host refactorings editor) found
    = (found', Throw e).
Proof.
  intros (path & r & Hpath & Hr & Hfail).
  apply forEach_fails, Exists_exists. exists path. split; [exact Hpath|].
  intros found0. unfold enterPath.
  apply forEach_fails, Exists_exists. exists r. split; [exact Hr|].
  intros found1. apply onMatches_fails, Hfail.
Qed.

End DiscoveryFailure.

(** C7: when the code of the active editor fails to parse, or a callback
    throws during the traversal, [provideCodeActions] returns the empty list
    of actions once the check of the ignored files has answered; and no
    exception leaves [provideCodeActions] but the one of the file read of
    that check, which precedes the guarded block: the failure of the parse
    or of the traversal is never propagated. *)
Theorem discovery_failure_gives_no_action {AST NodePath : Type}
    (parse : Code → Outcome AST) (traverseAST : AST → list NodePath)
    (nodeType : NodePath → string) (isType : string → string → bool)
    (host : RefactoringActionProvider.Host)
    (refactorings : list (RefactoringActionProvider.Refactoring NodePath))
    (document : RefactoringActionProvider.TextDocument)
    (editor : RefactoringActionProvider.Editor) (written : gmap nat Code) :
  RefactoringActionProvider.createVSCodeEditor host = Some editor →
  ((∃ e, parse (RefactoringActionProvider.code editor) = Throw e)
   ∨ (∃ ast path r,
        parse (RefactoringActionProvider.code editor) = Return ast
        ∧ path ∈ traverseAST ast
        ∧ r ∈ RefactoringActionProvider.refactoringsToCheck host refactorings
        ∧ ¬ returns (visitOf nodeType isType editor r path))) →
  (∀ ignored,
     RefactoringActionProvider.isNavigatingAnIgnoredFile host
       (RefactoringActionProvider.uriPath document) = Return ignored →
     (RefactoringActionProvider.provideCodeActions parse traverseAST nodeType
        isType host refactorings document written).2
     = Return RefactoringActionProvider.NO_ACTION)
  ∧ (∀ e,
       (RefactoringActionProvider.provideCodeActions parse traverseAST nodeType
          isType host refactorings document written).2 = Throw e →
       RefactoringActionProvider.readFile host
         (RefactoringActionProvider.uriPath document) = Throw e).
Proof.
  intros Heditor Hfail.
  assert (∃ written' e,
            RefactoringActionProvider.findApplicableRefactorings parse
              traverseAST nodeType isType host refactorings editor written
            = (written', Throw e)) as (written' & e0 & Hthrow).
  { unfold RefactoringActionProvider.findApplicableRefactorings.
    destruct Hfail as [[e He]|(ast & path & r & Hast & Hpath & Hr & Hrun)].
    - rewrite He. eauto.
    - rewrite Hast.
      destruct (traversal_fails nodeType isType host refactorings editor
                  (traverseAST ast)
                  (RefactoringActionProvider.mkDiscovery [] written))
        as (found' & e & ->); eauto. }
  unfold RefactoringActionProvider.provideCodeActions.
  split.
  - intros ignored ->. destruct ignored; [reflexivity|].
    rewrite Heditor, Hthrow. reflexivity.
  - intros e.
    unfold RefactoringActionProvider.isNavigatingAnIgnoredFile.
    destruct (RefactoringActionProvider.readFile host
                (RefactoringActionProvider.uriPath document)) as [content|e'].
    + destruct (_ || _ || _); [discriminate|].
      rewrite Heditor, Hthrow. discriminate.
    + simpl. congruence.
Qed.

Lemma discovery_failure_gives_no_action_witness :
  let host :=
    RefactoringActionProvider.mkHost id [] [] (λ _ _, false)
      (λ _, Return (str "const = ;")) 1000 (λ _, true)
      (Some (RefactoringActionProvider.mkEditor (str "const = ;")
               (Selection.cursorAt 0 0))) in
  (RefactoringActionProvider.provideCodeActions (AST := unit)
     (NodePath := string) (λ _, Throw ParseFailure) (λ _, []) id (λ _ _, false)
     host [] (RefactoringActionProvider.mkTextDocument (str "/src/broken.ts"))
     ∅).2
  = Return RefactoringActionProvider.NO_ACTION.
Proof.
  intros host.
  refine (proj1 (discovery_failure_gives_no_action (AST := unit)
                   (NodePath := string) (λ _, Throw ParseFailure) (λ _, [])
                   id (λ _ _, false) host []
                   (RefactoringActionProvider.mkTextDocument (str "/src/broken.ts"))
                   (RefactoringActionProvider.mkEditor (str "const = ;")
                      (Selection.cursorAt 0 0))
                   ∅ eq_refl _) false eq_refl).
  left. exists ParseFailure. reflexivity.
Defined.

(** ** The built-ins on indices in range *)

Section InRange.

Lemma relativeIndex_in_range len i :
  0 ≤ i ≤ len → JS.relativeIndex len i = i.
Proof.
  intros H. unfold JS.relativeIndex.
  destruct (Z.ltb_spec i 0); lia.
Qed.

Lemma get_in_range {A} (l : list A) (i : nat) :
  JS.get l (Z.of_nat i) = l !! i.
Proof.
  unfold JS.get. destruct (Z.ltb_spec (Z.of_nat i) 0); [lia|].
  rewrite Nat2Z.id. reflexivity.
Qed.

Lemma splice_in_range {A} (l : list A) (first last : nat) (item : A) :
  (first ≤ last ≤ length l)%nat →
  JS.splice l (Z.of_nat first) (Z.of_nat last - Z.of_nat first) item
  = take first l ++ item :: drop last l.
Proof.
  intros H. unfold JS.splice.
  rewrite relativeIndex_in_range by lia.
  rewrite Nat2Z.id. do 3 f_equal. lia.
Qed.

Lemma splice_to_end {A} (l : list A) (first : nat) (item : A) :
  (first ≤ length l)%nat →
  JS.splice l (Z.of_nat first) (Z.of_nat (length l) - Z.of_nat first) item
  = take first l ++ [item].
Proof.
  intros H. rewrite splice_in_range by lia.
  rewrite drop_all. reflexivity.
Qed.

Lemma sliceFrom_in_range {A} (l : list A) (first : nat) :
  (first ≤ length l)%nat → JS.sliceFrom l (Z.of_nat first) = drop first l.
Proof.
  intros H. unfold JS.sliceFrom.
  rewrite relativeIndex_in_range by lia. rewrite Nat2Z.id. reflexivity.
Qed.

Lemma length_chars (s : Code) : length (JS.chars s) = length s.
Proof. apply length_map. Qed.

Lemma concat_chars (s : Code) : concat (JS.chars s) = s.
Proof. induction s as [|c s IH]; simpl; congruence. Qed.

Lemma chars_app (s1 s2 : Code) : JS.chars (s1 ++ s2) = JS.chars s1 ++ JS.chars s2.
Proof. apply map_app. Qed.

Lemma take_chars n (s : Code) : take n (JS.chars s) = JS.chars (take n s).
Proof. unfold JS.chars. symmetry. apply (fmap_take (λ c, [c])). Qed.

Lemma drop_chars n (s : Code) : drop n (JS.chars s) = JS.chars (drop n s).
Proof. unfold JS.chars. symmetry. apply (fmap_drop (λ c, [c])). Qed.

(** Joining the cells of a line with the empty separator. *)
Lemma join_cells (line : list Code) :
  JS.join InMemoryEditor.CHARS_SEPARATOR line = concat line.
Proof.
  induction line as [|x [|y line] IH]; [reflexivity | |].
  - simpl. rewrite app_nil_r. reflexivity.
  - change (JS.join _ (x :: y :: line))
      with (x ++ [] ++ JS.join InMemoryEditor.CHARS_SEPARATOR (y :: line)).
    rewrite IH. reflexivity.
Qed.

End InRange.

(** ** Lines and text *)

Section LinesAndText.

Local Abbreviation nl := InMemoryEditor.LINE_SEPARATOR.

Lemma join_cons t ts : JS.join [nl] (t :: ts) = t ++ following ts.
Proof.
  revert t. induction ts as [|t' ts IH]; intros t.
  - simpl. rewrite app_nil_r. reflexivity.
  - change (JS.join [nl] (t :: t' :: ts)) with (t ++ [nl] ++ JS.join [nl] (t' :: ts)).
    rewrite IH. reflexivity.
Qed.

Lemma following_app ts1 ts2 :
  following (ts1 ++ ts2) = following ts1 ++ following ts2.
Proof. unfold following. rewrite map_app, concat_app. reflexivity. Qed.

Lemma preceding_app ts1 ts2 :
  preceding (ts1 ++ ts2) = preceding ts1 ++ preceding ts2.
Proof. unfold preceding. rewrite map_app, concat_app. reflexivity. Qed.

Lemma preceding_following t ts :
  t ++ following ts ++ [nl] = preceding (t :: ts).
Proof.
  revert t. induction ts as [|t' ts IH]; intros t.
  - unfold preceding. simpl. rewrite app_nil_r. reflexivity.
  - change (following (t' :: ts)) with ((nl :: t') ++ following ts).
    change (preceding (t :: t' :: ts)) with ((t ++ [nl]) ++ preceding (t' :: ts)).
    rewrite <- IH, <- !app_assoc. reflexivity.
Qed.

Lemma join_middle before t after :
  JS.join [nl] (before ++ t :: after) = preceding before ++ t ++ following after.
Proof.
  destruct before as [|t' before].
  - apply join_cons.
  - change ((t' :: before) ++ t :: after) with (t' :: (before ++ t :: after)).
    rewrite join_cons, following_app, <- preceding_following.
    change (following (t :: after)) with ((nl :: t) ++ following after).
    rewrite <- !app_assoc. reflexivity.
Qed.

Lemma length_preceding ts :
  length (preceding ts) = sum_list (map (λ t, S (length t)) ts).
Proof.
  induction ts as [|t ts IH]; [reflexivity|].
  change (preceding (t :: ts)) with ((t ++ [nl]) ++ preceding ts).
  rewrite !length_app, IH. simpl. lia.
Qed.

Lemma split_not_nil sep s : JS.split sep s ≠ [].
Proof.
  destruct s as [|c s]; cbn [JS.split]; [discriminate|].
  destruct (decide (c = sep)); [discriminate|].
  destruct (JS.split sep s); discriminate.
Qed.

(** Splitting distributes over a separator. *)
Lemma split_app_separator a b :
  JS.split nl (a ++ nl :: b) = JS.split nl a ++ JS.split nl b.
Proof.
  induction a as [|c a IH]; cbn [app JS.split].
  - rewrite decide_True by reflexivity. reflexivity.
  - destruct (decide (c = nl)); rewrite IH; [reflexivity|].
    pose proof (split_not_nil nl a) as Hne.
    destruct (JS.split nl a); [contradiction | reflexivity].
Qed.

Lemma split_one_line t : nl ∉ t → JS.split nl t = [t].
Proof.
  induction t as [|c t IH]; intros H; cbn [JS.split]; [reflexivity|].
  rewrite not_elem_of_cons in H. destruct H as [Hc Ht].
  rewrite decide_False by congruence. rewrite IH by exact Ht. reflexivity.
Qed.

(** A line without separator among the lines joined is a line of the text. *)
Lemma elem_of_split_join t ts :
  t ∈ ts → nl ∉ t → t ∈ JS.split nl (JS.join [nl] ts).
Proof.
  intros Hin Hnl. induction ts as [|t' ts IH]; [inversion Hin|].
  destruct ts as [|t'' ts].
  - apply list_elem_of_singleton in Hin as ->. simpl.
    rewrite split_one_line by exact Hnl. left.
  - change (JS.join [nl] (t' :: t'' :: ts))
      with (t' ++ nl :: JS.join [nl] (t'' :: ts)).
    rewrite split_app_separator. apply elem_of_app.
    apply elem_of_cons in Hin as [->|Hin].
    + left. rewrite split_one_line by exact Hnl. left.
    + right. apply IH, Hin.
Qed.

End LinesAndText.

(** ** Serialization of a code matrix with deleted lines *)

Section Serialization.

Import InMemoryEditor.

Lemma liveTexts_app rows1 ts1 rows2 ts2 :
  liveTexts rows1 ts1 → liveTexts rows2 ts2 →
  liveTexts (rows1 ++ rows2) (ts1 ++ ts2).
Proof.
  intros H1 H2. induction H1; simpl; [exact H2 | |]; constructor; assumption.
Qed.

Lemma liveTexts_matrixOf lines : liveTexts (matrixOf lines) lines.
Proof.
  induction lines as [|line lines IH]; simpl; [constructor|].
  rewrite <- (concat_chars line) at 2. constructor. exact IH.
Qed.

Lemma liveTexts_replicate n : liveTexts (replicate n [DELETED_LINE]) [].
Proof. induction n; simpl; constructor; assumption. Qed.

(** [read] gives the live texts, when none of them spells the sentinel. *)
Lemma read_liveTexts rows ts :
  liveTexts rows ts → DELETED_LINE ∉ ts → read rows = JS.join [LINE_SEPARATOR] ts.
Proof.
  intros H Hts. unfold read. f_equal.
  induction H as [|rows ts H IH|row rows ts H IH]; cbn [map].
  - reflexivity.
  - rewrite filter_cons_False; [apply IH, Hts|].
    intros Hne. apply Hne. reflexivity.
  - rewrite not_elem_of_cons in Hts. destruct Hts as [Hrow Hts].
    rewrite join_cells, filter_cons_True by congruence.
    f_equal. apply IH, Hts.
Qed.

End Serialization.

(** ** One Modification on the code matrix *)

Section OneModification.

Import InMemoryEditor.

Lemma withCodeMatrix_id this : withCodeMatrix this (codeMatrix this) = this.
Proof. destruct this. reflexivity. Qed.

Lemma withCodeMatrix_twice this m1 m2 :
  withCodeMatrix (withCodeMatrix this m1) m2 = withCodeMatrix this m2.
Proof. reflexivity. Qed.

Lemma lineAt_in_range this i line :
  0 ≤ i → codeMatrix this !! Z.to_nat i = Some line →
  lineAt i this = (this, Return line).
Proof.
  intros Hi Hl. unfold lineAt, JS.get.
  destruct (Z.ltb_spec i 0); [lia|]. rewrite Hl. reflexivity.
Qed.

(** The loop that marks lines deleted. *)
Lemma forEach_setLine (indices : list Z) line this :
  forEach indices (λ i, setLine i line) this
  = (withCodeMatrix this
       (fold_left (λ m i, <[Z.to_nat i := line]> m) indices (codeMatrix this)),
     Return tt).
Proof.
  revert this. induction indices as [|i indices IH]; intros this.
  - simpl. rewrite withCodeMatrix_id. reflexivity.
  - cbn [forEach fold_left]. unfold mbind, M_bind, bind. cbn [setLine].
    rewrite IH. reflexivity.
Qed.

Lemma mark_deleted {A} (x : A) (mid before after : list A) :
  fold_left (λ m i, <[Z.to_nat i := x]> m)
    (seqZ (Z.of_nat (length before)) (Z.of_nat (length mid)))
    (before ++ mid ++ after)
  = before ++ replicate (length mid) x ++ after.
Proof.
  revert before. induction mid as [|y mid IH]; intros before.
  - reflexivity.
  - rewrite seqZ_cons by (simpl; lia). cbn [fold_left].
    rewrite Nat2Z.id.
    replace (<[length before := x]> (before ++ (y :: mid) ++ after))
      with ((before ++ [x]) ++ mid ++ after).
    + replace (Z.succ (Z.of_nat (length before)))
        with (Z.of_nat (length (before ++ [x])))
        by (rewrite length_app; simpl; lia).
      replace (Z.pred (Z.of_nat (length (y :: mid))))
        with (Z.of_nat (length mid)) by (simpl; lia).
      rewrite IH, <- app_assoc. reflexivity.
    + rewrite <- app_assoc. simpl.
      rewrite insert_app_r_alt by lia. rewrite Nat.sub_diag. reflexivity.
Qed.

Lemma applyModification_single_line this m line :
  let start := Selection.start (Modification.selection m) in
  let end_ := Selection.end_ (Modification.selection m) in
  Position.line start = Position.line end_ →
  0 ≤ Position.line start →
  codeMatrix this !! Z.to_nat (Position.line start) = Some line →
  0 ≤ Position.character start ≤ Position.character end_ →
  Position.character end_ ≤ Z.of_nat (length line) →
  applyModification m this
  = (withCodeMatrix this
       (<[Z.to_nat (Position.line start) :=
            take (Z.to_nat (Position.character start)) line
            ++ Modification.code m
               :: drop (Z.to_nat (Position.character end_)) line]>
          (codeMatrix this)),
     Return tt).
Proof.
  intros start end_ Hline H0 Hl Hc He. unfold applyModification.
  fold start end_. rewrite Hline, Z.eqb_refl. rewrite <- Hline.
  unfold mbind, M_bind, bind. rewrite (lineAt_in_range _ _ line) by assumption.
  unfold setLine. do 3 f_equal.
  rewrite <- (Z2Nat.id (Position.character start)) at 1 2 by lia.
  rewrite <- (Z2Nat.id (Position.character end_)) at 1 by lia.
  apply splice_in_range. lia.
Qed.

Lemma applyModification_multi_line this m first last :
  let start := Selection.start (Modification.selection m) in
  let end_ := Selection.end_ (Modification.selection m) in
  0 ≤ Position.line start < Position.line end_ →
  codeMatrix this !! Z.to_nat (Position.line start) = Some first →
  codeMatrix this !! Z.to_nat (Position.line end_) = Some last →
  0 ≤ Position.character start ≤ Z.of_nat (length first) →
  0 ≤ Position.character end_ ≤ Z.of_nat (length last) →
  applyModification m this
  = (withCodeMatrix this
       (fold_left (λ m i, <[Z.to_nat i := [DELETED_LINE]]> m)
          (seqZ (Position.line start + 1)
             (Position.line end_ - Position.line start))
          (<[Z.to_nat (Position.line start) :=
               (take (Z.to_nat (Position.character start)) first
                ++ [Modification.code m])
               ++ drop (Z.to_nat (Position.character end_)) last]>
             (codeMatrix this))),
     Return tt).
Proof.
  intros start end_ Hline Hf Hl Hc He. unfold applyModification.
  fold start end_.
  destruct (Z.eqb_spec (Position.line start) (Position.line end_)); [lia|].
  destruct (Z.gtb_spec (Position.line end_) (Position.line start)); [|lia].
  assert (Z.to_nat (Position.line start) < length (codeMatrix this))%nat as Hlt
    by (eapply lookup_lt_Some; exact Hf).
  unfold mbind, M_bind, bind.
  rewrite (lineAt_in_range _ _ first) by (first [lia | assumption]).
  cbn [setLine].
  rewrite (lineAt_in_range _ _
             (take (Z.to_nat (Position.character start)) first
              ++ [Modification.code m])).
  2: lia.
  2: { cbn [withCodeMatrix codeMatrix]. rewrite list_lookup_insert_eq by exact Hlt.
       f_equal.
       rewrite <- (Z2Nat.id (Position.character start)) at 1 2 by lia.
       apply splice_to_end. lia. }
  rewrite (lineAt_in_range _ _ last).
  2: lia.
  2: { cbn [withCodeMatrix codeMatrix]. rewrite list_lookup_insert_ne by lia.
       exact Hl. }
  rewrite forEach_setLine. cbn [withCodeMatrix codeMatrix].
  rewrite list_insert_insert_eq.
  replace (JS.sliceFrom last (Position.character end_))
    with (drop (Z.to_nat (Position.character end_)) last).
  - reflexivity.
  - rewrite <- (sliceFrom_in_range last (Z.to_nat (Position.character end_)))
      by lia.
    rewrite Z2Nat.id by lia. reflexivity.
Qed.

End OneModification.

(** ** Offsets *)

Section Offsets.

Local Abbreviation nl := InMemoryEditor.LINE_SEPARATOR.

Lemma separator_preceding ts : nl :: preceding ts = following ts ++ [nl].
Proof.
  induction ts as [|t ts IH]; [reflexivity|].
  change (preceding (t :: ts)) with ((t ++ [nl]) ++ preceding ts).
  change (following (t :: ts)) with ((nl :: t) ++ following ts).
  rewrite <- !app_assoc. simpl. f_equal. f_equal. exact IH.
Qed.

(** The text before a position is the lines above and the start of its
    line; the offset is the length of that text. *)
Lemma text_before lines above line below p :
  lines = above ++ line :: below →
  length above = Z.to_nat (Position.line p) →
  (Z.to_nat (Position.character p) ≤ length line)%nat →
  take (offsetOf lines p) (textOf lines)
  = preceding above ++ take (Z.to_nat (Position.character p)) line
  ∧ drop (offsetOf lines p) (textOf lines)
    = drop (Z.to_nat (Position.character p)) line ++ following below.
Proof.
  intros -> Hl Hc. unfold textOf. rewrite join_middle.
  assert (offsetOf (above ++ line :: below) p
          = length (preceding above
                    ++ take (Z.to_nat (Position.character p)) line)) as ->.
  { unfold offsetOf. rewrite <- Hl, take_app_length.
    rewrite length_app, length_preceding, length_take. lia. }
  replace (preceding above ++ line ++ following below)
    with ((preceding above ++ take (Z.to_nat (Position.character p)) line)
          ++ (drop (Z.to_nat (Position.character p)) line ++ following below)).
  - rewrite take_app_length, drop_app_length. split; reflexivity.
  - rewrite <- !app_assoc.
    rewrite (app_assoc (take _ line)), take_drop. reflexivity.
Qed.

Lemma inBuffer_split lines p :
  inBuffer lines p →
  ∃ above line below,
    lines = above ++ line :: below
    ∧ length above = Z.to_nat (Position.line p)
    ∧ (Z.to_nat (Position.character p) ≤ length line)%nat.
Proof.
  intros (Hl & Hc & line & Hline & Hlen).
  exists (take (Z.to_nat (Position.line p)) lines), line,
    (drop (S (Z.to_nat (Position.line p))) lines).
  split; [symmetry; apply take_drop_middle, Hline|].
  split; [|lia].
  apply length_take_le. apply lookup_lt_Some in Hline. lia.
Qed.

End Offsets.

(** ** The frontier of a commit *)

Section Frontier.

Import InMemoryEditor.

Local Abbreviation nl := InMemoryEditor.LINE_SEPARATOR.

(** Before any Modification, every position of the buffer is a frontier. *)
Lemma atFrontier_initial lines p :
  inBuffer lines p →
  atFrontier lines (matrixOf lines) p (drop (offsetOf lines p) (textOf lines)).
Proof.
  intros Hp. pose proof Hp as (Hl & Hc & _).
  destruct (inBuffer_split lines p Hp) as (above & line & below & Hlines & Hab & Hlen).
  destruct (text_before lines above line below p Hlines Hab Hlen) as [_ ->].
  exists above, line, below,
    (JS.chars (drop (Z.to_nat (Position.character p)) line)),
    (matrixOf below), below.
  repeat split; try assumption.
  - rewrite Hlines. unfold matrixOf. rewrite map_app. cbn [map].
    rewrite <- chars_app, take_drop. reflexivity.
  - apply length_map.
  - apply liveTexts_matrixOf.
  - rewrite concat_chars. reflexivity.
Qed.

(** A frontier can be moved to the left: the text in between joins the
    tail. *)
Lemma atFrontier_move lines matrix p tail q :
  atFrontier lines matrix p tail → inBuffer lines q →
  Position.isBefore q p = true →
  ∃ between,
    atFrontier lines matrix q (between ++ tail)
    ∧ take (offsetOf lines p) (textOf lines)
      = take (offsetOf lines q) (textOf lines) ++ between.
Proof.
  intros (above & line & below & cells & rows & ts & Hlines & HlP & HcP & Hab
          & Hc & HM & Hrows & Hlive & ->) Hq Hqp.
  apply isBefore_le in Hqp.
  destruct Hq as (HlQ & HcQ & lineQ & HlineQ & HlenQ).
  destruct (text_before lines above line below p Hlines Hab Hc) as [-> _].
  set (cp := Z.to_nat (Position.character p)) in *.
  set (cq := Z.to_nat (Position.character q)) in *.
  destruct (decide (Position.line q = Position.line p)) as [Heq|Hne].
  - assert (lineQ = line) as ->.
    { rewrite Hlines, Heq, <- Hab, list_lookup_middle in HlineQ by reflexivity.
      congruence. }
    assert (cq ≤ cp)%nat as Hle by lia.
    assert (take cp line = take cq line ++ drop cq (take cp line)) as Htake.
    { rewrite <- (take_drop cq (take cp line)) at 1.
      rewrite take_take, Nat.min_l by exact Hle. reflexivity. }
    exists (drop cq (take cp line)). split.
    + exists above, line, below, (JS.chars (drop cq (take cp line)) ++ cells),
        rows, ts.
      repeat split; try assumption; try lia.
      * rewrite HM. do 2 f_equal. fold cq.
        rewrite app_assoc, <- chars_app, <- Htake. reflexivity.
      * rewrite concat_app, concat_chars, <- app_assoc. reflexivity.
    + destruct (text_before lines above line below q Hlines) as [-> _];
        [lia | lia |].
      fold cq. rewrite <- app_assoc, <- Htake. reflexivity.
  - assert (Z.to_nat (Position.line q) < length above)%nat as Hlt by lia.
    assert (above !! Z.to_nat (Position.line q) = Some lineQ) as Hab'.
    { rewrite Hlines, lookup_app_l in HlineQ by exact Hlt. exact HlineQ. }
    apply take_drop_middle in Hab'.
    set (above' := take (Z.to_nat (Position.line q)) above) in *.
    set (mid := drop (S (Z.to_nat (Position.line q))) above) in *.
    assert (length above' = Z.to_nat (Position.line q)) as Hab''.
    { apply length_take_le. lia. }
    assert (lines = above' ++ lineQ :: (mid ++ line :: below)) as Hlines'.
    { rewrite Hlines, <- Hab', <- app_assoc. reflexivity. }
    exists (drop cq lineQ ++ following mid ++ nl :: take cp line). split.
    + exists above', lineQ, (mid ++ line :: below), (JS.chars (drop cq lineQ)),
        (matrixOf mid ++ (JS.chars (take cp line) ++ cells) :: rows),
        (mid ++ concat (JS.chars (take cp line) ++ cells) :: ts).
      repeat split; try assumption; try lia.
      * rewrite HM, <- Hab'. unfold matrixOf.
        rewrite map_app. cbn [map]. rewrite <- app_assoc. cbn [app].
        do 2 f_equal. rewrite <- chars_app, take_drop. reflexivity.
      * rewrite !length_app. cbn [length]. unfold matrixOf.
        rewrite length_map. lia.
      * apply liveTexts_app; [apply liveTexts_matrixOf|].
        constructor. exact Hlive.
      * rewrite concat_chars, following_app.
        change (following (?t :: ts)) with ((nl :: t) ++ following ts).
        rewrite concat_app, concat_chars, <- !app_assoc. cbn [app].
        rewrite <- !app_assoc. reflexivity.
    + destruct (text_before lines above' lineQ (mid ++ line :: below) q Hlines')
        as [-> _]; [exact Hab'' | lia |].
      fold cq. rewrite <- Hab', preceding_app.
      change (preceding (lineQ :: mid)) with ((lineQ ++ [nl]) ++ preceding mid).
      rewrite <- !app_assoc. f_equal.
      rewrite (app_assoc (take cq lineQ)), take_drop. f_equal.
      change ([nl] ++ preceding mid ++ take cp line)
        with ((nl :: preceding mid) ++ take cp line).
      rewrite separator_preceding, <- app_assoc. reflexivity.
Qed.

End Frontier.

Section FrontierStep.

Import InMemoryEditor.

(** A Modification that ends at the frontier moves the frontier to its
    start and puts its code in front of the tail. *)
Lemma atFrontier_apply lines this tail m :
  let start := Selection.start (Modification.selection m) in
  let end_ := Selection.end_ (Modification.selection m) in
  atFrontier lines (codeMatrix this) end_ tail →
  inBuffer lines start →
  Position.isBefore start end_ = true →
  ∃ matrix',
    applyModification m this = (withCodeMatrix this matrix', Return tt)
    ∧ atFrontier lines matrix' start (Modification.code m ++ tail).
Proof.
  intros start end_
    (above & line & below & cells & rows & ts & Hlines & HlE & HcE & Hab
     & Hc & HM & Hrows & Hlive & ->) Hs Hse.
  apply isBefore_le in Hse.
  destruct Hs as (HlS & HcS & lineS & HlineS & HlenS).
  set (ce := Z.to_nat (Position.character end_)) in *.
  set (cs := Z.to_nat (Position.character start)) in *.
  set (row := JS.chars (take ce line) ++ cells) in *.
  assert (length (JS.chars (take ce line)) = ce) as Hlen.
  { rewrite length_chars, length_take. lia. }
  assert (drop ce row = cells) as Hdrop.
  { unfold row. apply drop_app_length'. symmetry. exact Hlen. }
  assert (codeMatrix this !! Z.to_nat (Position.line end_) = Some row) as Hrow.
  { rewrite HM. apply list_lookup_middle. unfold matrixOf.
    rewrite length_map. symmetry. exact Hab. }
  destruct (decide (Position.line start = Position.line end_)) as [Heq|Hne].
  - assert (lineS = line) as ->.
    { rewrite Hlines, Heq, <- Hab, list_lookup_middle in HlineS by reflexivity.
      congruence. }
    assert (cs ≤ ce)%nat as Hle by lia.
    eexists. split.
    + apply (applyModification_single_line this m row); fold start end_;
        [exact Heq | exact HlS | rewrite Heq; exact Hrow | lia |].
      unfold row. rewrite length_app, Hlen. lia.
    + fold start end_ cs ce. rewrite Hdrop.
      exists above, line, below, (Modification.code m :: cells), rows, ts.
      repeat split; try assumption; try lia.
      * rewrite HM, Heq, <- Hab.
        replace (length above) with (length (matrixOf above))
          by (unfold matrixOf; apply length_map).
        rewrite insert_app_r_alt, Nat.sub_diag by lia. cbn [insert list_insert].
        do 2 f_equal. unfold row.
        rewrite take_app_le by lia.
        rewrite take_chars, take_take, Nat.min_l by exact Hle. reflexivity.
      * cbn [concat]. rewrite <- app_assoc. reflexivity.
  - assert (Z.to_nat (Position.line start) < length above)%nat as Hlt by lia.
    assert (above !! Z.to_nat (Position.line start) = Some lineS) as Hab'.
    { rewrite Hlines, lookup_app_l in HlineS by exact Hlt. exact HlineS. }
    apply take_drop_middle in Hab'.
    set (above' := take (Z.to_nat (Position.line start)) above) in *.
    set (mid := drop (S (Z.to_nat (Position.line start))) above) in *.
    assert (length above' = Z.to_nat (Position.line start)) as Hab''.
    { apply length_take_le. lia. }
    assert (length above = S (length above' + length mid)) as Hlen'.
    { rewrite <- Hab', length_app. simpl. lia. }
    assert (codeMatrix this
            = matrixOf above' ++ JS.chars lineS :: (matrixOf mid ++ [row]) ++ rows)
      as HM'.
    { rewrite HM, <- Hab'. unfold matrixOf.
      rewrite map_app. cbn [map]. rewrite <- !app_assoc. reflexivity. }
    eexists. split.
    + apply (applyModification_multi_line this m (JS.chars lineS) row);
        fold start end_; [lia | | exact Hrow | |].
      * rewrite HM'. apply list_lookup_middle. unfold matrixOf.
        rewrite length_map. symmetry. exact Hab''.
      * rewrite length_chars. lia.
      * unfold row. rewrite length_app, Hlen. lia.
    + fold start end_ cs ce. rewrite Hdrop, take_chars.
      exists above', lineS, (mid ++ line :: below), (Modification.code m :: cells),
        (replicate (length (matrixOf mid ++ [row])) [DELETED_LINE] ++ rows), ts.
      repeat split; try assumption; try lia.
      * rewrite Hlines, <- Hab', <- app_assoc. reflexivity.
      * rewrite HM'.
        replace (Z.to_nat (Position.line start))
          with (length (matrixOf above'))
          by (unfold matrixOf; rewrite length_map; exact Hab'').
        rewrite insert_app_r_alt, Nat.sub_diag by lia. cbn [insert list_insert].
        set (new := (JS.chars (take cs lineS) ++ [Modification.code m]) ++ cells).
        replace (matrixOf above' ++ new :: (matrixOf mid ++ [row]) ++ rows)
          with ((matrixOf above' ++ [new]) ++ (matrixOf mid ++ [row]) ++ rows)
          by (rewrite <- app_assoc; reflexivity).
        replace (Position.line start + 1)
          with (Z.of_nat (length (matrixOf above' ++ [new]))).
        2: { rewrite length_app. unfold matrixOf. rewrite length_map. simpl. lia. }
        replace (Position.line end_ - Position.line start)
          with (Z.of_nat (length (matrixOf mid ++ [row]))).
        2: { rewrite length_app. unfold matrixOf. rewrite length_map. simpl. lia. }
        rewrite mark_deleted. unfold new.
        rewrite <- !app_assoc. reflexivity.
      * rewrite ?length_app, length_replicate, ?length_app. unfold matrixOf.
        rewrite length_map. simpl. lia.
      * rewrite <- (app_nil_l ts).
        apply liveTexts_app; [apply liveTexts_replicate | exact Hlive].
      * cbn [concat]. rewrite <- app_assoc. reflexivity.
Qed.

(** A Modification over the buffer that ends at or before the frontier. *)
Lemma commit_step lines this p tail m :
  atFrontier lines (codeMatrix this) p tail →
  validModification lines m →
  Position.isBefore (Selection.end_ (Modification.selection m)) p = true →
  ∃ matrix' between,
    applyModification m this = (withCodeMatrix this matrix', Return tt)
    ∧ atFrontier lines matrix' (Selection.start (Modification.selection m))
        (Modification.code m ++ between ++ tail)
    ∧ take (offsetOf lines p) (textOf lines)
      = take (offsetOf lines (Selection.end_ (Modification.selection m)))
          (textOf lines) ++ between.
Proof.
  intros Hp (Hs & He & Hse) Hep.
  destruct (atFrontier_move lines _ p tail _ Hp He Hep)
    as (between & Hfrontier & Htext).
  destruct (atFrontier_apply lines this (between ++ tail) m Hfrontier Hs Hse)
    as (matrix' & Happly & Hfrontier').
  exists matrix', between. auto.
Qed.

End FrontierStep.

(** ** The commit, right to left *)

Section Commit.

Import InMemoryEditor.

Lemma spliceBetween_snoc text from edits first last code stop :
  spliceBetween text from (edits ++ [(first, last, code)]) stop
  = spliceBetween text from edits first ++ code
    ++ take (stop - last) (drop last text).
Proof.
  revert from. induction edits as [|[[f l] c] edits IH]; intros from; simpl.
  - reflexivity.
  - rewrite IH, <- !app_assoc. reflexivity.
Qed.

Lemma spliceFrom_snoc text from edits first last code :
  spliceFrom text from (edits ++ [(first, last, code)])
  = spliceBetween text from edits first ++ code ++ drop last text.
Proof.
  revert from. induction edits as [|[[f l] c] edits IH]; intros from; simpl.
  - reflexivity.
  - rewrite IH, <- !app_assoc. reflexivity.
Qed.

Lemma take_app_slice {A} (l : list A) n k rest :
  take n l = take k l ++ rest → rest = take (n - k) (drop k l).
Proof.
  intros H. destruct (decide (k ≤ n)%nat) as [Hle|Hgt].
  - apply (app_inv_head (take k l)). rewrite <- H, take_take_drop.
    f_equal. lia.
  - assert (length rest = 0)%nat as Hnil.
    { apply (f_equal length) in H. rewrite length_app, !length_take in H. lia. }
    replace (n - k)%nat with 0%nat by lia.
    destruct rest; [reflexivity | discriminate].
Qed.

Lemma commit_rightToLeft lines ms :
  ∀ this p tail,
    atFrontier lines (codeMatrix this) p tail →
    rightToLeft lines p ms →
    ∃ matrix' p' tail',
      forEach ms applyModification this = (withCodeMatrix this matrix', Return tt)
      ∧ atFrontier lines matrix' p' tail'
      ∧ take (offsetOf lines p') (textOf lines) ++ tail'
        = spliceBetween (textOf lines) 0 (editsOf lines (rev ms))
            (offsetOf lines p) ++ tail.
Proof.
  induction ms as [|m ms IH]; intros this p tail Hp Hms.
  - exists (codeMatrix this), p, tail. split; [|split].
    + simpl. rewrite withCodeMatrix_id. reflexivity.
    + exact Hp.
    + simpl. rewrite Nat.sub_0_r. reflexivity.
  - destruct Hms as (Hm & Hmp & Hms).
    destruct (commit_step lines this p tail m Hp Hm Hmp)
      as (matrix1 & between & Happly & Hp1 & Htext).
    destruct (IH (withCodeMatrix this matrix1) _ _ Hp1 Hms)
      as (matrix' & p' & tail' & Hcommit & Hp' & Hfinal).
    exists matrix', p', tail'. split; [|split].
    + cbn [forEach]. unfold mbind, M_bind, bind. rewrite Happly.
      exact Hcommit.
    + exact Hp'.
    + rewrite Hfinal. cbn [rev]. unfold editsOf at 2.
      rewrite map_app. cbn [map]. fold (editsOf lines (rev ms)).
      rewrite spliceBetween_snoc.
      rewrite (take_app_slice _ _ _ _ Htext), <- !app_assoc. reflexivity.
Qed.

Lemma DELETED_LINE_one_line : LINE_SEPARATOR ∉ DELETED_LINE.
Proof.
  unfold DELETED_LINE, str. cbn [list_ascii_of_string].
  rewrite !not_elem_of_cons.
  repeat split; try discriminate. apply not_elem_of_nil.
Qed.

(** Once the commit is over, [read] gives the text before the frontier and
    the tail, when the sentinel is no line of that text. *)
Lemma read_atFrontier lines matrix p tail :
  atFrontier lines matrix p tail →
  DELETED_LINE
  ∉ JS.split LINE_SEPARATOR (take (offsetOf lines p) (textOf lines) ++ tail) →
  read matrix = take (offsetOf lines p) (textOf lines) ++ tail.
Proof.
  intros (above & line & below & cells & rows & ts & Hlines & HlP & HcP & Hab
          & Hc & -> & Hrows & Hlive & ->).
  destruct (text_before lines above line below p Hlines Hab Hc) as [-> _].
  set (row := JS.chars (take (Z.to_nat (Position.character p)) line) ++ cells).
  assert (preceding above
          ++ take (Z.to_nat (Position.character p)) line
          ++ concat cells ++ following ts
          = JS.join [LINE_SEPARATOR] (above ++ concat row :: ts)) as Htext.
  { rewrite join_middle. unfold row.
    rewrite concat_app, concat_chars, <- app_assoc. reflexivity. }
  rewrite <- app_assoc, Htext. intros Hsentinel.
  apply read_liveTexts.
  - apply liveTexts_app; [apply liveTexts_matrixOf|].
    constructor. exact Hlive.
  - intros Hin. apply Hsentinel, elem_of_split_join;
      [exact Hin | exact DELETED_LINE_one_line].
Qed.

End Commit.

(** ** The order of the commit *)

Section RightMostFirst.

Import InMemoryEditor.

Lemma rightMostFirst_positive tmp element :
  (rightMostFirst tmp element >? 0)
  = Selection.startsBefore (Modification.selection tmp)
      (Modification.selection element).
Proof. unfold rightMostFirst. destruct (Selection.startsBefore _ _); reflexivity. Qed.

Lemma startsNoLater_total a b : ¬ startsNoLater a b → startsNoLater b a.
Proof.
  unfold startsNoLater, Selection.startsBefore. intros H.
  apply not_true_is_false, isBefore_false in H. apply isBefore_le. lia.
Qed.

#[local] Instance startsNoLater_trans : Transitive startsNoLater.
Proof.
  unfold startsNoLater, Selection.startsBefore. intros a b c Hab Hbc.
  apply isBefore_le in Hab, Hbc. apply isBefore_le. lia.
Qed.

Lemma isBefore_antisym p q :
  Position.isBefore p q = true → Position.isBefore q p = true → p = q.
Proof.
  intros Hpq Hqp. apply isBefore_le in Hpq, Hqp.
  destruct p, q; simpl in *. f_equal; lia.
Qed.

Lemma insertRev_sorted element sortedRev :
  StronglySorted startsNoLater sortedRev →
  StronglySorted startsNoLater (JS.insertRev rightMostFirst element sortedRev)
  ∧ JS.insertRev rightMostFirst element sortedRev ≡ₚ element :: sortedRev.
Proof.
  induction sortedRev as [|tmp rest IH]; intros Hs; cbn [JS.insertRev].
  - split; [repeat constructor | reflexivity].
  - apply StronglySorted_inv in Hs as [Hrest Htmp].
    rewrite rightMostFirst_positive.
    destruct (Selection.startsBefore (Modification.selection tmp)
                (Modification.selection element)) eqn:E.
    + destruct (IH Hrest) as [IHs IHp]. split.
      * constructor; [exact IHs|]. rewrite IHp. constructor; assumption.
      * rewrite IHp. apply Permutation_swap.
    + split; [|reflexivity].
      assert (startsNoLater element tmp) as Hx.
      { apply startsNoLater_total. unfold startsNoLater. congruence. }
      constructor; [constructor; assumption|].
      constructor; [exact Hx|].
      eapply Forall_impl; [exact Htmp|]. intros r Hr. simpl.
      etransitivity; eassumption.
Qed.

Lemma sortRev_sorted l :
  StronglySorted startsNoLater (JS.sortRev rightMostFirst l)
  ∧ JS.sortRev rightMostFirst l ≡ₚ l.
Proof.
  unfold JS.sortRev.
  assert (∀ acc,
            StronglySorted startsNoLater acc →
            StronglySorted startsNoLater
              (fold_left (λ sortedRev element,
                            JS.insertRev rightMostFirst element sortedRev) l acc)
            ∧ fold_left (λ sortedRev element,
                           JS.insertRev rightMostFirst element sortedRev) l acc
              ≡ₚ l ++ acc) as H.
  { induction l as [|x l IH]; intros acc Hacc; cbn [fold_left].
    - split; [exact Hacc | reflexivity].
    - destruct (insertRev_sorted x acc Hacc) as [Hs Hp].
      destruct (IH _ Hs) as [IHs IHp]. split; [exact IHs|].
      rewrite IHp, Hp. symmetry. apply Permutation_middle. }
  destruct (H [] (SSorted_nil _)) as [Hs Hp].
  split; [exact Hs|]. rewrite Hp, app_nil_r. reflexivity.
Qed.

Lemma follows_startsNoLater lines ms :
  StronglySorted follows ms → Forall (validModification lines) ms →
  StronglySorted startsNoLater ms.
Proof.
  intros Hs Hv. induction Hs as [|a l Hl IH Ha]; [constructor|].
  apply Forall_cons in Hv as [(_ & _ & Hva) Hvl].
  constructor; [apply IH, Hvl|].
  eapply Forall_impl; [exact Ha|]. intros b [Hab _]. simpl.
  unfold startsNoLater, Selection.startsBefore.
  apply isBefore_le in Hva, Hab. apply isBefore_le. lia.
Qed.

Lemma follows_start_inj ms x y :
  StronglySorted follows ms → x ∈ ms → y ∈ ms →
  Selection.start (Modification.selection x)
  = Selection.start (Modification.selection y) →
  x = y.
Proof.
  intros Hs. induction Hs as [|a l Hl IH Ha]; intros Hx Hy Hxy;
    [inversion Hx|].
  rewrite Forall_forall in Ha.
  apply elem_of_cons in Hx as [->|Hx]; apply elem_of_cons in Hy as [->|Hy].
  - reflexivity.
  - destruct (Ha _ Hy) as [_ Hne]. contradiction.
  - destruct (Ha _ Hx) as [_ Hne]. congruence.
  - apply IH; assumption.
Qed.

(** Whatever order the Modifications are returned in, the sort puts them
    right-most first. *)
Lemma sort_rightMostFirst lines ms returned :
  StronglySorted follows ms → Forall (validModification lines) ms →
  returned ≡ₚ ms →
  JS.sort rightMostFirst returned = rev ms.
Proof.
  intros Hs Hv Hp. unfold JS.sort. f_equal.
  destruct (sortRev_sorted returned) as [Hsorted Hperm].
  apply (StronglySorted_unique_strong startsNoLater).
  - intros x1 x2 Hx1 Hx2 H12 H21.
    apply (follows_start_inj ms); [exact Hs | | exact Hx2 |].
    + rewrite <- Hp, <- Hperm. exact Hx1.
    + apply isBefore_antisym; assumption.
  - exact Hsorted.
  - eapply follows_startsNoLater; eassumption.
  - rewrite Hperm. exact Hp.
Qed.

Lemma rightToLeft_rev lines ms p :
  StronglySorted follows ms → Forall (validModification lines) ms →
  Forall (λ m, Position.isBefore
                 (Selection.end_ (Modification.selection m)) p = true) ms →
  rightToLeft lines p (rev ms).
Proof.
  revert p. induction ms as [|m ms IH] using rev_ind; intros p Hs Hv Hp.
  - exact I.
  - rewrite rev_unit. cbn [rightToLeft].
    apply StronglySorted_app in Hs as (Hm & Hs & _).
    apply Forall_app in Hv as [Hv Hvm]. apply Forall_app in Hp as [_ Hpm].
    apply Forall_cons in Hvm as [Hvm _]. apply Forall_cons in Hpm as [Hpm _].
    split; [exact Hvm|]. split; [exact Hpm|].
    apply IH; [exact Hs | exact Hv |].
    apply Forall_forall. intros x Hx.
    apply (Hm x m); [exact Hx | left].
Qed.

End RightMostFirst.

(** ** What the selection read depends on *)

Section ReadsMatrixOnly.

Import InMemoryEditor.

Lemma readsMatrixOnly_ret {A} (a : A) : readsMatrixOnly (mret a).
Proof. intros this1 this2 H. split; [reflexivity | exact H]. Qed.

Lemma readsMatrixOnly_bind {A B} (c : M A) (k : A → M B) :
  readsMatrixOnly c → (∀ a, readsMatrixOnly (k a)) → readsMatrixOnly (c ≫= k).
Proof.
  intros Hc Hk this1 this2 H. unfold mbind, M_bind, bind.
  destruct (Hc this1 this2 H) as [Ho Hm].
  destruct (c this1) as [this1' [a1|e1]], (c this2) as [this2' [a2|e2]];
    simpl in Ho, Hm; try discriminate.
  - injection Ho as ->. apply Hk, Hm.
  - injection Ho as ->. split; [reflexivity | exact Hm].
Qed.

Lemma readsMatrixOnly_lineAt i : readsMatrixOnly (lineAt i).
Proof.
  intros this1 this2 H. unfold lineAt. rewrite H.
  destruct (JS.get (codeMatrix this2) i); split; simpl; auto.
Qed.

Lemma readsMatrixOnly_mapM {A B} (l : list A) (f : A → M B) :
  (∀ x, readsMatrixOnly (f x)) → readsMatrixOnly (mapM l f).
Proof.
  intros Hf. induction l as [|x l IH]; cbn [mapM].
  - apply (readsMatrixOnly_ret []).
  - apply readsMatrixOnly_bind; [apply Hf|]. intros y.
    apply readsMatrixOnly_bind; [exact IH|]. intros ys.
    apply (readsMatrixOnly_ret (y :: ys)).
Qed.

Lemma readsMatrixOnly_readSelection selection :
  readsMatrixOnly (readSelection selection).
Proof.
  unfold readSelection.
  destruct (_ =? _); [|destruct (_ >? _)].
  - apply readsMatrixOnly_bind; [apply readsMatrixOnly_lineAt|]. intros line.
    apply (readsMatrixOnly_ret [_]).
  - apply readsMatrixOnly_bind; [apply readsMatrixOnly_lineAt|]. intros first.
    apply readsMatrixOnly_bind;
      [apply readsMatrixOnly_mapM, readsMatrixOnly_lineAt|]. intros between.
    apply readsMatrixOnly_bind; [apply readsMatrixOnly_lineAt|]. intros last.
    apply (readsMatrixOnly_ret (_ ++ _ ++ _)).
  - apply (readsMatrixOnly_ret []).
Qed.

End ReadsMatrixOnly.

(** ** The commit and the splice in document order *)

(** The constructor and [write] build a code matrix of one code unit per
    cell, from the lines of the code without their markers. *)
Lemma create_matrixOf code position :
  InMemoryEditor.codeMatrix (InMemoryEditor.create code position)
  = matrixOf (map InMemoryEditor.stripMarkers
                (JS.split InMemoryEditor.LINE_SEPARATOR code)).
Proof.
  unfold InMemoryEditor.create, InMemoryEditor.setCodeMatrix, matrixOf.
  cbn [InMemoryEditor.codeMatrix]. rewrite map_map. reflexivity.
Qed.

Lemma write_matrixOf this code newCursorPosition :
  InMemoryEditor.codeMatrix (InMemoryEditor.write this code newCursorPosition)
  = matrixOf (map InMemoryEditor.stripMarkers
                (JS.split InMemoryEditor.LINE_SEPARATOR code)).
Proof.
  unfold InMemoryEditor.write, InMemoryEditor.setCodeMatrix, matrixOf.
  destruct newCursorPosition; cbn [InMemoryEditor.codeMatrix
    InMemoryEditor.withCodeMatrix InMemoryEditor.withSelection];
    rewrite map_map; reflexivity.
Qed.

(** A commit leaves the code of a Modification in one cell, so the cells of
    a buffer that was committed to are no longer the characters of its text:
    on the text "XYZb" held as the cells "XYZ", "b", replacing the range
    (0,1)-(0,2) replaces the cell "b". *)
Example committed_buffer_cells :
  let replaceFirst :=
    Modification.mk (str "XYZ")
      (Selection.mk (Position.mk 0 0) (Position.mk 0 1)) in
  let replaceSecond :=
    Modification.mk (str "Q")
      (Selection.mk (Position.mk 0 1) (Position.mk 0 2)) in
  let editor :=
    (InMemoryEditor.readThenWrite (Selection.cursorAt 0 0)
       (λ _, [replaceFirst]) None (InMemoryEditor.new (str "ab"))).1 in
  InMemoryEditor.codeMatrix editor = [[str "XYZ"; str "b"]]
  ∧ InMemoryEditor.code editor = str "XYZb"
  ∧ InMemoryEditor.code
      (InMemoryEditor.readThenWrite (Selection.cursorAt 0 0)
         (λ _, [replaceSecond]) None editor).1
    = str "XYZQ".
Proof. repeat split. Qed.

(** The comparison of the sort puts each of two Modifications that start at
    the same position after the other. *)
Example rightMostFirst_same_start :
  let insertion := Modification.mk (str "I") (Selection.cursorAt 0 1) in
  let replacement :=
    Modification.mk (str "R")
      (Selection.mk (Position.mk 0 1) (Position.mk 0 2)) in
  InMemoryEditor.rightMostFirst insertion replacement = 1
  ∧ InMemoryEditor.rightMostFirst replacement insertion = 1.
Proof. split; reflexivity. Qed.

(** C2, as stated, fails on the deletion sentinel: [read] drops every line
    that spells it, so replacing the one character of the buffer "a" by the
    text of the sentinel leaves the empty text, not the buffer with the
    range replaced. *)
Lemma sentinel_replacement_is_dropped :
  let lines := [str "a"] in
  let m :=
    Modification.mk InMemoryEditor.DELETED_LINE
      (Selection.mk (Position.mk 0 0) (Position.mk 0 1)) in
  let editor := InMemoryEditor.new (str "a") in
  InMemoryEditor.codeMatrix editor = matrixOf lines
  ∧ InMemoryEditor.code editor = textOf lines
  ∧ (InMemoryEditor.readThenWrite (Selection.cursorAt 0 0) (λ _, [m]) None
       editor).2 = Return tt
  ∧ InMemoryEditor.code
      (InMemoryEditor.readThenWrite (Selection.cursorAt 0 0) (λ _, [m]) None
         editor).1 = []
  ∧ spliceInDocumentOrder lines [m] = str "___DELETED_LINE___"
  ∧ InMemoryEditor.code
      (InMemoryEditor.readThenWrite (Selection.cursorAt 0 0) (λ _, [m]) None
         editor).1
    ≠ spliceInDocumentOrder lines [m].
Proof.
  intros lines m editor. repeat split; try reflexivity.
  vm_compute. discriminate.
Qed.

(** C2, amended: on a buffer of lines [lines], one code unit per cell, let
    [ms] be Modifications over that buffer in document order, none
    overlapping another and no two starting at the same position, and let
    [getModifications] return them in any order.  Then [readThenWrite]
    commits them right-most first and returns, and, when the deletion
    sentinel is no line of the result, the serialized text is the original
    text with the range of every Modification replaced by its code in
    document order. *)
Theorem commit_is_splice_in_document_order (lines : list Code)
    (ms returned : list Modification.t) (editor : InMemoryEditor.t)
    (selection : Selection.t) (getModifications : Code → list Modification.t)
    (newCursorPosition : option Position.t) (readCodeMatrix : CodeMatrix) :
  InMemoryEditor.codeMatrix editor = matrixOf lines →
  Forall (validModification lines) ms →
  StronglySorted follows ms →
  returned ≡ₚ ms →
  (InMemoryEditor.readSelection selection editor).2 = Return readCodeMatrix →
  getModifications (InMemoryEditor.read readCodeMatrix) = returned →
  InMemoryEditor.DELETED_LINE
  ∉ JS.split InMemoryEditor.LINE_SEPARATOR (spliceInDocumentOrder lines ms) →
  JS.sort InMemoryEditor.rightMostFirst returned = rev ms
  ∧ ∃ editor',
      InMemoryEditor.readThenWrite selection getModifications newCursorPosition
        editor = (editor', Return tt)
      ∧ InMemoryEditor.code editor' = spliceInDocumentOrder lines ms.
Proof.
  intros Hmatrix Hvalid Hsorted Hperm Hread Hget Hsentinel.
  pose proof (sort_rightMostFirst lines ms returned Hsorted Hvalid Hperm) as Hsort.
  split; [exact Hsort|].
  rewrite readThenWrite_unfold. cbv zeta.
  set (this0 := match newCursorPosition with
                | Some p =>
                    InMemoryEditor.withSelection editor
                      (Selection.cursorAtPosition p)
                | None => editor
                end).
  assert (InMemoryEditor.codeMatrix this0 = matrixOf lines) as Hmatrix0.
  { unfold this0. destruct newCursorPosition; exact Hmatrix. }
  assert ((InMemoryEditor.readSelection selection this0).2
          = Return readCodeMatrix) as Hread0.
  { rewrite <- Hread. apply readsMatrixOnly_readSelection. congruence. }
  destruct (InMemoryEditor.readSelection selection this0) as [this' outcome].
  simpl in Hread0. subst outcome. rewrite Hget, Hsort.
  unfold InMemoryEditor.code.
  destruct ms as [|m ms _] using rev_ind.
  - exists this0. split; [reflexivity|].
    rewrite Hmatrix0.
    unfold spliceInDocumentOrder in *. cbn [editsOf map spliceFrom] in *.
    rewrite drop_0 in *. apply read_liveTexts; [apply liveTexts_matrixOf|].
    intros Hin. apply Hsentinel, elem_of_split_join;
      [exact Hin | exact DELETED_LINE_one_line].
  - set (p := Selection.end_ (Modification.selection m)).
    assert (validModification lines m) as Hm.
    { apply Forall_app in Hvalid as [_ Hm]. apply Forall_cons in Hm as [Hm _].
      exact Hm. }
    assert (inBuffer lines p) as Hp by apply Hm.
    assert (rightToLeft lines p (rev (ms ++ [m]))) as Hchain.
    { apply rightToLeft_rev; [exact Hsorted | exact Hvalid |].
      apply Forall_app. split.
      - apply StronglySorted_app in Hsorted as (Hfollows & _ & _).
        apply Forall_forall. intros x Hx.
        destruct (Hfollows x m Hx) as [Hxm _]; [left|].
        destruct Hm as (_ & _ & Hse).
        apply isBefore_le in Hxm, Hse. apply isBefore_le. unfold p. lia.
      - constructor; [|constructor]. apply isBefore_le. unfold p. lia. }
    pose proof (atFrontier_initial lines p Hp) as Hinit.
    rewrite <- Hmatrix0 in Hinit.
    destruct (commit_rightToLeft lines _ this0 p _ Hinit Hchain)
      as (matrix' & p' & tail' & Hcommit & Hp' & Hfinal).
    rewrite rev_involutive in Hfinal.
    assert (spliceInDocumentOrder lines (ms ++ [m])
            = take (offsetOf lines p') (textOf lines) ++ tail') as Hspec.
    { rewrite Hfinal. unfold spliceInDocumentOrder, editsOf.
      rewrite map_app. cbn [map]. fold (editsOf lines ms).
      rewrite spliceFrom_snoc, spliceBetween_snoc.
      fold p. rewrite Nat.sub_diag, take_0, <- !app_assoc. reflexivity. }
    exists (InMemoryEditor.withCodeMatrix this0 matrix').
    split; [exact Hcommit|].
    rewrite Hspec. cbn [InMemoryEditor.withCodeMatrix InMemoryEditor.codeMatrix].
    apply (read_atFrontier lines); [exact Hp'|].
    rewrite <- Hspec. exact Hsentinel.
Qed.

Lemma commit_is_splice_in_document_order_witness :
  let lines := [str "abc"; str "def"; str "ghi"] in
  let first :=
    Modification.mk (str "X")
      (Selection.mk (Position.mk 0 1) (Position.mk 0 2)) in
  let second :=
    Modification.mk (str "YZ")
      (Selection.mk (Position.mk 1 0) (Position.mk 2 1)) in
  JS.sort InMemoryEditor.rightMostFirst [first; second] = [second; first]
  ∧ ∃ editor',
      InMemoryEditor.readThenWrite (Selection.cursorAt 0 0)
        (λ _, [first; second]) None
        (InMemoryEditor.new (str "abc
def
ghi")) = (editor', Return tt)
      ∧ InMemoryEditor.code editor' = str "aXc
YZhi".
Proof.
  intros lines first second.
  refine (commit_is_splice_in_document_order lines [first; second]
            [first; second] (InMemoryEditor.new (str "abc
def
ghi")) (Selection.cursorAt 0 0) (λ _, [first; second]) None [[]]
            eq_refl _ _ _ eq_refl eq_refl _).
  - repeat constructor; simpl; try lia;
      eexists; (split; [reflexivity | simpl; lia]).
  - repeat constructor; discriminate.
  - reflexivity.
  - intros Hin. apply list_elem_of_In in Hin. vm_compute in Hin.
    destruct Hin as [Hin|[Hin|[]]]; discriminate.
Defined.

(** * Further properties *)

(** ** The order of positions *)

(** X1: [a.isAfter(b)] holds exactly when [b.isBefore(a)] does: like
    [isBefore], [isAfter] holds of equal positions. *)
Theorem isAfter_converse (a b : Position.t) :
  Position.isAfter a b = Position.isBefore b a.
Proof.
  apply eq_true_iff_eq. rewrite isAfter_ge, isBefore_le.
  split; intros [H|[H1 H2]]; lia.
Qed.

(** X2: [isBefore] is an order on positions: it holds of a position and
    itself, it is transitive, and two positions each before the other are
    the same position. *)
Theorem isBefore_order (a b c : Position.t) :
  Position.isBefore a a = true
  ∧ (Position.isBefore a b = true → Position.isBefore b c = true →
     Position.isBefore a c = true)
  ∧ (Position.isBefore a b = true → Position.isBefore b a = true → a = b).
Proof.
  split; [|split].
  - apply isBefore_le. lia.
  - intros Hab Hbc. apply isBefore_le in Hab, Hbc. apply isBefore_le. lia.
  - apply isBefore_antisym.
Qed.

Lemma isBefore_order_witness :
  let a := Position.mk 0 7 in
  let b := Position.mk 1 2 in
  let c := Position.mk 1 5 in
  Position.isBefore a c = true.
Proof.
  intros a b c.
  exact (proj1 (proj2 (isBefore_order a b c)) eq_refl eq_refl).
Defined.




(** ** Writing a code and reading it back *)

Section RoundTrip.

Import InMemoryEditor.

Lemma join_split s :
  JS.join [LINE_SEPARATOR] (JS.split LINE_SEPARATOR s) = s.
Proof.
  induction s as [|c s IH]; cbn [JS.split]; [reflexivity|].
  pose proof (split_not_nil LINE_SEPARATOR s) as Hne.
  destruct (JS.split LINE_SEPARATOR s) as [|l ls] eqn:E; [contradiction|].
  rewrite join_cons in IH.
  destruct (decide (c = LINE_SEPARATOR)) as [->|Hc].
  - rewrite join_cons.
    change (following ((l :: ls))) with ((LINE_SEPARATOR :: l) ++ following ls).
    simpl. f_equal. exact IH.
  - rewrite join_cons. simpl. f_equal. exact IH.
Qed.

Lemma stripMarkers_holdsNoMarker line :
  holdsNoMarker line → stripMarkers line = line.
Proof.
  intros (Hc & Hs & He). unfold stripMarkers.
  rewrite (indexOf_absent_replace _ _ _ Hc).
  rewrite (indexOf_absent_replace _ _ _ Hs).
  apply indexOf_absent_replace, He.
Qed.

Lemma setCodeMatrix_matrixOf code :
  setCodeMatrix code
  = matrixOf (map stripMarkers (JS.split LINE_SEPARATOR code)).
Proof. unfold setCodeMatrix, matrixOf. rewrite map_map. reflexivity. Qed.

Lemma map_stripMarkers lines :
  Forall holdsNoMarker lines → map stripMarkers lines = lines.
Proof.
  intros H. induction H as [|line lines Hl _ IH]; [reflexivity|].
  simpl. rewrite stripMarkers_holdsNoMarker by exact Hl. f_equal. exact IH.
Qed.

(** The text of a code matrix of lines none of which spells the sentinel. *)
Lemma read_matrixOf lines :
  DELETED_LINE ∉ lines → read (matrixOf lines) = textOf lines.
Proof.
  intros H. apply read_liveTexts; [apply liveTexts_matrixOf | exact H].
Qed.

Lemma read_setCodeMatrix code :
  Forall holdsNoMarker (JS.split LINE_SEPARATOR code) →
  DELETED_LINE ∉ JS.split LINE_SEPARATOR code →
  read (setCodeMatrix code) = code.
Proof.
  intros Hm Hd. rewrite setCodeMatrix_matrixOf, map_stripMarkers by exact Hm.
  rewrite read_matrixOf by exact Hd. apply join_split.
Qed.

End RoundTrip.

(** X5: a code none of whose lines holds a marker or spells the deletion
    sentinel is read back as it was written: the getter [code] of an editor
    constructed with it, and of any editor after [write] of it, is that
    code. *)
Theorem write_code_round_trip (this : InMemoryEditor.t) (code : Code)
    (position : Position.t) (newCursorPosition : option Position.t) :
  Forall holdsNoMarker (JS.split InMemoryEditor.LINE_SEPARATOR code) →
  InMemoryEditor.DELETED_LINE ∉ JS.split InMemoryEditor.LINE_SEPARATOR code →
  InMemoryEditor.code (InMemoryEditor.create code position) = code
  ∧ InMemoryEditor.code (InMemoryEditor.write this code newCursorPosition)
    = code.
Proof.
  intros Hm Hd. unfold InMemoryEditor.code, InMemoryEditor.create,
    InMemoryEditor.write.
  split.
  - apply read_setCodeMatrix; assumption.
  - destruct newCursorPosition; apply read_setCodeMatrix; assumption.
Qed.

Lemma write_code_round_trip_witness :
  InMemoryEditor.code
    (InMemoryEditor.write (InMemoryEditor.new (str "old")) (str "const a = 1;
const b = 2;") None)
  = str "const a = 1;
const b = 2;".
Proof.
  refine (proj2 (write_code_round_trip (InMemoryEditor.new (str "old"))
                   (str "const a = 1;
const b = 2;") (Position.mk 0 0) None _ _)).
  - repeat constructor.
  - intros Hin. apply list_elem_of_In in Hin. vm_compute in Hin.
    destruct Hin as [Hin|[Hin|[]]]; discriminate.
Defined.

(** X6: [codeOf] of a path gives the code last written there by [writeIn],
    for a code none of whose lines holds a marker or spells the deletion
    sentinel, and [writeIn] leaves the code of every other path, the code of
    the editor itself and its selection as they were. *)
Theorem writeIn_codeOf (this : InMemoryEditor.t) (path : RelativePath)
    (code : Code) :
  Forall holdsNoMarker (JS.split InMemoryEditor.LINE_SEPARATOR code) →
  InMemoryEditor.DELETED_LINE ∉ JS.split InMemoryEditor.LINE_SEPARATOR code →
  InMemoryEditor.codeOf (InMemoryEditor.writeIn this path code) path = code
  ∧ (∀ other, other ≠ path →
       InMemoryEditor.codeOf (InMemoryEditor.writeIn this path code) other
       = InMemoryEditor.codeOf this other)
  ∧ InMemoryEditor.code (InMemoryEditor.writeIn this path code)
    = InMemoryEditor.code this
  ∧ InMemoryEditor.selection (InMemoryEditor.writeIn this path code)
    = InMemoryEditor.selection this.
Proof.
  intros Hm Hd. unfold InMemoryEditor.codeOf, InMemoryEditor.writeIn.
  cbn [InMemoryEditor.otherFiles InMemoryEditor.withOtherFiles].
  split; [|split; [|split; reflexivity]].
  - rewrite lookup_insert_eq.
    unfold InMemoryEditor.code, InMemoryEditor.new, InMemoryEditor.create.
    apply read_setCodeMatrix; assumption.
  - intros other Hne. rewrite lookup_insert_ne by congruence. reflexivity.
Qed.

Lemma writeIn_codeOf_witness :
  InMemoryEditor.codeOf
    (InMemoryEditor.writeIn
       (InMemoryEditor.writeIn (InMemoryEditor.new (str "abc"))
          "other.ts"%string (str "let a"))
       "other.ts"%string (str "let b"))
    "other.ts"%string
  = str "let b".
Proof.
  refine (proj1 (writeIn_codeOf _ "other.ts"%string (str "let b") _ _)).
  - repeat constructor.
  - intros Hin. apply list_elem_of_In in Hin. vm_compute in Hin.
    destruct Hin as [Hin|[]]; discriminate.
Defined.

(** ** The cursor marker of a fixture *)

Section CursorMarker.

Import InMemoryEditor.

Lemma startsWith_prefix pat s :
  JS.startsWith pat s = true → s = pat ++ drop (length pat) s.
Proof.
  revert s. induction pat as [|p pat IH]; intros s H; [reflexivity|].
  destruct s as [|c s]; [discriminate|]. cbn [JS.startsWith] in H.
  destruct (decide (p = c)) as [->|]; [|discriminate].
  simpl. f_equal. apply IH, H.
Qed.

(** Where [indexOf] finds the pattern, [replace] replaces it. *)
Lemma indexOfFrom_found pat by_ s i :
  0 ≤ i → JS.indexOfFrom pat s i ≠ -1 →
  ∃ n : nat,
    JS.indexOfFrom pat s i = i + Z.of_nat n
    ∧ (n ≤ length s)%nat
    ∧ s = take n s ++ pat ++ drop (n + length pat) s
    ∧ JS.replace pat by_ s = take n s ++ by_ ++ drop (n + length pat) s.
Proof.
  revert i. induction s as [|c s IH]; intros i Hi Hfound.
  - cbn [JS.indexOfFrom JS.replace] in *.
    destruct (JS.startsWith pat []) eqn:E; [|contradiction].
    exists 0%nat. split; [lia|]. split; [lia|].
    split; [apply startsWith_prefix, E | reflexivity].
  - cbn [JS.indexOfFrom JS.replace] in *.
    destruct (JS.startsWith pat (c :: s)) eqn:E.
    + exists 0%nat. split; [lia|]. split; [lia|].
      split; [apply startsWith_prefix, E | reflexivity].
    + destruct (IH (i + 1)) as (n & Hn & Hle & Hs & Hr); [lia | exact Hfound|].
      exists (S n). split; [lia|]. split; [simpl; lia|].
      simpl. split; f_equal; assumption.
Qed.

End CursorMarker.

(** X7: in a fixture whose only marker is a cursor marker, the cursor
    marker is decoded to the place it stood at.  When one line holds a cursor
    marker, that line without it and the other lines hold no marker, and no
    resulting line spells the deletion sentinel, the constructed editor has
    the fixture without the marker as its code and a cursor selection on that
    line at the index of the marker, which is where the marker was cut
    out. *)
Theorem cursor_marker_decoding (code : Code) (before : list Code) (line : Code)
    (after : list Code) (position : Position.t) :
  let cursorChar := JS.indexOf InMemoryEditor.CURSOR line in
  let stripped := JS.replace InMemoryEditor.CURSOR [] line in
  JS.split InMemoryEditor.LINE_SEPARATOR code = before ++ line :: after →
  Forall holdsNoMarker before → Forall holdsNoMarker after →
  cursorChar ≠ -1 →
  holdsNoMarker stripped →
  InMemoryEditor.DELETED_LINE ∉ before ++ stripped :: after →
  InMemoryEditor.code (InMemoryEditor.create code position)
  = textOf (before ++ stripped :: after)
  ∧ InMemoryEditor.selection (InMemoryEditor.create code position)
    = Selection.cursorAt (Z.of_nat (length before)) cursorChar
  ∧ 0 ≤ cursorChar
  ∧ line
    = take (Z.to_nat cursorChar) stripped ++ InMemoryEditor.CURSOR
      ++ drop (Z.to_nat cursorChar) stripped.
Proof.
  intros cursorChar stripped Hsplit Hbefore Hafter Hfound Hstripped Hsentinel.
  destruct (indexOfFrom_found InMemoryEditor.CURSOR [] line 0)
    as (n & Hn & Hle & Hline & Hreplace); [lia | exact Hfound|].
  fold (JS.indexOf InMemoryEditor.CURSOR line) in Hn. fold cursorChar in Hn.
  fold stripped in Hreplace. cbn [app] in Hreplace.
  assert (InMemoryEditor.stripMarkers line = stripped) as Hstrip.
  { destruct Hstripped as (_ & Hs & He). unfold InMemoryEditor.stripMarkers.
    fold stripped. rewrite (indexOf_absent_replace _ _ _ Hs).
    apply indexOf_absent_replace, He. }
  split; [|split; [|split]].
  - unfold InMemoryEditor.code, InMemoryEditor.create.
    cbn [InMemoryEditor.codeMatrix].
    rewrite setCodeMatrix_matrixOf, Hsplit, map_app. cbn [map].
    rewrite !map_stripMarkers, Hstrip by assumption.
    apply read_matrixOf, Hsentinel.
  - unfold InMemoryEditor.selection, InMemoryEditor.create.
    cbn [InMemoryEditor._selection].
    unfold InMemoryEditor.setSelectionFromCursor.
    rewrite Hsplit, fold_left_app.
    rewrite scan_holdsNoMarker_pair by exact Hbefore.
    cbn [fold_left]. rewrite Z.add_0_l.
    assert (InMemoryEditor.scanLine
              (Selection.cursorAtPosition position, Z.of_nat (length before))
              line
            = (Selection.cursorAt (Z.of_nat (length before)) cursorChar,
               Z.of_nat (length before) + 1)) as ->.
    { destruct Hstripped as (_ & Hs & He). unfold InMemoryEditor.scanLine.
      fold cursorChar stripped.
      destruct (Z.gtb_spec cursorChar (-1)); [|lia].
      rewrite Hs, (indexOf_absent_replace _ _ _ Hs), He. reflexivity. }
    apply scan_holdsNoMarker, Hafter.
  - lia.
  - rewrite Hn, Z.add_0_l, Nat2Z.id.
    assert (length (take n line) = n) as Hlen by (rewrite length_take; lia).
    rewrite Hreplace, take_app_length', drop_app_length' by (symmetry; exact Hlen).
    exact Hline.
Qed.

Lemma cursor_marker_decoding_witness :
  let editor := InMemoryEditor.create (str "foo(
  [cursor]bar
)") (Position.mk 0 0) in
  InMemoryEditor.code editor = str "foo(
  bar
)"
  ∧ InMemoryEditor.selection editor = Selection.cursorAt 1 2.
Proof.
  intros editor.
  destruct (cursor_marker_decoding (str "foo(
  [cursor]bar
)") [str "foo("] (str "  [cursor]bar") [str ")"] (Position.mk 0 0))
    as (Hcode & Hselection & _).
  - reflexivity.
  - repeat constructor.
  - repeat constructor.
  - vm_compute. discriminate.
  - repeat constructor.
  - intros Hin. apply list_elem_of_In in Hin. vm_compute in Hin.
    destruct Hin as [Hin|[Hin|[Hin|[]]]]; discriminate.
  - split; [exact Hcode | exact Hselection].
Defined.

(** ** The read of [readThenWrite] *)

Section ReadSelection.

Import InMemoryEditor.

Lemma slice_in_range {A} (l : list A) (first last : nat) :
  (first ≤ length l)%nat → (last ≤ length l)%nat →
  JS.slice l (Z.of_nat first) (Z.of_nat last) = take (last - first) (drop first l).
Proof.
  intros Hf Hl. unfold JS.slice.
  rewrite !relativeIndex_in_range by lia.
  rewrite Nat2Z.id. f_equal. lia.
Qed.

Lemma lineAt_missing this i :
  JS.get (codeMatrix this) i = None → lineAt i this = (this, Throw TypeError).
Proof. intros H. unfold lineAt. rewrite H. reflexivity. Qed.

Lemma lineAt_present this i line :
  JS.get (codeMatrix this) i = Some line → lineAt i this = (this, Return line).
Proof. intros H. unfold lineAt. rewrite H. reflexivity. Qed.

(** Reading lines either returns them or throws a [TypeError], and leaves
    the editor as it is. *)
Lemma mapM_lineAt_outcome indices this :
  (∃ rows, mapM indices lineAt this = (this, Return rows))
  ∨ mapM indices lineAt this = (this, Throw TypeError).
Proof.
  induction indices as [|i indices IH]; cbn [mapM].
  - left. exists []. reflexivity.
  - unfold mbind, M_bind, bind.
    destruct (JS.get (codeMatrix this) i) as [line|] eqn:E.
    + rewrite (lineAt_present _ _ _ E).
      destruct IH as [[rows ->]| ->]; [left; eexists; reflexivity | right; reflexivity].
    + rewrite (lineAt_missing _ _ E). right. reflexivity.
Qed.

(** Reading the lines between two lines of the buffer returns them. *)
Lemma mapM_lineAt_rows this before rows after :
  codeMatrix this = before ++ rows ++ after →
  mapM (seqZ (Z.of_nat (length before)) (Z.of_nat (length rows))) lineAt this
  = (this, Return rows).
Proof.
  revert before. induction rows as [|row rows IH]; intros before HM.
  - reflexivity.
  - rewrite seqZ_cons by (simpl; lia). cbn [mapM].
    unfold mbind, M_bind, bind.
    rewrite (lineAt_in_range _ _ row); [|lia|].
    2: { rewrite Nat2Z.id, HM. apply list_lookup_middle. reflexivity. }
    replace (Z.succ (Z.of_nat (length before)))
      with (Z.of_nat (length (before ++ [row])))
      by (rewrite length_app; simpl; lia).
    replace (Z.pred (Z.of_nat (length (row :: rows))))
      with (Z.of_nat (length rows)) by (simpl; lia).
    rewrite IH; [reflexivity|].
    rewrite HM, <- app_assoc. reflexivity.
Qed.

Lemma readSelection_throws this selection :
  Position.line (Selection.start selection)
  ≤ Position.line (Selection.end_ selection) →
  JS.get (codeMatrix this) (Position.line (Selection.start selection)) = None
  ∨ JS.get (codeMatrix this) (Position.line (Selection.end_ selection)) = None →
  readSelection selection this = (this, Throw TypeError).
Proof.
  intros Hle Hmissing. unfold readSelection.
  destruct (Z.eqb_spec (Position.line (Selection.start selection))
              (Position.line (Selection.end_ selection))) as [Heq|Hne].
  - unfold mbind, M_bind, bind. rewrite lineAt_missing; [reflexivity|].
    destruct Hmissing as [Hm|Hm]; [exact Hm | rewrite Heq; exact Hm].
  - destruct (Z.gtb_spec (Position.line (Selection.end_ selection))
                (Position.line (Selection.start selection))); [|lia].
    unfold mbind, M_bind, bind.
    destruct (JS.get (codeMatrix this)
                (Position.line (Selection.start selection))) as [first|] eqn:E.
    + rewrite (lineAt_present _ _ _ E).
      destruct (mapM_lineAt_outcome
                  (seqZ (Position.line (Selection.start selection) + 1)
                     (Position.line (Selection.end_ selection)
                      - Position.line (Selection.start selection) - 1)) this)
        as [[rows ->]| ->]; [|reflexivity].
      rewrite lineAt_missing; [reflexivity|].
      destruct Hmissing as [Hm|Hm]; [discriminate | exact Hm].
    + rewrite (lineAt_missing _ _ E). reflexivity.
Qed.

Lemma get_Some_range {A} (l : list A) i x :
  JS.get l i = Some x → 0 ≤ i < Z.of_nat (length l) ∧ l !! Z.to_nat i = Some x.
Proof.
  unfold JS.get. destruct (Z.ltb_spec i 0) as [Hneg|Hpos]; [discriminate|].
  intros Hx. split; [|exact Hx]. apply lookup_lt_Some in Hx. lia.
Qed.

Lemma readSelection_returns this selection first last :
  JS.get (codeMatrix this) (Position.line (Selection.start selection))
  = Some first →
  JS.get (codeMatrix this) (Position.line (Selection.end_ selection))
  = Some last →
  ∃ rows, readSelection selection this = (this, Return rows).
Proof.
  intros Hf Hl. unfold readSelection.
  destruct (Z.eqb_spec (Position.line (Selection.start selection))
              (Position.line (Selection.end_ selection))) as [Heq|Hne].
  - unfold mbind, M_bind, bind. rewrite (lineAt_present _ _ _ Hf).
    eexists. reflexivity.
  - destruct (Z.gtb_spec (Position.line (Selection.end_ selection))
                (Position.line (Selection.start selection))) as [Hgt|Hle];
      [|eexists; reflexivity].
    unfold mbind, M_bind, bind. rewrite (lineAt_present _ _ _ Hf).
    apply get_Some_range in Hf as [Hfr Hf], Hl as [Hlr Hl].
    set (ls := Z.to_nat (Position.line (Selection.start selection))) in *.
    set (le := Z.to_nat (Position.line (Selection.end_ selection))) in *.
    assert (mapM (seqZ (Position.line (Selection.start selection) + 1)
                    (Position.line (Selection.end_ selection)
                     - Position.line (Selection.start selection) - 1))
              lineAt this
            = (this, Return (take (le - ls - 1) (drop (S ls) (codeMatrix this)))))
      as ->.
    { replace (Position.line (Selection.start selection) + 1)
        with (Z.of_nat (length (take (S ls) (codeMatrix this))))
        by (rewrite length_take; lia).
      replace (Position.line (Selection.end_ selection)
               - Position.line (Selection.start selection) - 1)
        with (Z.of_nat (length (take (le - ls - 1)
                                  (drop (S ls) (codeMatrix this)))))
        by (rewrite length_take, length_drop; lia).
      apply (mapM_lineAt_rows this _ _
               (drop (le - ls - 1) (drop (S ls) (codeMatrix this)))).
      rewrite !take_drop. reflexivity. }
    rewrite (lineAt_in_range _ _ last) by (first [lia | exact Hl]).
    eexists. reflexivity.
Qed.

End ReadSelection.

(** X8: the read of [readThenWrite] throws, and then a [TypeError],
    exactly when the selection does not end on a line above its start and one
    of its two lines is no line of the buffer.  When it throws, no
    Modification is computed or committed: the call throws the [TypeError]
    with the buffer as it was, after the cursor was moved to
    [newCursorPosition] if that was supplied. *)
Theorem readThenWrite_missing_line (this : InMemoryEditor.t)
    (selection : Selection.t) (getModifications : Code → list Modification.t)
    (newCursorPosition : option Position.t) :
  let missing :=
    Position.line (Selection.start selection)
    ≤ Position.line (Selection.end_ selection)
    ∧ (JS.get (InMemoryEditor.codeMatrix this)
         (Position.line (Selection.start selection)) = None
       ∨ JS.get (InMemoryEditor.codeMatrix this)
           (Position.line (Selection.end_ selection)) = None) in
  ((∃ e, (InMemoryEditor.readSelection selection this).2 = Throw e) ↔ missing)
  ∧ (missing →
     InMemoryEditor.readThenWrite selection getModifications newCursorPosition
       this
     = (match newCursorPosition with
        | Some p =>
            InMemoryEditor.withSelection this (Selection.cursorAtPosition p)
        | None => this
        end, Throw TypeError)).
Proof.
  intros missing. split.
  - split.
    + intros [e He].
      destruct (Z.lt_ge_cases (Position.line (Selection.end_ selection))
                  (Position.line (Selection.start selection))) as [Hlt|Hge].
      { rewrite readSelection_reversed in He by exact Hlt. discriminate. }
      split; [lia|].
      destruct (JS.get (InMemoryEditor.codeMatrix this)
                  (Position.line (Selection.start selection)))
        as [first|] eqn:Ef; [|auto].
      destruct (JS.get (InMemoryEditor.codeMatrix this)
                  (Position.line (Selection.end_ selection)))
        as [last|] eqn:El; [|auto].
      destruct (readSelection_returns this selection first last Ef El)
        as [rows Hrows].
      rewrite Hrows in He. discriminate.
    + intros [Hle Hmissing]. exists TypeError.
      rewrite readSelection_throws by assumption. reflexivity.
  - intros [Hle Hmissing]. rewrite readThenWrite_unfold. cbv zeta.
    rewrite readSelection_throws; [reflexivity | exact Hle |].
    destruct newCursorPosition; exact Hmissing.
Qed.

Lemma readThenWrite_missing_line_witness :
  InMemoryEditor.readThenWrite
    (Selection.mk (Position.mk 0 1) (Position.mk 3 0)) (λ _, [])
    (Some (Position.mk 0 2)) (InMemoryEditor.new (str "abc
def"))
  = (InMemoryEditor.withSelection (InMemoryEditor.new (str "abc
def")) (Selection.cursorAt 0 2), Throw TypeError).
Proof.
  refine (proj2 (readThenWrite_missing_line (InMemoryEditor.new (str "abc
def")) (Selection.mk (Position.mk 0 1) (Position.mk 3 0)) (λ _, [])
                   (Some (Position.mk 0 2))) _).
  split; [simpl; lia | right; reflexivity].
Defined.

(** ** The text read over a selection *)

Section TextBetween.

Import InMemoryEditor.

Local Abbreviation nl := InMemoryEditor.LINE_SEPARATOR.

(** Two positions of the buffer, the first at or before the second, are on
    one line or on two lines of it. *)
Lemma two_positions lines p q :
  inBuffer lines p → inBuffer lines q → Position.isBefore p q = true →
  let cp := Z.to_nat (Position.character p) in
  let cq := Z.to_nat (Position.character q) in
  (∃ above line below,
     lines = above ++ line :: below
     ∧ Position.line p = Position.line q
     ∧ length above = Z.to_nat (Position.line p)
     ∧ (cp ≤ cq ≤ length line)%nat)
  ∨ (∃ above lineP mid lineQ below,
       lines = above ++ lineP :: mid ++ lineQ :: below
       ∧ length above = Z.to_nat (Position.line p)
       ∧ length (above ++ lineP :: mid) = Z.to_nat (Position.line q)
       ∧ (cp ≤ length lineP)%nat ∧ (cq ≤ length lineQ)%nat).
Proof.
  intros Hp Hq Hpq cp cq. apply isBefore_le in Hpq.
  destruct (inBuffer_split lines q Hq) as (aboveQ & lineQ & belowQ & Hlines & HlQ & HcQ).
  destruct Hp as (HlP & HcP & lineP & HlineP & HlenP).
  destruct Hq as (HlQ' & HcQ' & _).
  destruct (decide (Position.line p = Position.line q)) as [Heq|Hne].
  - left. exists aboveQ, lineQ, belowQ.
    assert (lineP = lineQ) as ->.
    { rewrite Hlines, Heq, <- HlQ, list_lookup_middle in HlineP by reflexivity.
      congruence. }
    repeat split; try assumption; unfold cp, cq; lia.
  - right.
    assert (Z.to_nat (Position.line p) < length aboveQ)%nat as Hlt by lia.
    assert (aboveQ !! Z.to_nat (Position.line p) = Some lineP) as Hab.
    { rewrite Hlines, lookup_app_l in HlineP by exact Hlt. exact HlineP. }
    apply take_drop_middle in Hab.
    exists (take (Z.to_nat (Position.line p)) aboveQ), lineP,
      (drop (S (Z.to_nat (Position.line p))) aboveQ), lineQ, belowQ.
    repeat split.
    + rewrite Hlines, <- Hab at 1. rewrite <- app_assoc. reflexivity.
    + apply length_take_le. lia.
    + rewrite Hab. exact HlQ.
    + unfold cp. lia.
    + exact HcQ.
Qed.

Lemma read_one_row row :
  DELETED_LINE ∉ JS.split nl (concat row) → read [row] = concat row.
Proof.
  intros H.
  rewrite (read_liveTexts [row] [concat row]); [reflexivity | repeat constructor|].
  intros Hin. apply H.
  apply (elem_of_split_join _ [concat row]);
    [exact Hin | exact DELETED_LINE_one_line].
Qed.

End TextBetween.

(** The text the read of [readThenWrite] passes on. *)
Lemma readSelection_between (lines : list Code)
    (this : InMemoryEditor.t) (selection : Selection.t) :
  let start := Selection.start selection in
  let end_ := Selection.end_ selection in
  let between :=
    take (offsetOf lines end_ - offsetOf lines start)
      (drop (offsetOf lines start) (textOf lines)) in
  InMemoryEditor.codeMatrix this = matrixOf lines →
  inBuffer lines start → inBuffer lines end_ →
  Position.isBefore start end_ = true →
  ∃ readCodeMatrix,
    InMemoryEditor.readSelection selection this = (this, Return readCodeMatrix)
    ∧ (InMemoryEditor.DELETED_LINE
       ∉ JS.split InMemoryEditor.LINE_SEPARATOR between →
       InMemoryEditor.read readCodeMatrix = between).
Proof.
  intros start end_ between HM Hs He Hse.
  pose proof Hs as (HlS & HcS & _). pose proof He as (HlE & HcE & _).
  destruct (two_positions lines start end_ Hs He Hse)
    as [(above & line & below & Hlines & Heq & Hab & Hc)
       |(above & lineS & mid & lineE & below & Hlines & HabS & HabE & HcS' & HcE')];
    set (cs := Z.to_nat (Position.character start)) in *;
    set (ce := Z.to_nat (Position.character end_)) in *.
  - (* one line *)
    assert (between = take (ce - cs) (drop cs line)) as Hbetween.
    { unfold between. symmetry. apply take_app_slice.
      destruct (text_before lines above line below end_ Hlines) as [-> _];
        [lia | fold ce; lia |].
      destruct (text_before lines above line below start Hlines Hab) as [-> _];
        [fold cs; lia|].
      fold cs ce. rewrite <- app_assoc. f_equal.
      rewrite take_drop_commute.
      replace (cs + (ce - cs))%nat with ce by lia.
      rewrite <- (take_drop cs (take ce line)) at 1.
      rewrite take_take, Nat.min_l by lia. reflexivity. }
    exists [JS.chars (take (ce - cs) (drop cs line))]. split.
    + unfold InMemoryEditor.readSelection. fold start end_.
      rewrite Heq, Z.eqb_refl. rewrite <- Heq.
      unfold mbind, InMemoryEditor.M_bind, InMemoryEditor.bind.
      rewrite (lineAt_in_range _ _ (JS.chars line)); [|lia|].
      2: { rewrite HM, Hlines. unfold matrixOf. rewrite map_app. cbn [map].
           apply list_lookup_middle. rewrite length_map. symmetry. exact Hab. }
      replace (JS.slice (JS.chars line) (Position.character start)
                 (Position.character end_))
        with (JS.chars (take (ce - cs) (drop cs line))); [reflexivity|].
      rewrite <- (Z2Nat.id (Position.character start)) by lia.
      rewrite <- (Z2Nat.id (Position.character end_)) by lia.
      fold cs ce.
      rewrite slice_in_range by (rewrite length_chars; lia).
      rewrite drop_chars, take_chars. reflexivity.
    + intros Hsentinel. rewrite Hbetween in *.
      rewrite read_one_row; rewrite concat_chars; [reflexivity | exact Hsentinel].
  - (* two lines *)
    assert (Position.line start < Position.line end_) as Hlt.
    { rewrite length_app in HabE. simpl in HabE. lia. }
    set (texts := drop cs lineS :: mid ++ [take ce lineE]).
    assert (between = JS.join [InMemoryEditor.LINE_SEPARATOR] texts) as Hbetween.
    { unfold between. symmetry. apply take_app_slice.
      destruct (text_before lines (above ++ lineS :: mid) lineE below end_)
        as [-> _]; [rewrite Hlines, <- app_assoc; reflexivity | exact HabE
                   | fold ce; lia |].
      destruct (text_before lines above lineS (mid ++ lineE :: below) start
                  Hlines HabS) as [-> _]; [fold cs; lia|].
      fold cs ce. unfold texts. rewrite join_cons, following_app.
      rewrite preceding_app.
      change (preceding (lineS :: mid))
        with ((lineS ++ [InMemoryEditor.LINE_SEPARATOR]) ++ preceding mid).
      change (following [take ce lineE])
        with ((InMemoryEditor.LINE_SEPARATOR :: take ce lineE) ++ []).
      rewrite app_nil_r, <- !app_assoc. f_equal.
      rewrite (app_assoc (take cs lineS)), take_drop. f_equal.
      change ([InMemoryEditor.LINE_SEPARATOR] ++ preceding mid ++ take ce lineE)
        with ((InMemoryEditor.LINE_SEPARATOR :: preceding mid) ++ take ce lineE).
      rewrite separator_preceding, <- app_assoc. reflexivity. }
    assert (InMemoryEditor.codeMatrix this
            = (matrixOf above ++ [JS.chars lineS]) ++ matrixOf mid
              ++ JS.chars lineE :: matrixOf below) as HM'.
    { rewrite HM, Hlines. unfold matrixOf.
      rewrite !map_app. cbn [map]. rewrite map_app. cbn [map].
      rewrite <- !app_assoc. reflexivity. }
    exists ([JS.chars (drop cs lineS)] ++ matrixOf mid
            ++ [JS.chars (take ce lineE)]).
    split.
    + unfold InMemoryEditor.readSelection. fold start end_.
      destruct (Z.eqb_spec (Position.line start) (Position.line end_)); [lia|].
      destruct (Z.gtb_spec (Position.line end_) (Position.line start)); [|lia].
      unfold mbind, InMemoryEditor.M_bind, InMemoryEditor.bind.
      rewrite (lineAt_in_range _ _ (JS.chars lineS)); [|lia|].
      2: { rewrite HM', <- app_assoc. apply list_lookup_middle.
           unfold matrixOf. rewrite length_map. symmetry. exact HabS. }
      replace (Position.line start + 1)
        with (Z.of_nat (length (matrixOf above ++ [JS.chars lineS]))).
      2: { rewrite length_app. unfold matrixOf. rewrite length_map. simpl. lia. }
      replace (Position.line end_ - Position.line start - 1)
        with (Z.of_nat (length (matrixOf mid))).
      2: { unfold matrixOf. rewrite length_map.
           rewrite length_app in HabE. simpl in HabE. lia. }
      rewrite (mapM_lineAt_rows this _ _ _ HM').
      rewrite (lineAt_in_range _ _ (JS.chars lineE)); [|lia|].
      2: { rewrite HM', app_assoc. apply list_lookup_middle.
           rewrite !length_app. unfold matrixOf. rewrite !length_map.
           rewrite length_app in HabE. simpl in *. lia. }
      replace (JS.sliceFrom (JS.chars lineS) (Position.character start))
        with (JS.chars (drop cs lineS)).
      2: { rewrite <- (Z2Nat.id (Position.character start)) by lia. fold cs.
           rewrite sliceFrom_in_range by (rewrite length_chars; lia).
           rewrite drop_chars. reflexivity. }
      replace (JS.slice (JS.chars lineE) 0 (Position.character end_))
        with (JS.chars (take ce lineE)).
      2: { rewrite <- (Z2Nat.id (Position.character end_)) by lia. fold ce.
           rewrite (slice_in_range _ 0 ce) by (rewrite length_chars; lia).
           rewrite Nat.sub_0_r, drop_0, take_chars. reflexivity. }
      reflexivity.
    + intros Hsentinel. rewrite Hbetween in *.
      apply read_liveTexts.
      * apply (liveTexts_app [JS.chars (drop cs lineS)] [drop cs lineS]
                 (matrixOf mid ++ [JS.chars (take ce lineE)])
                 (mid ++ [take ce lineE])).
        -- apply (liveTexts_matrixOf [drop cs lineS]).
        -- apply liveTexts_app; [apply liveTexts_matrixOf|].
           apply (liveTexts_matrixOf [take ce lineE]).
      * intros Hin. apply Hsentinel, elem_of_split_join;
          [exact Hin | exact DELETED_LINE_one_line].
Qed.

(** X9: on a buffer of one code unit per cell, the read of [readThenWrite]
    over a selection that starts and ends in the buffer, and does not end
    before it starts, returns, and the text it passes to [getModifications]
    is the text of the buffer between the offsets of the two ends, when no
    line of that text spells the deletion sentinel. *)
Theorem readSelection_text_between (lines : list Code)
    (this : InMemoryEditor.t) (selection : Selection.t) :
  let start := Selection.start selection in
  let end_ := Selection.end_ selection in
  let between :=
    take (offsetOf lines end_ - offsetOf lines start)
      (drop (offsetOf lines start) (textOf lines)) in
  InMemoryEditor.codeMatrix this = matrixOf lines →
  inBuffer lines start → inBuffer lines end_ →
  Position.isBefore start end_ = true →
  ∃ readCodeMatrix,
    InMemoryEditor.readSelection selection this = (this, Return readCodeMatrix)
    ∧ (InMemoryEditor.DELETED_LINE
       ∉ JS.split InMemoryEditor.LINE_SEPARATOR between →
       InMemoryEditor.read readCodeMatrix = between).
Proof. exact (readSelection_between lines this selection). Qed.

Lemma readSelection_text_between_witness :
  let editor := InMemoryEditor.new (str "abc
def
ghi") in
  ∃ readCodeMatrix,
    InMemoryEditor.readSelection
      (Selection.mk (Position.mk 0 2) (Position.mk 2 1)) editor
    = (editor, Return readCodeMatrix)
    ∧ InMemoryEditor.read readCodeMatrix = str "c
def
g".
Proof.
  intros editor.
  destruct (readSelection_text_between [str "abc"; str "def"; str "ghi"] editor
              (Selection.mk (Position.mk 0 2) (Position.mk 2 1)))
    as (rows & Hread & Htext).
  - reflexivity.
  - repeat split; simpl; try lia. eexists. split; [reflexivity | simpl; lia].
  - repeat split; simpl; try lia. eexists. split; [reflexivity | simpl; lia].
  - reflexivity.
  - exists rows. split; [exact Hread|]. apply Htext.
    intros Hin. apply list_elem_of_In in Hin. vm_compute in Hin.
    destruct Hin as [Hin|[Hin|[Hin|[]]]]; discriminate.
Defined.

(** ** A commit that throws *)

Section CommitThrows.

Import InMemoryEditor.

Lemma applyModification_missing_start this m :
  Position.line (Selection.start (Modification.selection m))
  ≤ Position.line (Selection.end_ (Modification.selection m)) →
  JS.get (codeMatrix this)
    (Position.line (Selection.start (Modification.selection m))) = None →
  applyModification m this = (this, Throw TypeError).
Proof.
  intros Hle Hmissing. unfold applyModification.
  set (ls := Position.line (Selection.start (Modification.selection m))) in *.
  set (le := Position.line (Selection.end_ (Modification.selection m))) in *.
  destruct (Z.eqb_spec ls le) as [Heq|Hne].
  - unfold mbind, M_bind, bind. rewrite (lineAt_missing _ _ Hmissing).
    reflexivity.
  - destruct (Z.gtb_spec le ls) as [Hgt|Hngt]; [|lia].
    unfold mbind, M_bind, bind. rewrite (lineAt_missing _ _ Hmissing).
    reflexivity.
Qed.

End CommitThrows.

(** X10: the commit is not atomic.  It stops at the first Modification, in
    the order of the sort, whose start line is no line of the buffer (and
    whose end line is not above it): the call throws a [TypeError], the
    Modifications before that one stay committed and those after it are not
    committed. *)
Theorem commit_stops_at_missing_line (this committed : InMemoryEditor.t)
    (before : list Modification.t) (m : Modification.t)
    (after : list Modification.t) :
  InMemoryEditor.forEach before InMemoryEditor.applyModification this
  = (committed, Return tt) →
  Position.line (Selection.start (Modification.selection m))
  ≤ Position.line (Selection.end_ (Modification.selection m)) →
  JS.get (InMemoryEditor.codeMatrix committed)
    (Position.line (Selection.start (Modification.selection m))) = None →
  InMemoryEditor.forEach (before ++ m :: after) InMemoryEditor.applyModification
    this
  = (committed, Throw TypeError).
Proof.
  intros Hbefore Hle Hmissing. rewrite forEach_app, Hbefore.
  cbn [InMemoryEditor.forEach].
  unfold mbind, InMemoryEditor.M_bind, InMemoryEditor.bind.
  rewrite applyModification_missing_start by assumption. reflexivity.
Qed.

Lemma commit_stops_at_missing_line_witness :
  let replaceC :=
    Modification.mk (str "X")
      (Selection.mk (Position.mk 0 2) (Position.mk 0 3)) in
  let beyond := Modification.mk (str "Y") (Selection.cursorAt 5 0) in
  let replaceA :=
    Modification.mk (str "Z")
      (Selection.mk (Position.mk 0 0) (Position.mk 0 1)) in
  let editor := InMemoryEditor.new (str "abc") in
  InMemoryEditor.forEach [replaceC; beyond; replaceA]
    InMemoryEditor.applyModification editor
  = (InMemoryEditor.withCodeMatrix editor [[str "a"; str "b"; str "X"]],
     Throw TypeError).
Proof.
  intros replaceC beyond replaceA editor.
  apply (commit_stops_at_missing_line editor _ [replaceC] beyond [replaceA]).
  - reflexivity.
  - simpl. lia.
  - reflexivity.
Defined.

(** X11: a Modification over several lines whose start line is a line of
    the buffer and whose end line is not throws a [TypeError] after it has
    replaced the start line from the start character on by its code: that
    line stays cut. *)
Theorem multi_line_missing_end_cuts_start_line (this : InMemoryEditor.t)
    (m : Modification.t) (first : list Code) :
  let start := Selection.start (Modification.selection m) in
  let end_ := Selection.end_ (Modification.selection m) in
  Position.line start < Position.line end_ →
  JS.get (InMemoryEditor.codeMatrix this) (Position.line start) = Some first →
  JS.get (InMemoryEditor.codeMatrix this) (Position.line end_) = None →
  InMemoryEditor.applyModification m this
  = (InMemoryEditor.withCodeMatrix this
       (<[Z.to_nat (Position.line start) :=
            JS.splice first (Position.character start)
              (Z.of_nat (length first) - Position.character start)
              (Modification.code m)]>
          (InMemoryEditor.codeMatrix this)),
     Throw TypeError).
Proof.
  intros start end_ Hlt Hfirst Hmissing.
  unfold InMemoryEditor.applyModification. fold start end_.
  destruct (Z.eqb_spec (Position.line start) (Position.line end_)); [lia|].
  destruct (Z.gtb_spec (Position.line end_) (Position.line start)); [|lia].
  unfold mbind, InMemoryEditor.M_bind, InMemoryEditor.bind.
  rewrite (lineAt_present _ _ _ Hfirst).
  apply get_Some_range in Hfirst as [Hrange Hfirst].
  cbn [InMemoryEditor.setLine].
  rewrite (lineAt_in_range _ _
             (JS.splice first (Position.character start)
                (Z.of_nat (length first) - Position.character start)
                (Modification.code m))); [|lia|].
  2: { cbn [InMemoryEditor.withCodeMatrix InMemoryEditor.codeMatrix].
       apply list_lookup_insert_eq. lia. }
  rewrite lineAt_missing; [reflexivity|].
  cbn [InMemoryEditor.withCodeMatrix InMemoryEditor.codeMatrix].
  unfold JS.get in *.
  destruct (Z.ltb_spec (Position.line end_) 0); [reflexivity|].
  rewrite list_lookup_insert_ne by lia. exact Hmissing.
Qed.

Lemma multi_line_missing_end_cuts_start_line_witness :
  let m :=
    Modification.mk (str "X")
      (Selection.mk (Position.mk 0 1) (Position.mk 4 0)) in
  let editor := InMemoryEditor.new (str "abc
def") in
  InMemoryEditor.applyModification m editor
  = (InMemoryEditor.withCodeMatrix editor
       [[str "a"; str "X"]; [str "d"; str "e"; str "f"]],
     Throw TypeError).
Proof.
  intros m editor.
  apply (multi_line_missing_end_cuts_start_line editor m
           [str "a"; str "b"; str "c"]).
  - simpl. lia.
  - reflexivity.
  - reflexivity.
Defined.

(** ** Writing back what was read *)

Section WriteBack.

Import InMemoryEditor.

Lemma offsetOf_le_length lines p :
  inBuffer lines p → (offsetOf lines p ≤ length (textOf lines))%nat.
Proof.
  intros Hp.
  destruct (inBuffer_split lines p Hp) as (above & line & below & Hlines & Hab & Hc).
  destruct (text_before lines above line below p Hlines Hab Hc) as [Ht _].
  apply (f_equal length) in Ht.
  rewrite length_take, length_app, length_preceding, length_take in Ht.
  assert (offsetOf lines p
          = (sum_list (map (λ t, S (length t)) above)
             + Z.to_nat (Position.character p))%nat) as Hoff.
  { unfold offsetOf. rewrite Hlines, <- Hab, take_app_length. reflexivity. }
  lia.
Qed.

Lemma offsetOf_mono lines p q :
  inBuffer lines p → inBuffer lines q → Position.isBefore p q = true →
  (offsetOf lines p ≤ offsetOf lines q)%nat.
Proof.
  intros Hp Hq Hpq.
  destruct (atFrontier_move lines (matrixOf lines) q _ p
              (atFrontier_initial lines q Hq) Hp Hpq) as (between & _ & Ht).
  apply (f_equal length) in Ht.
  rewrite length_app, !length_take in Ht.
  pose proof (offsetOf_le_length lines p Hp).
  pose proof (offsetOf_le_length lines q Hq). lia.
Qed.

End WriteBack.

(** X12: reading a selection and writing back what was read changes
    nothing.  On a buffer of one code unit per cell none of whose lines
    spells the deletion sentinel, [readThenWrite] over a selection of the
    buffer, with a [getModifications] that answers the code read by the one
    Modification replacing that selection with that code, returns and leaves
    the serialized text as it was, when no line of the text read spells the
    sentinel either. *)
Theorem read_then_write_back (lines : list Code) (this : InMemoryEditor.t)
    (selection : Selection.t) (newCursorPosition : option Position.t) :
  let start := Selection.start selection in
  let end_ := Selection.end_ selection in
  InMemoryEditor.codeMatrix this = matrixOf lines →
  inBuffer lines start → inBuffer lines end_ →
  Position.isBefore start end_ = true →
  InMemoryEditor.DELETED_LINE
  ∉ JS.split InMemoryEditor.LINE_SEPARATOR (textOf lines) →
  InMemoryEditor.DELETED_LINE
  ∉ JS.split InMemoryEditor.LINE_SEPARATOR
      (take (offsetOf lines end_ - offsetOf lines start)
         (drop (offsetOf lines start) (textOf lines))) →
  ∃ editor',
    InMemoryEditor.readThenWrite selection
      (λ code, [Modification.mk code selection]) newCursorPosition this
    = (editor', Return tt)
    ∧ InMemoryEditor.code editor' = textOf lines
    ∧ InMemoryEditor.code editor' = InMemoryEditor.code this.
Proof.
  intros start end_ HM Hs He Hse Htext Hbetween.
  set (between := take (offsetOf lines end_ - offsetOf lines start)
                    (drop (offsetOf lines start) (textOf lines))) in *.
  rewrite readThenWrite_unfold. cbv zeta.
  set (this0 := match newCursorPosition with
                | Some p =>
                    InMemoryEditor.withSelection this
                      (Selection.cursorAtPosition p)
                | None => this
                end).
  assert (InMemoryEditor.codeMatrix this0 = matrixOf lines) as HM0.
  { unfold this0. destruct newCursorPosition; exact HM. }
  destruct (readSelection_between lines this0 selection HM0 Hs He Hse)
    as (rows & -> & Hread).
  rewrite (Hread Hbetween).
  pose proof (atFrontier_initial lines end_ He) as Hinit.
  rewrite <- HM0 in Hinit.
  destruct (atFrontier_apply lines this0 _ (Modification.mk between selection)
              Hinit Hs Hse) as (matrix' & Happly & Hfrontier).
  cbn [Modification.code Modification.selection] in Hfrontier.
  fold start in Hfrontier.
  assert (take (offsetOf lines start) (textOf lines)
          ++ between ++ drop (offsetOf lines end_) (textOf lines)
          = textOf lines) as Hsame.
  { unfold between. rewrite app_assoc, take_take_drop.
    pose proof (offsetOf_mono lines start end_ Hs He Hse).
    replace (offsetOf lines start + (offsetOf lines end_ - offsetOf lines start))%nat
      with (offsetOf lines end_) by lia.
    apply take_drop. }
  exists (InMemoryEditor.withCodeMatrix this0 matrix').
  assert (InMemoryEditor.code (InMemoryEditor.withCodeMatrix this0 matrix')
          = textOf lines) as Hcode.
  { unfold InMemoryEditor.code.
    cbn [InMemoryEditor.codeMatrix InMemoryEditor.withCodeMatrix].
    rewrite (read_atFrontier lines matrix' start _ Hfrontier);
      rewrite Hsame; [reflexivity | exact Htext]. }
  split; [|split; [exact Hcode|]].
  - change (InMemoryEditor.forEach [Modification.mk between selection]
              InMemoryEditor.applyModification this0
            = (InMemoryEditor.withCodeMatrix this0 matrix', Return tt)).
    cbn [InMemoryEditor.forEach].
    unfold mbind, InMemoryEditor.M_bind, InMemoryEditor.bind.
    rewrite Happly. reflexivity.
  - rewrite Hcode. unfold InMemoryEditor.code. rewrite HM.
    symmetry. apply read_matrixOf.
    intros Hin. apply Htext, elem_of_split_join;
      [exact Hin | exact DELETED_LINE_one_line].
Qed.

Lemma read_then_write_back_witness :
  let selection := Selection.mk (Position.mk 0 2) (Position.mk 2 1) in
  ∃ editor',
    InMemoryEditor.readThenWrite selection
      (λ code, [Modification.mk code selection]) None
      (InMemoryEditor.new (str "abc
def
ghi"))
    = (editor', Return tt)
    ∧ InMemoryEditor.code editor' = str "abc
def
ghi".
Proof.
  intros selection.
  destruct (read_then_write_back [str "abc"; str "def"; str "ghi"]
              (InMemoryEditor.new (str "abc
def
ghi")) selection None) as (editor' & Hrun & Hcode & _).
  - reflexivity.
  - repeat split; simpl; try lia. eexists. split; [reflexivity | simpl; lia].
  - repeat split; simpl; try lia. eexists. split; [reflexivity | simpl; lia].
  - reflexivity.
  - intros Hin. apply list_elem_of_In in Hin. vm_compute in Hin.
    destruct Hin as [Hin|[Hin|[Hin|[]]]]; discriminate.
  - intros Hin. apply list_elem_of_In in Hin. vm_compute in Hin.
    destruct Hin as [Hin|[Hin|[Hin|[]]]]; discriminate.
  - exists editor'. split; [exact Hrun | exact Hcode].
Defined.

(** ** The messages a discovery writes *)

Section DiscoveryMessages.

Import RefactoringActionProvider.

Context {AST NodePath : Type}.
Variable parse : Code → Outcome AST.
Variable traverseAST : AST → list NodePath.
Variable nodeType : NodePath → string.
Variable isType : string → string → bool.
Variable host : Host.
Variable refactorings : list (Refactoring NodePath).
Variable editor : Editor.

Lemma onMatches_messages index (refactoring : Refactoring NodePath)
    (run : Run NodePath) (found : Discovery NodePath) i :
  messages (onMatches index refactoring run found).1 !! i =
  if decide (i = index) then
    match updateMessage (actionProvider refactoring), last (matches run) with
    | Some update, Some visitedPath => Some (update visitedPath)
    | _, _ => messages found !! i
    end
  else messages found !! i.
Proof.
  revert found. induction run as [|visitedPath next IH|]; intros found.
  - simpl. destruct (decide (i = index));
      [destruct (updateMessage (actionProvider refactoring))|]; reflexivity.
  - cbn [onMatches matches]. rewrite IH. cbn [messages].
    rewrite last_cons.
    destruct (decide (i = index)) as [->|Hne].
    + destruct (updateMessage (actionProvider refactoring)) as [update|];
        [|reflexivity].
      destruct (last (matches next)); [reflexivity|].
      apply lookup_insert_eq.
    + destruct (updateMessage (actionProvider refactoring)) as [update|];
        [|reflexivity].
      apply lookup_insert_ne. congruence.
  - simpl. destruct (decide (i = index));
      [destruct (updateMessage (actionProvider refactoring))|]; reflexivity.
Qed.

Lemma forEach_candidates_messages path
    (candidates : list (nat * Refactoring NodePath))
    (found : Discovery NodePath) :
  (∀ r, r ∈ candidates → returns (visitOf nodeType isType editor r path)) →
  NoDup (map fst candidates) →
  ∃ found',
    forEach candidates
      (λ r, onMatches r.1 r.2
              (visit nodeType isType
                 (createVisitor (actionProvider r.2) (selection editor)
                    (code editor)) path))
      found
    = (found', Return tt)
    ∧ (∀ c, c ∈ candidates →
         messages found' !! c.1 =
         match updateMessage (actionProvider c.2),
               last (matches (visitOf nodeType isType editor c path)) with
         | Some update, Some visitedPath => Some (update visitedPath)
         | _, _ => messages found !! c.1
         end)
    ∧ (∀ i, i ∉ map fst candidates → messages found' !! i = messages found !! i).
Proof.
  revert found. induction candidates as [|[j r] candidates IH];
    intros found Hreturn Hplaces.
  - exists found. split; [reflexivity|]. split; [|reflexivity].
    intros c Hc. inversion Hc.
  - cbn [forEach]. cbn [map fst] in Hplaces.
    apply NoDup_cons in Hplaces as [Hj Hplaces].
    destruct (onMatches_returns j r
                (visitOf nodeType isType editor (j, r) path) found)
      as [written Hw]; [apply Hreturn; left|].
    pose proof (λ i, onMatches_messages j r
                  (visitOf nodeType isType editor (j, r) path) found i) as Hm.
    rewrite Hw in Hm. cbn [fst messages] in Hm.
    unfold visitOf in Hw at 1. cbn [fst snd] in *. rewrite Hw.
    destruct (IH (mkDiscovery
                    (recorded
                       (map (λ _, (j, r))
                          (matches (visitOf nodeType isType editor (j, r) path)))
                       (applicableRefactorings found)) written))
      as (found' & Hrun & Hin & Hout);
      [intros r' Hr'; apply Hreturn; right; exact Hr' | exact Hplaces |].
    exists found'. split; [exact Hrun|]. cbn [messages] in Hin, Hout. split.
    + intros c Hc. apply elem_of_cons in Hc as [->|Hc].
      * cbn [fst snd]. rewrite (Hout j Hj), Hm, decide_True by reflexivity.
        reflexivity.
      * rewrite (Hin c Hc), Hm.
        rewrite decide_False; [reflexivity|].
        intros Heq. apply Hj. rewrite <- Heq.
        apply list_elem_of_In, in_map, list_elem_of_In, Hc.
    + intros i Hi. cbn [map fst] in Hi. apply not_elem_of_cons in Hi as [Hne Hi].
      rewrite (Hout i Hi), Hm, decide_False by exact Hne. reflexivity.
Qed.

Lemma candidates_places : NoDup (map fst (refactoringsToCheck host refactorings)).
Proof.
  unfold refactoringsToCheck.
  assert (NoDup (map fst (imap (λ i r, (i, r)) refactorings))) as Hall.
  { apply NoDup_alt. intros i j x Hi Hj.
    change (map ?f ?l) with (f <$> l) in Hi, Hj.
    rewrite list_lookup_fmap, list_lookup_imap in Hi, Hj.
    destruct (refactorings !! i); [|discriminate].
    destruct (refactorings !! j); [|discriminate].
    simpl in *. congruence. }
  revert Hall. generalize (imap (λ i r, (i, r)) refactorings).
  intros l. induction l as [|x l IH]; intros Hnd; [constructor|].
  cbn [map] in Hnd. apply NoDup_cons in Hnd as [Hx Hnd].
  cbn [List.filter].
  destruct (shouldShowInQuickFix host (key (command x.2))); [|exact (IH Hnd)].
  cbn [map]. apply NoDup_cons. split; [|exact (IH Hnd)].
  intros Hin. apply Hx.
  apply list_elem_of_In, in_map_iff in Hin as (y & Hy & Hin).
  apply filter_In in Hin as [Hin _].
  rewrite <- Hy. apply list_elem_of_In, in_map, Hin.
Qed.

Lemma forEach_paths_messages (paths : list NodePath)
    (found : Discovery NodePath) :
  allReturn nodeType isType host refactorings editor paths →
  ∃ found',
    forEach paths (enterPath nodeType isType host refactorings editor) found
    = (found', Return tt)
    ∧ (∀ c, c ∈ refactoringsToCheck host refactorings →
         messages found' !! c.1 =
         match updateMessage (actionProvider c.2),
               last (matchedBy nodeType isType editor c paths) with
         | Some update, Some visitedPath => Some (update visitedPath)
         | _, _ => messages found !! c.1
         end)
    ∧ (∀ i, i ∉ map fst (refactoringsToCheck host refactorings) →
         messages found' !! i = messages found !! i).
Proof.
  revert found. induction paths as [|path paths IH]; intros found Hreturn.
  - exists found. split; [reflexivity|]. split; [|reflexivity].
    intros c _. cbn. destruct (updateMessage _); reflexivity.
  - cbn [forEach].
    destruct (forEach_candidates_messages path
                (refactoringsToCheck host refactorings) found)
      as (found1 & Hrun1 & Hin1 & Hout1);
      [intros r Hr; apply Hreturn; [left | exact Hr] | exact candidates_places |].
    unfold enterPath at 1. rewrite Hrun1.
    destruct (IH found1) as (found' & Hrun & Hin & Hout);
      [intros path' r Hp Hr; apply Hreturn; [right; exact Hp | exact Hr]|].
    exists found'. split; [exact Hrun|]. split.
    + intros c Hc. rewrite (Hin c Hc), (Hin1 c Hc).
      unfold matchedBy. cbn [flat_map]. rewrite last_app.
      destruct (updateMessage (actionProvider c.2)); [|reflexivity].
      destruct (last (flat_map _ paths)); reflexivity.
    + intros i Hi. rewrite (Hout i Hi). apply Hout1, Hi.
Qed.

End DiscoveryMessages.

(** X13: the message of an action is the one of the last match.  When the
    code parses and every visit of the traversal returns, discovery leaves
    every candidate whose action provider has an [updateMessage] and whose
    [onMatch] was called with the message [updateMessage] gives for the path
    of the last call, whereas its place in the result is the one of its
    first call; a candidate without [updateMessage], or never matched,
    keeps its message, and so does every refactoring that is no candidate.
    Each refactoring is taken to have an action provider of its own. *)
Theorem message_of_last_match {AST NodePath : Type}
    (parse : Code → Outcome AST) (traverseAST : AST → list NodePath)
    (nodeType : NodePath → string) (isType : string → string → bool)
    (host : RefactoringActionProvider.Host)
    (refactorings : list (RefactoringActionProvider.Refactoring NodePath))
    (editor : RefactoringActionProvider.Editor) (written : gmap nat Code)
    (ast : AST) :
  parse (RefactoringActionProvider.code editor) = Return ast →
  allReturn nodeType isType host refactorings editor (traverseAST ast) →
  ∃ written' found,
    RefactoringActionProvider.findApplicableRefactorings parse traverseAST
      nodeType isType host refactorings editor written
    = (written', Return found)
    ∧ (∀ c,
         c ∈ RefactoringActionProvider.refactoringsToCheck host refactorings →
         RefactoringActionProvider.currentMessage written' c
         = lastWritten c (matchedBy nodeType isType editor c (traverseAST ast))
             (RefactoringActionProvider.currentMessage written c))
    ∧ (∀ i r,
         refactorings !! i = Some r →
         RefactoringActionProvider.shouldShowInQuickFix host
           (RefactoringActionProvider.key
              (RefactoringActionProvider.command r)) = false →
         RefactoringActionProvider.currentMessage written' (i, r)
         = RefactoringActionProvider.currentMessage written (i, r)).
Proof.
  intros Hparse Hreturn.
  unfold RefactoringActionProvider.findApplicableRefactorings. rewrite Hparse.
  destruct (forEach_paths_messages nodeType isType host refactorings editor
              (traverseAST ast)
              (RefactoringActionProvider.mkDiscovery [] written) Hreturn)
    as (found' & Hrun & Hin & Hout).
  rewrite Hrun. eexists _, _. split; [reflexivity|].
  cbn [RefactoringActionProvider.messages] in Hin, Hout. split.
  - intros c Hc. unfold RefactoringActionProvider.currentMessage, lastWritten.
    rewrite (Hin c Hc).
    destruct (RefactoringActionProvider.updateMessage _); [|reflexivity].
    destruct (last _); reflexivity.
  - intros i r Hr Hhidden.
    unfold RefactoringActionProvider.currentMessage. cbn [fst snd].
    rewrite Hout; [reflexivity|].
    intros Hi. apply list_elem_of_In, in_map_iff in Hi as ([j r'] & Hj & Hc).
    cbn [fst] in Hj. subst j.
    unfold RefactoringActionProvider.refactoringsToCheck in Hc.
    apply filter_In in Hc as [Hc Hshown].
    apply list_elem_of_In, elem_of_lookup_imap in Hc as (j & r0 & Heq & Hr0).
    injection Heq as -> ->. cbn [snd] in Hshown. congruence.
Qed.

Lemma message_of_last_match_witness :
  let isType := λ nodeType type : string, bool_decide (nodeType = type) in
  let claim := λ path : string * Code,
    RefactoringActionProvider.OnMatch path RefactoringActionProvider.Finish in
  let addBraces :=
    RefactoringActionProvider.mkRefactoring
      (RefactoringActionProvider.mkCommand "addBracesToArrowFunction" (str "Add braces"))
      (RefactoringActionProvider.mkActionProvider (str "Add braces") false None
         (λ _ _, [("ArrowFunctionExpression"%string,
                   RefactoringActionProvider.Function claim)])) in
  let rename :=
    RefactoringActionProvider.mkRefactoring
      (RefactoringActionProvider.mkCommand "renameSymbol" (str "Rename"))
      (RefactoringActionProvider.mkActionProvider (str "Rename") true
         (Some (λ path : string * Code, str "Rename " ++ path.2))
         (λ _ _, [("Identifier"%string, RefactoringActionProvider.Function claim)])) in
  let host :=
    RefactoringActionProvider.mkHost id [] [] (λ _ _, false) (λ _, Return [])
      1000 (λ _, true) None in
  let paths :=
    [("Identifier"%string, str "a");
     ("ArrowFunctionExpression"%string, str "a => b");
     ("Identifier"%string, str "b")] in
  ∃ written',
    RefactoringActionProvider.findApplicableRefactorings
      (λ _, Return paths) id fst isType host [addBraces; rename]
      (RefactoringActionProvider.mkEditor (str "a => b") (Selection.cursorAt 0 0))
      ∅
    = (written', Return [(1%nat, rename); (0%nat, addBraces)])
    ∧ RefactoringActionProvider.currentMessage written' (1%nat, rename)
      = str "Rename b"
    ∧ RefactoringActionProvider.currentMessage written' (0%nat, addBraces)
      = str "Add braces".
Proof.
  intros isType claim addBraces rename host paths.
  destruct (message_of_last_match (λ _, Return paths) id fst isType host
              [addBraces; rename]
              (RefactoringActionProvider.mkEditor (str "a => b")
                 (Selection.cursorAt 0 0))
              ∅ paths eq_refl)
    as (written' & found & Hrun & Hmessage & _).
  - intros path r Hpath Hr.
    repeat (apply elem_of_cons in Hpath as [->|Hpath]);
      [| | |inversion Hpath];
      (repeat (apply elem_of_cons in Hr as [->|Hr]); [| |inversion Hr]);
      exact I.
  - exists written'. split; [|split].
    + rewrite Hrun. f_equal.
      apply (f_equal snd) in Hrun. vm_compute in Hrun.
      injection Hrun as <-. reflexivity.
    + rewrite (Hmessage (1%nat, rename)); [reflexivity|].
      right. left.
    + rewrite (Hmessage (0%nat, addBraces)); [reflexivity|].
      left.
Defined.

(** ** The actions offered *)

Section Offered.

Import RefactoringActionProvider.

Context {AST NodePath : Type}.
Variable parse : Code → Outcome AST.
Variable traverseAST : AST → list NodePath.
Variable nodeType : NodePath → string.
Variable isType : string → string → bool.
Variable host : Host.
Variable refactorings : list (Refactoring NodePath).

Lemma addKey_NoDup acc k : NoDup acc → NoDup (addKey acc k).
Proof.
  intros Hnd. unfold addKey. destruct (decide (k ∈ acc)) as [Hin|Hnin];
    [exact Hnd|].
  apply NoDup_app. split; [exact Hnd|]. split.
  - intros x Hx Hk. apply list_elem_of_singleton in Hk as ->. exact (Hnin Hx).
  - apply NoDup_singleton.
Qed.

Lemma onMatches_holdsCandidates index (refactoring : Refactoring NodePath)
    (run : Run NodePath) (found : Discovery NodePath) :
  (index, refactoring) ∈ refactoringsToCheck host refactorings →
  holdsCandidates host refactorings found →
  holdsCandidates host refactorings (onMatches index refactoring run found).1.
Proof.
  intros Hc. revert found.
  induction run as [|visitedPath next IH|]; intros found Hfound;
    [exact Hfound | | exact Hfound].
  cbn [onMatches]. apply IH. destruct Hfound as [Hentries Hkeys].
  split; cbn [applicableRefactorings].
  - intros e He. destruct (mapSet_entries _ _ _ _ He) as [->|Hin];
      [split; [reflexivity | exact Hc] | exact (Hentries e Hin)].
  - rewrite mapSet_keys. apply addKey_NoDup, Hkeys.
Qed.

Lemma forEach_invariant {A} (P : Discovery NodePath → Prop) (l : list A)
    (body : A → Discovery NodePath → Discovery NodePath * Outcome unit)
    (found : Discovery NodePath) :
  (∀ x found0, x ∈ l → P found0 → P (body x found0).1) →
  P found → P (forEach l body found).1.
Proof.
  revert found. induction l as [|x l IH]; intros found Hbody Hfound;
    [exact Hfound|].
  cbn [forEach].
  pose proof (Hbody x found (list_elem_of_here x l) Hfound) as Hstep.
  destruct (body x found) as [found' [u|e]]; [|exact Hstep].
  apply IH; [|exact Hstep].
  intros y found0 Hy. apply Hbody. right. exact Hy.
Qed.

Lemma findApplicableRefactorings_found editor written written' found :
  findApplicableRefactorings parse traverseAST nodeType isType host
    refactorings editor written = (written', Return found) →
  NoDup (map keyOf found)
  ∧ ∀ c, c ∈ found → c ∈ refactoringsToCheck host refactorings.
Proof.
  unfold findApplicableRefactorings.
  destruct (parse (code editor)) as [ast|e]; [|discriminate].
  pose proof (forEach_invariant (holdsCandidates host refactorings) (traverseAST ast)
                (enterPath nodeType isType host refactorings editor)
                (mkDiscovery [] written)) as Hinv.
  destruct (forEach (traverseAST ast) _ _) as [found' [u|e]]; [|discriminate].
  intros [= <- <-].
  destruct Hinv as [Hentries Hkeys].
  - intros path found0 _. unfold enterPath.
    apply forEach_invariant. intros [i r] found1 Hr.
    apply onMatches_holdsCandidates, Hr.
  - split; [intros e He; inversion He | constructor].
  - cbn [fst] in *. revert Hentries Hkeys.
    generalize (applicableRefactorings found'). intros m Hentries Hkeys.
    split.
    + replace (map keyOf (JS.mapValues m)) with (keys m); [exact Hkeys|].
      clear Hkeys. induction m as [|[k v] m IH]; [reflexivity|].
      cbn [keys JS.mapValues map fst snd]. f_equal.
      * exact (proj1 (Hentries (k, v) (list_elem_of_here _ _))).
      * apply IH. intros e He. apply Hentries. right. exact He.
    + intros c Hc. unfold JS.mapValues in Hc.
      apply list_elem_of_fmap in Hc as (e & -> & He). apply Hentries, He.
Qed.

Lemma candidates_length :
  (length (refactoringsToCheck host refactorings) ≤ length refactorings)%nat.
Proof.
  unfold refactoringsToCheck.
  rewrite <- (length_imap (λ i r, (i, r)) refactorings).
  generalize (imap (λ i r, (i, r)) refactorings). intros l.
  induction l as [|x l IH]; [reflexivity|].
  cbn [List.filter]. destruct (shouldShowInQuickFix _ _); simpl; lia.
Qed.

End Offered.

(** X14: whatever [provideCodeActions] returns, every action it offers is
    built from a refactoring of [this.refactorings] whose identifier
    [shouldShowInQuickFix] accepts, no two actions run the same command, and
    there are no more actions than refactorings. *)
Theorem actions_of_shown_refactorings {AST NodePath : Type}
    (parse : Code → Outcome AST) (traverseAST : AST → list NodePath)
    (nodeType : NodePath → string) (isType : string → string → bool)
    (host : RefactoringActionProvider.Host)
    (refactorings : list (RefactoringActionProvider.Refactoring NodePath))
    (document : RefactoringActionProvider.TextDocument)
    (written written' : gmap nat Code)
    (actions : list RefactoringActionProvider.CodeAction) :
  RefactoringActionProvider.provideCodeActions parse traverseAST nodeType
    isType host refactorings document written
  = (written', Return actions) →
  (∀ action, action ∈ actions →
     ∃ i r,
       refactorings !! i = Some r
       ∧ RefactoringActionProvider.shouldShowInQuickFix host
           (RefactoringActionProvider.key
              (RefactoringActionProvider.command r)) = true
       ∧ action = RefactoringActionProvider.buildCodeActionFor written' (i, r))
  ∧ NoDup (map RefactoringActionProvider.actionCommand actions)
  ∧ (length actions ≤ length refactorings)%nat.
Proof.
  unfold RefactoringActionProvider.provideCodeActions.
  assert (∀ w, (w, Return RefactoringActionProvider.NO_ACTION)
               = (written', Return actions) →
          (∀ action, action ∈ actions →
             ∃ i r,
               refactorings !! i = Some r
               ∧ RefactoringActionProvider.shouldShowInQuickFix host
                   (RefactoringActionProvider.key
                      (RefactoringActionProvider.command r)) = true
               ∧ action
                 = RefactoringActionProvider.buildCodeActionFor written' (i, r))
          ∧ NoDup (map RefactoringActionProvider.actionCommand actions)
          ∧ (length actions ≤ length refactorings)%nat) as Hnone.
  { intros w [= <- <-]. split; [intros a Ha; inversion Ha|].
    split; [constructor | simpl; lia]. }
  destruct (RefactoringActionProvider.isNavigatingAnIgnoredFile _ _)
    as [[|]|e]; [apply Hnone | | discriminate].
  destruct (RefactoringActionProvider.createVSCodeEditor host) as [editor|];
    [|apply Hnone].
  destruct (RefactoringActionProvider.findApplicableRefactorings _ _ _ _ _ _ _ _)
    as [w [found|e]] eqn:Hfound; [|apply Hnone].
  intros [= <- <-].
  destruct (findApplicableRefactorings_found _ _ _ _ _ _ _ _ _ _ Hfound)
    as [Hkeys Hcandidates].
  split; [|split].
  - intros action Ha.
    apply list_elem_of_In, in_map_iff in Ha as ([i r] & <- & Hc).
    apply list_elem_of_In, Hcandidates in Hc.
    unfold RefactoringActionProvider.refactoringsToCheck in Hc.
    apply list_elem_of_In, filter_In in Hc as [Hc Hshown].
    apply list_elem_of_In, elem_of_lookup_imap in Hc as (j & r0 & Heq & Hr0).
    injection Heq as -> ->. exists j, r0. auto.
  - rewrite map_map.
    change (map ?f ?l) with (f <$> l).
    replace ((λ x, RefactoringActionProvider.actionCommand
                     (RefactoringActionProvider.buildCodeActionFor w x)) <$> found)
      with ((λ k, str "abracadabra." ++ list_ascii_of_string k)
              <$> (keyOf <$> found))
      by (rewrite <- list_fmap_compose; reflexivity).
    apply NoDup_fmap_2; [|exact Hkeys].
    intros k1 k2 Heq. apply app_inv_head in Heq.
    rewrite <- (string_of_list_ascii_of_string k1),
            <- (string_of_list_ascii_of_string k2), Heq. reflexivity.
  - rewrite length_map.
    etransitivity; [|apply (candidates_length host refactorings)].
    apply submseteq_length, NoDup_submseteq; [|exact Hcandidates].
    apply (NoDup_fmap_1 keyOf). exact Hkeys.
Qed.

Lemma actions_of_shown_refactorings_witness :
  let isType := λ nodeType type : string, bool_decide (nodeType = type) in
  let claim := λ path : string,
    RefactoringActionProvider.OnMatch path RefactoringActionProvider.Finish in
  let addBraces :=
    RefactoringActionProvider.mkRefactoring
      (RefactoringActionProvider.mkCommand "addBracesToArrowFunction" (str "Add braces"))
      (RefactoringActionProvider.mkActionProvider (str "Add braces") false None
         (λ _ _, [("ArrowFunctionExpression"%string,
                   RefactoringActionProvider.Function claim)])) in
  let rename :=
    RefactoringActionProvider.mkRefactoring
      (RefactoringActionProvider.mkCommand "renameSymbol" (str "Rename"))
      (RefactoringActionProvider.mkActionProvider (str "Rename") true None
         (λ _ _, [("Identifier"%string, RefactoringActionProvider.Function claim)])) in
  let editor :=
    RefactoringActionProvider.mkEditor (str "a => b") (Selection.cursorAt 0 0) in
  let host :=
    RefactoringActionProvider.mkHost id [] [] (λ _ _, false)
      (λ _, Return (str "a => b")) 1000
      (λ key, bool_decide (key ≠ "renameSymbol"%string)) (Some editor) in
  let actions :=
    [RefactoringActionProvider.mkCodeAction (str "Add braces ✨") false
       (str "abracadabra.addBracesToArrowFunction") (str "Add braces")] in
  RefactoringActionProvider.provideCodeActions
    (λ _, Return ["Identifier"; "ArrowFunctionExpression"; "Identifier"]%string)
    id id isType host [addBraces; rename]
    (RefactoringActionProvider.mkTextDocument (str "/src/a.js")) ∅
  = (∅, Return actions)
  ∧ NoDup (map RefactoringActionProvider.actionCommand actions)
  ∧ (length actions ≤ 2)%nat.
Proof.
  intros isType claim addBraces rename editor host actions.
  split; [reflexivity|].
  exact (proj2 (actions_of_shown_refactorings
                  (λ _, Return ["Identifier"; "ArrowFunctionExpression";
                                "Identifier"]%string)
                  id id isType host [addBraces; rename]
                  (RefactoringActionProvider.mkTextDocument (str "/src/a.js"))
                  ∅ ∅ actions eq_refl)).
Defined.

(** ** Files that are not navigated *)

Section Ignored.

Import RefactoringActionProvider.

Lemma startsWith_iff pat s :
  JS.startsWith pat s = true ↔ ∃ after, s = pat ++ after.
Proof.
  revert s. induction pat as [|p pat IH]; intros s; simpl.
  - split; [intros _; exists s; reflexivity | reflexivity].
  - destruct s as [|c s].
    + split; [discriminate | intros [after Heq]; discriminate].
    + destruct (decide (p = c)) as [->|Hne].
      * rewrite IH. split; intros [after Heq]; exists after; congruence.
      * split; [discriminate | intros [after Heq]; congruence].
Qed.

Lemma indexOfFrom_occursIn pat s i :
  0 ≤ i → (JS.indexOfFrom pat s i >? -1) = true ↔ occursIn pat s.
Proof.
  revert i. induction s as [|c s IH]; intros i Hi; simpl.
  - destruct (JS.startsWith pat []) eqn:Hstart.
    + split; [|intros _; apply Z.gtb_lt; lia].
      intros _. apply startsWith_iff in Hstart as [after Heq].
      exists [], after. exact Heq.
    + split; [intros Hgt; apply Z.gtb_lt in Hgt; lia|].
      intros (before & after & Heq).
      symmetry in Heq. apply app_eq_nil in Heq as [-> Heq].
      apply app_eq_nil in Heq as [-> ->].
      discriminate Hstart.
  - destruct (JS.startsWith pat (c :: s)) eqn:Hstart.
    + split; [|intros _; apply Z.gtb_lt; lia].
      intros _. apply startsWith_iff in Hstart as [after Heq].
      exists [], after. exact Heq.
    + rewrite IH by lia. split.
      * intros (before & after & ->). exists (c :: before), after. reflexivity.
      * intros (before & after & Heq). destruct before as [|b before].
        -- assert (JS.startsWith pat (c :: s) = true) as Htrue;
             [|congruence].
           apply startsWith_iff. exists after. exact Heq.
        -- injection Heq as -> ->. exists before, after. reflexivity.
Qed.

Lemma includes_occursIn s pat : includes s pat = true ↔ occursIn pat s.
Proof. unfold includes, JS.indexOf. apply indexOfFrom_occursIn. lia. Qed.

Lemma split_length sep s :
  length (JS.split sep s) = S (occurrences sep s).
Proof.
  unfold occurrences. induction s as [|c s IH]; [reflexivity|].
  cbn [JS.split]. rewrite filter_cons.
  destruct (decide (c = sep)) as [->|Hne].
  - simpl. rewrite IH. reflexivity.
  - destruct (JS.split sep s) as [|l ls]; [discriminate|]. exact IH.
Qed.

End Ignored.

(** X15: a file is not navigated when its path relative to the workspace
    holds an ignored folder between two slashes, or matches an ignored
    pattern, or when its content holds at least as many line feeds as the
    maximum of lines allowed, so that a file of exactly that many lines is
    too large once its last line is ended.  For such a file
    [provideCodeActions] returns no action and discovery does not run: no
    message is written.  The file is read, and a failure of the read
    propagates, whatever the folders and patterns say. *)
Theorem ignored_file_gives_no_action {AST NodePath : Type}
    (parse : Code → Outcome AST) (traverseAST : AST → list NodePath)
    (nodeType : NodePath → string) (isType : string → string → bool)
    (host : RefactoringActionProvider.Host)
    (refactorings : list (RefactoringActionProvider.Refactoring NodePath))
    (document : RefactoringActionProvider.TextDocument)
    (written : gmap nat Code) :
  let filePath := RefactoringActionProvider.uriPath document in
  let relativeFilePath := RefactoringActionProvider.asRelativePath host filePath in
  (∀ fileContent,
     RefactoringActionProvider.readFile host filePath = Return fileContent →
     ∃ ignored,
       RefactoringActionProvider.isNavigatingAnIgnoredFile host filePath
       = Return ignored
       ∧ (ignored = true
          ↔ (∃ folder,
               folder ∈ RefactoringActionProvider.getIgnoredFolders host
               ∧ occursIn (str "/" ++ folder ++ str "/") relativeFilePath)
            ∨ (∃ pattern,
                 pattern ∈ RefactoringActionProvider.getIgnoredPatterns host
                 ∧ RefactoringActionProvider.minimatch host relativeFilePath
                     pattern = true)
            ∨ RefactoringActionProvider.getMaxFileLinesCount host
              ≤ Z.of_nat (occurrences InMemoryEditor.LINE_SEPARATOR fileContent))
       ∧ (ignored = true →
          RefactoringActionProvider.provideCodeActions parse traverseAST
            nodeType isType host refactorings document written
          = (written, Return RefactoringActionProvider.NO_ACTION)))
  ∧ (∀ e,
       RefactoringActionProvider.readFile host filePath = Throw e →
       RefactoringActionProvider.provideCodeActions parse traverseAST nodeType
         isType host refactorings document written
       = (written, Throw e)).
Proof.
  intros filePath relativeFilePath. split.
  - intros fileContent Hread.
    unfold RefactoringActionProvider.provideCodeActions.
    fold filePath.
    unfold RefactoringActionProvider.isNavigatingAnIgnoredFile.
    rewrite Hread. fold relativeFilePath.
    eexists. split; [reflexivity|]. split.
    + rewrite !orb_true_iff, !existsb_exists, split_length, Z.gtb_lt.
      assert (∀ P Q R P' Q' R' : Prop,
                (P ↔ P') → (Q ↔ Q') → (R ↔ R') →
                ((P ∨ Q) ∨ R ↔ P' ∨ Q' ∨ R')) as Hor by tauto.
      apply Hor.
      * split; intros (folder & Hin & Hfolder); exists folder.
        -- apply list_elem_of_In in Hin. apply includes_occursIn in Hfolder. auto.
        -- apply list_elem_of_In in Hin. apply includes_occursIn in Hfolder. auto.
      * split; intros (pattern & Hin & Hpattern); exists pattern;
          apply list_elem_of_In in Hin; auto.
      * lia.
    + intros ->. reflexivity.
  - intros e Hread.
    unfold RefactoringActionProvider.provideCodeActions.
    fold filePath.
    unfold RefactoringActionProvider.isNavigatingAnIgnoredFile.
    rewrite Hread. reflexivity.
Qed.

Lemma ignored_file_gives_no_action_witness :
  let host :=
    RefactoringActionProvider.mkHost (drop 10) [str "node_modules"] []
      (λ _ _, false) (λ _, Return (str "export {}")) 1000 (λ _, true) None in
  let document :=
    RefactoringActionProvider.mkTextDocument
      (str "/workspace/node_modules/lib/index.js") in
  RefactoringActionProvider.provideCodeActions
    (λ _, Return ["Program"%string]) id id (λ _ _, true) host
    ([] : list (RefactoringActionProvider.Refactoring string)) document ∅
  = (∅, Return RefactoringActionProvider.NO_ACTION).
Proof.
  intros host document.
  destruct (proj1 (ignored_file_gives_no_action
                     (λ _, Return ["Program"%string]) id id (λ _ _, true)
                     host [] document ∅)
              (str "export {}") eq_refl)
    as (ignored & Hignored & _ & Hnone).
  apply Hnone. injection Hignored as <-. reflexivity.
Defined.

(** ** Lines removed and lines that are blank *)

Section Lines.

Import InMemoryEditor.

Lemma delete_ge {A} (l : list A) i : (length l ≤ i)%nat → delete i l = l.
Proof.
  intros Hi. rewrite delete_take_drop, take_ge, drop_ge by lia.
  apply app_nil_r.
Qed.

Lemma spliceOut_one {A} (l : list A) (line : Z) :
  JS.spliceOut l line 1
  = delete (Z.to_nat (JS.relativeIndex (Z.of_nat (length l)) line)) l.
Proof.
  unfold JS.spliceOut, JS.relativeIndex.
  set (len := Z.of_nat (length l)).
  set (k := if line <? 0 then Z.max (len + line) 0 else Z.min line len).
  assert (0 ≤ k ≤ len) as Hk.
  { unfold k. destruct (Z.ltb_spec line 0); lia. }
  destruct (decide (k = len)) as [Heq|Hne].
  - rewrite Heq. replace (Z.min (Z.max 1 0) (len - len)) with 0 by lia.
    rewrite Z.add_0_r. unfold len. rewrite Nat2Z.id.
    rewrite take_ge, drop_ge, app_nil_r by lia.
    symmetry. apply delete_ge. lia.
  - replace (Z.min (Z.max 1 0) (len - k)) with 1 by lia.
    rewrite delete_take_drop. f_equal. f_equal. lia.
Qed.

Lemma matrixOf_delete i lines :
  delete i (matrixOf lines) = matrixOf (delete i lines).
Proof.
  unfold matrixOf. rewrite !delete_take_drop.
  rewrite map_app. change (map ?f ?l) with (f <$> l).
  rewrite fmap_take, fmap_drop. reflexivity.
Qed.

Lemma trimStart_Forall s :
  Forall (λ c, JS.isWhiteSpace c = true) (JS.trimStart s)
  ↔ Forall (λ c, JS.isWhiteSpace c = true) s.
Proof.
  induction s as [|c s IH]; [reflexivity|].
  cbn [JS.trimStart]. destruct (JS.isWhiteSpace c) eqn:Hc; [|reflexivity].
  rewrite IH, Forall_cons. tauto.
Qed.

Lemma trimStart_nil s :
  JS.trimStart s = [] ↔ Forall (λ c, JS.isWhiteSpace c = true) s.
Proof.
  induction s as [|c s IH]; [split; [constructor | reflexivity]|].
  cbn [JS.trimStart]. destruct (JS.isWhiteSpace c) eqn:Hc.
  - rewrite IH, Forall_cons. tauto.
  - split; [discriminate|]. intros Hall.
    apply Forall_cons in Hall as [Hws _]. congruence.
Qed.

Lemma trim_nil s :
  JS.trim s = [] ↔ Forall (λ c, JS.isWhiteSpace c = true) s.
Proof.
  unfold JS.trim, JS.trimEnd.
  rewrite <- (trimStart_Forall s).
  generalize (JS.trimStart s). intros t.
  assert (Forall (λ c, JS.isWhiteSpace c = true) (rev t)
          ↔ Forall (λ c, JS.isWhiteSpace c = true) t) as <-.
  { split; intros Hall; [rewrite <- (rev_involutive t)|]; apply Forall_rev, Hall. }
  rewrite <- trimStart_nil.
  split; [|intros ->; reflexivity].
  intros Hrev. apply (f_equal (@rev _)) in Hrev.
  rewrite rev_involutive in Hrev. exact Hrev.
Qed.

End Lines.

(** X16: [removeLine] on a buffer of one code unit per cell none of whose
    lines spells the deletion sentinel.  For a line of the buffer the code
    afterwards is the text of the other lines; for a line at or after the
    number of lines nothing is removed; a negative line counts from the end,
    so -1 removes the last line, and one below minus the number of lines
    removes the first.  The stored selection is never moved. *)
Theorem removeLine_code (lines : list Code) (this : InMemoryEditor.t)
    (line : Z) :
  InMemoryEditor.codeMatrix this = matrixOf lines →
  InMemoryEditor.DELETED_LINE ∉ lines →
  ∃ editor',
    InMemoryEditor.removeLine line this = (editor', Return tt)
    ∧ InMemoryEditor._selection editor' = InMemoryEditor._selection this
    ∧ (0 ≤ line →
       InMemoryEditor.code editor' = textOf (delete (Z.to_nat line) lines))
    ∧ (Z.of_nat (length lines) ≤ line →
       InMemoryEditor.code editor' = InMemoryEditor.code this)
    ∧ (line < 0 →
       InMemoryEditor.code editor'
       = textOf (delete (Z.to_nat (Z.of_nat (length lines) + line)) lines)).
Proof.
  intros HM Hclean. eexists. split; [reflexivity|]. split; [reflexivity|].
  unfold InMemoryEditor.code.
  cbn [InMemoryEditor.codeMatrix InMemoryEditor.withCodeMatrix].
  rewrite spliceOut_one, HM, matrixOf_delete.
  assert (length (matrixOf lines) = length lines) as ->
    by apply length_map.
  rewrite read_matrixOf
    by (intros Hin; apply Hclean; eapply list_elem_of_delete_inv; exact Hin).
  unfold JS.relativeIndex.
  split; [|split].
  - intros Hline. destruct (Z.ltb_spec line 0) as [|_]; [lia|].
    destruct (Z.le_gt_cases (Z.of_nat (length lines)) line) as [Hge|Hlt].
    + rewrite !delete_ge by lia. reflexivity.
    + do 2 f_equal. lia.
  - intros Hline. destruct (Z.ltb_spec line 0) as [|_]; [lia|].
    rewrite delete_ge by lia. symmetry. apply read_matrixOf, Hclean.
  - intros Hline. destruct (Z.ltb_spec line 0) as [_|]; [|lia].
    do 2 f_equal. lia.
Qed.

Lemma removeLine_code_witness :
  ∃ editor',
    InMemoryEditor.removeLine (-1) (InMemoryEditor.new (str "abc
def
ghi"))
    = (editor', Return tt)
    ∧ InMemoryEditor.code editor' = str "abc
def".
Proof.
  destruct (removeLine_code [str "abc"; str "def"; str "ghi"]
              (InMemoryEditor.new (str "abc
def
ghi")) (-1) eq_refl) as (editor' & Hrun & _ & _ & _ & Hcode).
  - rewrite !not_elem_of_cons. repeat split; try discriminate.
    apply not_elem_of_nil.
  - exists editor'. split; [exact Hrun|]. apply Hcode. lia.
Defined.

(** X17: [isLineBlank] answers true exactly when every code unit of the
    line is white space, an empty line included; where the code matrix has
    no such line, a negative line included, it throws a [TypeError].  Code
    units are below 256. *)
Theorem isLineBlank_white_space (this : InMemoryEditor.t) (line : Z) :
  (∀ cells,
     0 ≤ line →
     InMemoryEditor.codeMatrix this !! Z.to_nat line = Some cells →
     ∃ blank,
       InMemoryEditor.isLineBlank line this = (this, Return blank)
       ∧ (blank = true
          ↔ Forall (λ c, JS.isWhiteSpace c = true) (concat cells)))
  ∧ (line < 0 ∨ Z.of_nat (length (InMemoryEditor.codeMatrix this)) ≤ line →
     InMemoryEditor.isLineBlank line this = (this, Throw TypeError)).
Proof.
  unfold InMemoryEditor.isLineBlank, mbind, InMemoryEditor.M_bind,
    InMemoryEditor.bind, InMemoryEditor.lineAt, JS.get.
  split.
  - intros cells Hline Hcells.
    destruct (Z.ltb_spec line 0) as [|_]; [lia|]. rewrite Hcells.
    eexists. split; [reflexivity|].
    rewrite bool_decide_eq_true, join_cells. apply trim_nil.
  - intros [Hline|Hline].
    + destruct (Z.ltb_spec line 0) as [_|]; [reflexivity | lia].
    + destruct (Z.ltb_spec line 0) as [|_]; [reflexivity|].
      rewrite (proj2 (lookup_ge_None _ _)) by lia. reflexivity.
Qed.

Lemma isLineBlank_white_space_witness :
  let editor := InMemoryEditor.new (str "if (a) {
  
}") in
  InMemoryEditor.isLineBlank 1 editor = (editor, Return true)
  ∧ InMemoryEditor.isLineBlank (-1) editor = (editor, Throw TypeError).
Proof.
  intros editor.
  destruct (isLineBlank_white_space editor 1) as [Hblank _].
  destruct (isLineBlank_white_space editor (-1)) as [_ Hthrow].
  split.
  - destruct (Hblank [str " "; str " "]) as (blank & Hrun & Hiff);
      [lia | reflexivity |].
    rewrite Hrun. do 2 f_equal. apply Hiff.
    repeat constructor.
  - apply Hthrow. left. lia.
Defined.

(** ** The selection markers of a fixture *)

(** X18: a start marker and an end marker on one line of a fixture that
    holds no other marker are decoded to the places they stood at.  The
    constructed editor has the fixture without the two markers as its code;
    when the end marker, sought once the start marker is cut out, is found
    at or after the place of the start marker, the selection goes from the
    place of the one to the place of the other, which are where the markers
    were cut out; when it is found before, the selection is a cursor at the
    index found for the start marker and the end marker is not decoded. *)
Theorem selection_markers_decoding (code : Code) (before : list Code)
    (line : Code) (after : list Code) (position : Position.t) :
  let startChar := JS.indexOf InMemoryEditor.SELECTION_START line in
  let started := JS.replace InMemoryEditor.SELECTION_START [] line in
  let endChar := JS.indexOf InMemoryEditor.SELECTION_END started in
  let stripped := JS.replace InMemoryEditor.SELECTION_END [] started in
  let lineIndex := Z.of_nat (length before) in
  JS.split InMemoryEditor.LINE_SEPARATOR code = before ++ line :: after →
  Forall holdsNoMarker before → Forall holdsNoMarker after →
  JS.indexOf InMemoryEditor.CURSOR line = -1 →
  startChar ≠ -1 → endChar ≠ -1 →
  InMemoryEditor.DELETED_LINE ∉ before ++ stripped :: after →
  InMemoryEditor.code (InMemoryEditor.create code position)
  = textOf (before ++ stripped :: after)
  ∧ (startChar ≤ endChar →
     InMemoryEditor.selection (InMemoryEditor.create code position)
     = Selection.mk (Position.mk lineIndex startChar)
         (Position.mk lineIndex endChar)
     ∧ 0 ≤ startChar
     ∧ line
       = take (Z.to_nat startChar) stripped
         ++ InMemoryEditor.SELECTION_START
         ++ take (Z.to_nat (endChar - startChar))
              (drop (Z.to_nat startChar) stripped)
         ++ InMemoryEditor.SELECTION_END
         ++ drop (Z.to_nat endChar) stripped)
  ∧ (endChar < startChar →
     InMemoryEditor.selection (InMemoryEditor.create code position)
     = Selection.cursorAt lineIndex startChar).
Proof.
  intros startChar started endChar stripped lineIndex
    Hsplit Hbefore Hafter Hcursor Hstart Hend Hsentinel.
  assert (InMemoryEditor.stripMarkers line = stripped) as Hstrip.
  { unfold InMemoryEditor.stripMarkers.
    rewrite (indexOf_absent_replace _ _ _ Hcursor). reflexivity. }
  assert (InMemoryEditor.selection (InMemoryEditor.create code position)
          = Selection.extendEndToStartOf
              (Selection.cursorAt lineIndex startChar)
              (Selection.cursorAt lineIndex endChar)) as Hselection.
  { unfold InMemoryEditor.selection, InMemoryEditor.create.
    cbn [InMemoryEditor._selection].
    unfold InMemoryEditor.setSelectionFromCursor.
    rewrite Hsplit, fold_left_app.
    rewrite scan_holdsNoMarker_pair by exact Hbefore.
    cbn [fold_left]. rewrite Z.add_0_l. fold lineIndex.
    assert (InMemoryEditor.scanLine
              (Selection.cursorAtPosition position, lineIndex) line
            = (Selection.extendEndToStartOf
                 (Selection.cursorAt lineIndex startChar)
                 (Selection.cursorAt lineIndex endChar),
               lineIndex + 1)) as ->.
    { unfold InMemoryEditor.scanLine.
      rewrite Hcursor, (indexOf_absent_replace _ _ _ Hcursor).
      fold startChar started. fold endChar.
      pose proof (indexOfFrom_found InMemoryEditor.SELECTION_START [] line 0)
        as Hs.
      pose proof (indexOfFrom_found InMemoryEditor.SELECTION_END [] started 0)
        as He.
      fold (JS.indexOf InMemoryEditor.SELECTION_START line) in Hs.
      fold (JS.indexOf InMemoryEditor.SELECTION_END started) in He.
      fold startChar in Hs. fold endChar in He.
      destruct Hs as (n & Hn & _); [lia | exact Hstart|].
      destruct He as (m & Hm & _); [lia | exact Hend|].
      destruct (Z.gtb_spec startChar (-1)); [|lia].
      destruct (Z.gtb_spec endChar (-1)); [|lia].
      reflexivity. }
    apply scan_holdsNoMarker, Hafter. }
  split; [|split].
  - unfold InMemoryEditor.code, InMemoryEditor.create.
    cbn [InMemoryEditor.codeMatrix].
    rewrite setCodeMatrix_matrixOf, Hsplit, map_app. cbn [map].
    rewrite !map_stripMarkers, Hstrip by assumption.
    apply read_matrixOf, Hsentinel.
  - intros Hle. rewrite Hselection.
    destruct (indexOfFrom_found InMemoryEditor.SELECTION_START [] line 0)
      as (n & Hn & Hnle & Hline & Hstarted); [lia | exact Hstart|].
    destruct (indexOfFrom_found InMemoryEditor.SELECTION_END [] started 0)
      as (m & Hm & Hmle & Hstarted' & Hstripped); [lia | exact Hend|].
    fold (JS.indexOf InMemoryEditor.SELECTION_START line) in Hn.
    fold (JS.indexOf InMemoryEditor.SELECTION_END started) in Hm.
    fold startChar in Hn. fold endChar in Hm.
    fold started in Hstarted. fold stripped in Hstripped.
    cbn [app] in Hstarted, Hstripped.
    split; [|split; [lia|]].
    + unfold Selection.extendEndToStartOf, Selection.cursorAt,
        Selection.cursorAtPosition.
      cbn [Selection.start Selection.end_].
      rewrite (proj2 (isAfter_ge _ _)); [reflexivity|]. simpl. lia.
    + replace (Z.to_nat startChar) with n by lia.
      replace (Z.to_nat endChar) with m by lia.
      replace (Z.to_nat (endChar - startChar)) with (m - n)%nat by lia.
      assert (n ≤ m)%nat as Hnm by lia.
      assert (length (take n line) = n) as Hlenn by (rewrite length_take; lia).
      assert (length (take m started) = m) as Hlenm
        by (rewrite length_take; lia).
      assert (take n started = take n line) as Htake.
      { rewrite Hstarted at 1. apply take_app_length'. symmetry. exact Hlenn. }
      assert (drop n started
              = drop (n + length InMemoryEditor.SELECTION_START) line) as Hdrop.
      { rewrite Hstarted at 1. apply drop_app_length'. symmetry. exact Hlenn. }
      assert (take n stripped = take n line) as Htake'.
      { rewrite <- Htake, Hstripped, take_app_le by lia.
        rewrite take_take. f_equal. lia. }
      assert (drop m stripped
              = drop (m + length InMemoryEditor.SELECTION_END) started) as Hdrop'.
      { rewrite Hstripped at 1. apply drop_app_length'. symmetry. exact Hlenm. }
      assert (take (m - n) (drop n stripped) = drop n (take m started)) as Hmid.
      { rewrite Hstripped at 1. rewrite drop_app_le by lia.
        apply take_app_length'. rewrite length_drop. lia. }
      rewrite Htake', Hmid, Hdrop'.
      rewrite Hline at 1. f_equal. f_equal.
      rewrite <- Hdrop. rewrite Hstarted' at 1.
      rewrite drop_app_le by lia. reflexivity.
  - intros Hlt. rewrite Hselection.
    unfold Selection.extendEndToStartOf, Selection.cursorAt,
      Selection.cursorAtPosition.
    cbn [Selection.start Selection.end_].
    destruct (Position.isAfter _ _) eqn:Hafter'; [|reflexivity].
    apply isAfter_ge in Hafter'. simpl in Hafter'. lia.
Qed.

Lemma selection_markers_decoding_witness :
  let editor :=
    InMemoryEditor.create (str "const a = 1;
return [start]a + 2[end];") (Position.mk 0 0) in
  InMemoryEditor.code editor = str "const a = 1;
return a + 2;"
  ∧ InMemoryEditor.selection editor
    = Selection.mk (Position.mk 1 7) (Position.mk 1 12).
Proof.
  intros editor.
  destruct (selection_markers_decoding
              (str "const a = 1;
return [start]a + 2[end];")
              [str "const a = 1;"] (str "return [start]a + 2[end];") []
              (Position.mk 0 0))
    as (Hcode & Hselection & _).
  - reflexivity.
  - repeat constructor.
  - constructor.
  - reflexivity.
  - vm_compute. discriminate.
  - vm_compute. discriminate.
  - intros Hin. apply list_elem_of_In in Hin. vm_compute in Hin.
    destruct Hin as [Hin|[Hin|[]]]; discriminate.
  - split; [exact Hcode|]. apply Hselection. vm_compute. discriminate.
Defined.

(** ** Highlights *)

Section HighlightsDefined.

Import Highlights.

Context {SelectionRef SelectionsRef : Type}.
Context `{!EqDecision SelectionRef, !EqDecision SelectionsRef}.
Variable selectionOf : SelectionRef → Selection.t.
Variable elementsOf : SelectionsRef → list SelectionRef.

Lemma mapGet_keys (map : list (SelectionRef * Z)) key :
  key ∈ List.map fst map → is_Some (mapGet map key).
Proof.
  induction map as [|[key' value] map IH]; intros Hin; [inversion Hin|].
  cbn [mapGet]. destruct (decide (key' = key)) as [|Hne]; [eauto|].
  apply IH. cbn [List.map fst] in Hin.
  apply elem_of_cons in Hin as [Heq|Hin]; [congruence | exact Hin].
Qed.

Lemma find_filter_keys {A} (p q : A → bool) (l : list A) x :
  List.find p (List.filter q l) = Some x → x ∈ l.
Proof.
  intros Hfind. apply find_some in Hfind as [Hin _].
  apply filter_In in Hin as [Hin _]. apply list_elem_of_In, Hin.
Qed.

Lemma flatMapFrom_is_Some {A B} (f : A → Z → option (list B)) l index :
  (∀ x i, is_Some (f x i)) → is_Some (flatMapFrom f l index).
Proof.
  intros Hf. revert index. induction l as [|x l IH]; intros index; [eauto|].
  cbn [flatMapFrom]. destruct (Hf x index) as [y ->].
  destruct (IH (index + 1)) as [ys ->]. eauto.
Qed.

Lemma mapFrom_is_Some {A B} (f : A → Z → option B) l index :
  (∀ x i, is_Some (f x i)) → is_Some (mapFrom f l index).
Proof.
  intros Hf. revert index. induction l as [|x l IH]; intros index; [eauto|].
  cbn [mapFrom]. destruct (Hf x index) as [y ->].
  destruct (IH (index + 1)) as [ys ->]. eauto.
Qed.

Lemma flatMapFrom_cells {A} (l : list A) index :
  flatMapFrom (λ x (_ : Z), Some [x]) l index = Some l.
Proof.
  revert index. induction l as [|x l IH]; intros index; [reflexivity|].
  cbn [flatMapFrom]. rewrite IH. reflexivity.
Qed.

Lemma mapFrom_lines {A} (l : list (list A)) index :
  mapFrom (λ line (_ : Z), flatMapFrom (λ x (_ : Z), Some [x]) line 0) l index
  = Some l.
Proof.
  revert index. induction l as [|x l IH]; intros index; [reflexivity|].
  cbn [mapFrom]. rewrite flatMapFrom_cells, IH. reflexivity.
Qed.

Lemma highlightCodeMatrix_is_Some
    (this : @Highlights.t SelectionRef SelectionsRef) codeMatrix :
  is_Some (highlightCodeMatrix selectionOf this codeMatrix).
Proof.
  unfold highlightCodeMatrix. apply mapFrom_is_Some. intros line lineIndex.
  apply flatMapFrom_is_Some. intros char charIndex. unfold highlightCell.
  destruct (List.find _ _) as [start|] eqn:Hstart.
  - apply find_filter_keys in Hstart.
    destruct (mapGet_keys _ _ Hstart) as [index ->]. eauto.
  - match goal with
    | |- context [List.find ?p ?l] =>
        destruct (List.find p l) as [end_|] eqn:Hend; [|eauto]
    end.
    apply find_filter_keys in Hend.
    destruct (mapGet_keys _ _ Hend) as [index ->]. eauto.
Qed.

End HighlightsDefined.

(** X19: [highlightedCode] always answers: whatever the highlights and the
    code matrix, the key that [highlightCodeMatrix] looks up is a key of the
    [Map], so neither [assert] fails; and with no highlight it answers the
    code of the editor. *)
Theorem highlightedCode_answers {SelectionRef : Type}
    `{!EqDecision SelectionRef} {SelectionsRef : Type}
    (selectionOf : SelectionRef → Selection.t)
    (this : @Highlights.t SelectionRef SelectionsRef)
    (editor : InMemoryEditor.t) :
  ∃ code,
    Highlights.highlightedCode selectionOf this editor = Some code
    ∧ (Highlights.highlights this = [] → code = InMemoryEditor.code editor).
Proof.
  unfold Highlights.highlightedCode.
  destruct (highlightCodeMatrix_is_Some selectionOf this
              (InMemoryEditor.codeMatrix editor)) as [matrix Hmatrix].
  rewrite Hmatrix. eexists. split; [reflexivity|].
  intros Hnone. unfold Highlights.highlightCodeMatrix in Hmatrix.
  rewrite Hnone in Hmatrix. cbn [map List.filter] in Hmatrix.
  unfold Highlights.highlightCell in Hmatrix. cbn [List.find] in Hmatrix.
  rewrite mapFrom_lines in Hmatrix. injection Hmatrix as <-. reflexivity.
Qed.

Section Tagged.

Lemma tagged_untagged (tag : Z → Code) line charIndex :
  (∀ j, charIndex ≤ j < charIndex + Z.of_nat (length line) → tag j = []) →
  tagged tag line charIndex = line.
Proof.
  revert charIndex. induction line as [|c line IH]; intros charIndex Htag;
    [reflexivity|].
  cbn [tagged]. cbn [length] in Htag.
  rewrite Htag by lia. cbn [app]. f_equal. apply IH.
  intros j Hj. apply Htag. lia.
Qed.

Lemma insertAt_cons n tag c text :
  insertAt (S n) tag (c :: text) = c :: insertAt n tag text.
Proof. reflexivity. Qed.

(** A tag before which no other tag stands is put in before its cell, if
    the line has that cell. *)
Lemma tagged_first (tag : Z → Code) a t line charIndex :
  (∀ j, j ≤ a → tag j = []) →
  tagged (λ j, if j =? a then t else tag j) line charIndex
  = if (charIndex <=? a) && (a <? charIndex + Z.of_nat (length line))
    then insertAt (Z.to_nat (a - charIndex)) t (tagged tag line charIndex)
    else tagged tag line charIndex.
Proof.
  intros Htag. revert charIndex.
  induction line as [|c line IH]; intros charIndex.
  - cbn [tagged length].
    destruct (Z.leb_spec charIndex a),
             (Z.ltb_spec a (charIndex + Z.of_nat 0));
      try reflexivity; lia.
  - cbn [tagged length]. rewrite IH.
    destruct (Z.eqb_spec charIndex a) as [->|Hne].
    + rewrite (Htag a) by lia.
      destruct (Z.leb_spec (a + 1) a); [lia|].
      destruct (Z.leb_spec a a); [|lia].
      destruct (Z.ltb_spec a (a + Z.of_nat (S (length line)))); [|lia].
      cbn [andb]. replace (a - a) with 0 by lia. reflexivity.
    + destruct (Z.leb_spec charIndex a) as [Hle|Hgt].
      * rewrite (Htag charIndex) by lia.
        destruct (Z.leb_spec (charIndex + 1) a); [|lia].
        cbn [andb app].
        destruct (Z.ltb_spec a (charIndex + 1 + Z.of_nat (length line))),
                 (Z.ltb_spec a (charIndex + Z.of_nat (S (length line))));
          try lia;
          [|reflexivity].
        replace (Z.to_nat (a - charIndex))
          with (S (Z.to_nat (a - (charIndex + 1)))) by lia.
        reflexivity.
      * destruct (Z.leb_spec (charIndex + 1) a); [lia|]. reflexivity.
Qed.

Lemma insertAt_elem_of n tag text c : c ∈ tag → c ∈ insertAt n tag text.
Proof. intros Hc. unfold insertAt. rewrite !elem_of_app. auto. Qed.

End Tagged.

Section OneHighlight.

Lemma tagged_ext (f g : Z → Code) line charIndex :
  (∀ j, f j = g j) → tagged f line charIndex = tagged g line charIndex.
Proof.
  intros Hfg. revert charIndex.
  induction line as [|c line IH]; intros charIndex; [reflexivity|].
  cbn [tagged]. rewrite Hfg, IH. reflexivity.
Qed.

Lemma insertAt_nil n text : insertAt n [] text = text.
Proof. apply take_drop. Qed.

(** The tags of one highlight on a line: at most two, the opening one
    first. *)
Lemma tagged_highlightedLine opening closing selection lineIndex line :
  Position.isBefore (Selection.start selection) (Selection.end_ selection)
  = true →
  tagged (tagAt opening closing selection lineIndex) line 0
  = highlightedLine opening closing selection lineIndex line.
Proof.
  intros Hbefore. apply isBefore_le in Hbefore.
  destruct selection as [[ls cs] [le ce]].
  unfold highlightedLine.
  cbn [Selection.start Selection.end_ Position.line Position.character] in *.
  set (same := Position.isEqualTo (Position.mk ls cs) (Position.mk le ce)).
  assert (same = true ↔ ls = le ∧ cs = ce) as Hsame.
  { unfold same. rewrite isEqualTo_eq. split; [intros [= -> ->]; auto|].
    intros [-> ->]. reflexivity. }
  set (t0 := if (le =? lineIndex) && negb same then closing else []).
  assert (tagged (λ j, if j =? ce then t0 else []) line 0
          = if (le =? lineIndex) && (0 <=? ce)
               && (ce <? Z.of_nat (length line)) && negb same
            then insertAt (Z.to_nat ce) closing line
            else line) as Hclosed.
  { rewrite (tagged_first (λ _, []) ce t0 line 0) by reflexivity.
    rewrite (tagged_untagged (λ _, [])) by reflexivity.
    rewrite Z.add_0_l, Z.sub_0_r. unfold t0.
    destruct (le =? lineIndex), (0 <=? ce), (ce <? Z.of_nat (length line)),
      (negb same); cbn [andb]; try reflexivity; apply insertAt_nil. }
  rewrite <- Hclosed.
  destruct (Z.eqb_spec ls lineIndex) as [Hls|Hls]; cbn [andb].
  - transitivity
      (tagged (λ j, if j =? cs then opening
                    else if j =? ce then t0 else []) line 0).
    + apply tagged_ext. intros j. unfold tagAt, t0.
      cbn [Selection.start Selection.end_ Position.line Position.character].
      rewrite (proj2 (Z.eqb_eq ls lineIndex) Hls). cbn [andb].
      rewrite (Z.eqb_sym cs j).
      destruct (Z.eqb_spec j cs) as [->|Hj]; [reflexivity|].
      rewrite (Z.eqb_sym ce j).
      destruct (Z.eqb_spec le lineIndex) as [Hle|Hle],
               (Z.eqb_spec j ce) as [Hce|Hce]; cbn [andb negb];
        try reflexivity.
      destruct same eqn:Hs; [|reflexivity].
      pose proof (proj1 Hsame eq_refl). lia.
    + rewrite (tagged_first (λ j, if j =? ce then t0 else []) cs opening line 0).
      * rewrite Z.add_0_l, Z.sub_0_r. reflexivity.
      * intros j Hj. unfold t0.
        destruct (Z.eqb_spec j ce) as [Hce|Hce]; [|reflexivity].
        destruct (Z.eqb_spec le lineIndex) as [Hle|Hle]; [|reflexivity].
        destruct same eqn:Hs; [reflexivity|]. cbn [andb negb].
        assert (ls = le ∧ cs = ce) as Heq by lia.
        pose proof (proj2 Hsame Heq). discriminate.
  - apply tagged_ext. intros j. unfold tagAt, t0.
    cbn [Selection.start Selection.end_ Position.line Position.character].
    rewrite (proj2 (Z.eqb_neq ls lineIndex) Hls). cbn [andb].
    rewrite (Z.eqb_sym ce j).
    destruct (Z.eqb_spec le lineIndex) as [Hle|Hle],
             (Z.eqb_spec j ce) as [Hce|Hce]; cbn [andb negb];
      try reflexivity.
    destruct same eqn:Hs; [|reflexivity].
    pose proof (proj1 Hsame eq_refl). lia.
Qed.

End OneHighlight.

Section OneHighlightMatrix.

Import Highlights.

Context {SelectionRef SelectionsRef : Type}.
Context `{!EqDecision SelectionRef, !EqDecision SelectionsRef}.
Variable selectionOf : SelectionRef → Selection.t.
Variable this : @Highlights.t SelectionRef SelectionsRef.
Variable selection : SelectionRef.
Variable index : Z.
Hypothesis one_highlight : highlights this = [(selection, index)].

Let opening : Code := str "[h" ++ numberToString index ++ str "]".
Let closing : Code := str "[/h" ++ numberToString index ++ str "]".

Lemma highlightCell_one lineIndex char charIndex :
  ∃ cells,
    highlightCell selectionOf this
      (List.filter
         (λ s, Position.line (Selection.start (selectionOf s)) =? lineIndex)
         (map fst (highlights this)))
      (List.filter
         (λ s, Position.line (Selection.end_ (selectionOf s)) =? lineIndex)
         (map fst (highlights this)))
      char charIndex
    = Some cells
    ∧ concat cells
      = tagAt opening closing (selectionOf selection) lineIndex charIndex
        ++ char.
Proof.
  unfold highlightCell, tagAt. rewrite one_highlight.
  cbn [map fst List.filter].
  destruct (Position.line (Selection.start (selectionOf selection)) =? lineIndex);
    cbn [List.find andb].
  - destruct (Position.character (Selection.start (selectionOf selection))
              =? charIndex).
    + cbn [mapGet]. rewrite decide_True by reflexivity.
      eexists. split; [reflexivity|]. cbn [concat]. rewrite app_nil_r.
      reflexivity.
    + destruct (Position.line (Selection.end_ (selectionOf selection))
                =? lineIndex); cbn [List.find andb].
      * destruct (Position.character (Selection.end_ (selectionOf selection))
                  =? charIndex).
        -- cbn [mapGet]. rewrite decide_True by reflexivity.
           eexists. split; [reflexivity|]. cbn [concat]. rewrite app_nil_r.
           reflexivity.
        -- eexists. split; [reflexivity|]. cbn [concat]. apply app_nil_r.
      * eexists. split; [reflexivity|]. cbn [concat]. apply app_nil_r.
  - destruct (Position.line (Selection.end_ (selectionOf selection))
              =? lineIndex); cbn [List.find andb].
    + destruct (Position.character (Selection.end_ (selectionOf selection))
                =? charIndex).
      * cbn [mapGet]. rewrite decide_True by reflexivity.
        eexists. split; [reflexivity|]. cbn [concat]. rewrite app_nil_r.
        reflexivity.
      * eexists. split; [reflexivity|]. cbn [concat]. apply app_nil_r.
    + eexists. split; [reflexivity|]. cbn [concat]. apply app_nil_r.
Qed.

Lemma flatMapFrom_one lineIndex (line : Code) charIndex :
  ∃ row,
    flatMapFrom
      (highlightCell selectionOf this
         (List.filter
            (λ s, Position.line (Selection.start (selectionOf s)) =? lineIndex)
            (map fst (highlights this)))
         (List.filter
            (λ s, Position.line (Selection.end_ (selectionOf s)) =? lineIndex)
            (map fst (highlights this))))
      (JS.chars line) charIndex
    = Some row
    ∧ concat row
      = tagged (tagAt opening closing (selectionOf selection) lineIndex)
          line charIndex.
Proof.
  revert charIndex. induction line as [|c line IH]; intros charIndex.
  - exists []. split; reflexivity.
  - cbn [JS.chars map flatMapFrom].
    destruct (highlightCell_one lineIndex [c] charIndex)
      as (cells & -> & Hcells).
    destruct (IH (charIndex + 1)) as (row & Hrow & Hconcat).
    unfold JS.chars in Hrow. rewrite Hrow.
    exists (cells ++ row). split; [reflexivity|].
    rewrite concat_app, Hcells, Hconcat. cbn [tagged].
    rewrite <- app_assoc. reflexivity.
Qed.

Lemma mapFrom_one (lines : list Code) lineIndex :
  ∃ matrix,
    mapFrom
      (λ line lineIndex,
         flatMapFrom
           (highlightCell selectionOf this
              (List.filter
                 (λ s, Position.line (Selection.start (selectionOf s))
                       =? lineIndex)
                 (map fst (highlights this)))
              (List.filter
                 (λ s, Position.line (Selection.end_ (selectionOf s))
                       =? lineIndex)
                 (map fst (highlights this))))
           line 0)
      (matrixOf lines) lineIndex
    = Some matrix
    ∧ map (@concat ascii) matrix
      = imap
          (λ i line,
             tagged
               (tagAt opening closing (selectionOf selection)
                  (lineIndex + Z.of_nat i))
               line 0)
          lines.
Proof.
  revert lineIndex. induction lines as [|line lines IH]; intros lineIndex.
  - exists []. split; reflexivity.
  - cbn [matrixOf map mapFrom].
    destruct (flatMapFrom_one lineIndex line 0) as (row & -> & Hrow).
    destruct (IH (lineIndex + 1)) as (matrix & Hmatrix & Hconcat).
    unfold matrixOf in Hmatrix. rewrite Hmatrix.
    exists (row :: matrix). split; [reflexivity|].
    cbn [map]. rewrite imap_cons, Hrow, Hconcat, Z.add_0_r. f_equal.
    apply imap_ext. intros i x _. cbn. do 2 f_equal. lia.
Qed.

Lemma liveTexts_concat (matrix : CodeMatrix) :
  liveTexts matrix (map (@concat ascii) matrix).
Proof.
  induction matrix as [|row matrix IH]; [constructor|].
  cbn [map]. constructor. exact IH.
Qed.

End OneHighlightMatrix.

Section OneHighlightText.

Import InMemoryEditor.

Lemma atCell_true lines p :
  atCell lines p = true
  ↔ 0 ≤ Position.line p ∧ 0 ≤ Position.character p
    ∧ ∃ line,
        lines !! Z.to_nat (Position.line p) = Some line
        ∧ Position.character p < Z.of_nat (length line).
Proof.
  unfold atCell, JS.get.
  destruct (Z.ltb_spec (Position.line p) 0) as [Hneg|Hpos].
  - split; [discriminate | lia].
  - destruct (lines !! Z.to_nat (Position.line p)) as [line|].
    + rewrite andb_true_iff, Z.leb_le, Z.ltb_lt. split.
      * intros [Hc Hlt]. eauto.
      * intros (_ & Hc & line' & [= <-] & Hlt). auto.
    + split; [discriminate|]. intros (_ & _ & line & Hline & _). discriminate.
Qed.

(** The lines after a tag was put in at a cell, line by line. *)
Lemma lookup_alter_atCell (lines base : list Code) p (extra : bool)
    (f : Code → Code) k line :
  lines !! k = Some line →
  (if atCell lines p && extra
   then alter f (Z.to_nat (Position.line p)) base
   else base) !! k
  = (if (Position.line p =? Z.of_nat k)
        && (0 <=? Position.character p)
        && (Position.character p <? Z.of_nat (length line))
        && extra
     then f else id) <$> base !! k.
Proof.
  intros Hk.
  destruct ((Position.line p =? Z.of_nat k)
            && (0 <=? Position.character p)
            && (Position.character p <? Z.of_nat (length line))
            && extra) eqn:Hhere.
  - rewrite !andb_true_iff, Z.eqb_eq, Z.leb_le, Z.ltb_lt in Hhere.
    destruct Hhere as [[[Hline Hc] Hlt] ->].
    assert (Z.to_nat (Position.line p) = k) as Hnat by lia.
    rewrite (proj2 (atCell_true lines p)).
    + cbn [andb]. rewrite Hnat. apply list_lookup_alter_eq.
    + rewrite Hnat. split; [lia|]. split; [lia|]. eauto.
  - destruct (atCell lines p && extra) eqn:Hcond.
    + apply andb_true_iff in Hcond as [Hcell ->].
      apply atCell_true in Hcell as (Hline & Hc & line' & Hline' & Hlt).
      rewrite list_lookup_alter_ne; [symmetry; apply option_fmap_id|].
      intros Heq. rewrite Heq, Hk in Hline'. injection Hline' as <-.
      rewrite !andb_true_r in Hhere.
      rewrite !andb_false_iff, Z.eqb_neq, Z.leb_gt, Z.ltb_ge in Hhere. lia.
    + symmetry. apply option_fmap_id.
Qed.

Lemma text_alter_insertAt (lines : list Code) p tag line :
  0 ≤ Position.line p → 0 ≤ Position.character p →
  lines !! Z.to_nat (Position.line p) = Some line →
  Position.character p ≤ Z.of_nat (length line) →
  textOf (alter (insertAt (Z.to_nat (Position.character p)) tag)
            (Z.to_nat (Position.line p)) lines)
  = insertAt (offsetOf lines p) tag (textOf lines).
Proof.
  intros Hl Hc Hline Hle.
  pose proof (take_drop_middle lines _ line Hline) as Hlines.
  set (above := take (Z.to_nat (Position.line p)) lines) in *.
  set (below := drop (S (Z.to_nat (Position.line p))) lines) in *.
  assert (length above = Z.to_nat (Position.line p)) as Habove.
  { unfold above. apply length_take_le.
    apply lookup_lt_Some in Hline. lia. }
  destruct (text_before lines above line below p (eq_sym Hlines) Habove)
    as [Htake Hdrop]; [lia|].
  unfold insertAt at 2. rewrite Htake, Hdrop.
  rewrite <- Hlines at 1. rewrite <- Habove.
  replace (length above) with (length above + 0)%nat by lia.
  rewrite alter_app_r. cbn [alter list_alter].
  unfold textOf. rewrite join_middle. unfold insertAt.
  rewrite <- !app_assoc. reflexivity.
Qed.

Lemma offsetOf_alter (lines : list Code) f i p :
  (Z.to_nat (Position.line p) ≤ i)%nat →
  offsetOf (alter f i lines) p = offsetOf lines p.
Proof.
  intros Hle. unfold offsetOf. rewrite take_alter_ge by exact Hle. reflexivity.
Qed.

Lemma bracket_not_in_DELETED_LINE : "["%char ∉ DELETED_LINE.
Proof.
  unfold DELETED_LINE, str. cbn [list_ascii_of_string].
  rewrite !not_elem_of_cons.
  repeat split; try discriminate. apply not_elem_of_nil.
Qed.

End OneHighlightText.

(** X20: the tags of one highlight.  On a buffer of one code unit per cell
    none of whose lines spells the deletion sentinel, after [highlight] of
    an array of one Selection that does not end before it starts, no other
    highlight being held, [highlightedCode] is the code with the opening tag
    put in at the start of the Selection and the closing tag at its end.  A
    tag is put in only before a code unit of the buffer: one at the end of a
    line, or outside the buffer, is left out, and so is the closing tag of
    a Selection that ends where it starts. *)
Theorem highlight_tags {SelectionRef SelectionsRef : Type}
    `{!EqDecision SelectionRef, !EqDecision SelectionsRef}
    (selectionOf : SelectionRef → Selection.t)
    (elementsOf : SelectionsRef → list SelectionRef)
    (this : @Highlights.t SelectionRef SelectionsRef)
    (selections : SelectionsRef) (selection : SelectionRef)
    (lines : list Code) (editor : InMemoryEditor.t) :
  let start := Selection.start (selectionOf selection) in
  let end_ := Selection.end_ (selectionOf selection) in
  let index := Highlights.nextHighlightColorIndex this + 1 in
  let opening := str "[h" ++ Highlights.numberToString index ++ str "]" in
  let closing := str "[/h" ++ Highlights.numberToString index ++ str "]" in
  let closed :=
    if atCell lines end_ && negb (Position.isEqualTo start end_)
    then insertAt (offsetOf lines end_) closing (textOf lines)
    else textOf lines in
  InMemoryEditor.codeMatrix editor = matrixOf lines →
  InMemoryEditor.DELETED_LINE ∉ lines →
  Highlights.highlights this = [] →
  elementsOf selections = [selection] →
  Position.isBefore start end_ = true →
  Highlights.highlightedCode selectionOf
    (Highlights.highlight elementsOf selections this) editor
  = Some (if atCell lines start
          then insertAt (offsetOf lines start) opening closed
          else closed).
Proof.
  intros start end_ index opening closing closed
    HM Hclean Hnone Helements Hbefore.
  set (registry := Highlights.highlight elementsOf selections this).
  assert (Highlights.highlights registry = [(selection, index)]) as Hone.
  { unfold registry, Highlights.highlight.
    cbn [Highlights.highlights]. rewrite Hnone, Helements. reflexivity. }
  unfold Highlights.highlightedCode, Highlights.highlightCodeMatrix.
  rewrite HM.
  destruct (mapFrom_one selectionOf registry selection index Hone lines 0)
    as (matrix & -> & Hconcat).
  cbn [fmap option_fmap option_map]. f_equal.
  fold opening closing in Hconcat.
  set (closedLines :=
         if atCell lines end_ && negb (Position.isEqualTo start end_)
         then alter (insertAt (Z.to_nat (Position.character end_)) closing)
                (Z.to_nat (Position.line end_)) lines
         else lines).
  set (openedLines :=
         if atCell lines start && true
         then alter (insertAt (Z.to_nat (Position.character start)) opening)
                (Z.to_nat (Position.line start)) closedLines
         else closedLines).
  assert (∀ k line, lines !! k = Some line →
          openedLines !! k
          = Some (highlightedLine opening closing (selectionOf selection)
                    (Z.of_nat k) line)) as Hlookup.
  { intros k line Hk. unfold openedLines.
    rewrite (lookup_alter_atCell lines closedLines start true _ k line Hk).
    unfold closedLines.
    rewrite (lookup_alter_atCell lines lines end_ _ _ k line Hk), Hk.
    unfold highlightedLine. fold start end_. rewrite andb_true_r.
    cbn [fmap option_fmap option_map].
    destruct ((Position.line start =? Z.of_nat k)
              && (0 <=? Position.character start)
              && (Position.character start <? Z.of_nat (length line)));
      destruct ((Position.line end_ =? Z.of_nat k)
                && (0 <=? Position.character end_)
                && (Position.character end_ <? Z.of_nat (length line))
                && negb (Position.isEqualTo start end_));
      reflexivity. }
  assert (∀ k, lines !! k = None → openedLines !! k = None) as Hbeyond.
  { intros k Hk. apply lookup_ge_None. apply lookup_ge_None in Hk.
    unfold openedLines, closedLines.
    destruct (atCell lines start && true),
      (atCell lines end_ && negb (Position.isEqualTo start end_));
      rewrite ?length_alter; exact Hk. }
  assert (map (@concat ascii) matrix = openedLines) as Hlines.
  { rewrite Hconcat. apply list_eq. intros k. rewrite list_lookup_imap.
    destruct (lines !! k) as [line|] eqn:Hk.
    - rewrite (Hlookup k line Hk). cbn [fmap option_fmap option_map].
      rewrite Z.add_0_l. f_equal.
      apply tagged_highlightedLine, Hbefore.
    - symmetry. apply Hbeyond, Hk. }
  assert ("["%char ∈ opening ∧ "["%char ∈ closing) as [Hopening Hclosing].
  { split; left. }
  rewrite (read_liveTexts matrix _ (liveTexts_concat matrix)); rewrite Hlines.
  - change (textOf openedLines
            = if atCell lines start
              then insertAt (offsetOf lines start) opening closed
              else closed).
    assert (textOf closedLines = closed) as Hclosed.
    { unfold closedLines, closed.
      destruct (atCell lines end_ && negb (Position.isEqualTo start end_))
        eqn:Hc; [|reflexivity].
      apply andb_true_iff in Hc as [Hcell _].
      apply atCell_true in Hcell as (Hl & Hch & line & Hline & Hlt).
      apply (text_alter_insertAt lines end_ closing line); try assumption.
      lia. }
    unfold openedLines. rewrite andb_true_r.
    destruct (atCell lines start) eqn:Ho; [|exact Hclosed].
    apply atCell_true in Ho as (Hl & Hch & line & Hline & Hlt).
    pose proof (lookup_alter_atCell lines lines end_
                  (negb (Position.isEqualTo start end_))
                  (insertAt (Z.to_nat (Position.character end_)) closing)
                  _ line Hline) as Hline'.
    fold closedLines in Hline'. rewrite Hline in Hline'.
    cbn [fmap option_fmap option_map] in Hline'.
    rewrite (text_alter_insertAt closedLines start opening _ Hl Hch Hline').
    + rewrite Hclosed. f_equal. unfold closedLines.
      destruct (atCell lines end_ && negb (Position.isEqualTo start end_));
        [|reflexivity].
      apply offsetOf_alter. apply isBefore_le in Hbefore. lia.
    + destruct ((Position.line end_ =? _) && _ && _ && _); [|cbn; lia].
      unfold insertAt. rewrite !length_app, length_take, length_drop. lia.
  - intros Hin. apply list_elem_of_lookup in Hin as [k Hk].
    destruct (lines !! k) as [line|] eqn:Hline;
      [|rewrite (Hbeyond k Hline) in Hk; discriminate].
    rewrite (Hlookup k line Hline) in Hk. injection Hk as Hk.
    unfold highlightedLine in Hk.
    destruct ((Position.line (Selection.start _) =? _) && _ && _).
    + apply bracket_not_in_DELETED_LINE. rewrite <- Hk.
      apply insertAt_elem_of, Hopening.
    + destruct ((Position.line (Selection.end_ _) =? _) && _ && _ && _).
      * apply bracket_not_in_DELETED_LINE. rewrite <- Hk.
        apply insertAt_elem_of, Hclosing.
      * apply Hclean. rewrite <- Hk.
        apply (list_elem_of_lookup_2 _ _ _ Hline).
Qed.

Lemma highlight_tags_witness :
  let selectionOf := λ _ : nat,
    Selection.mk (Position.mk 0 1) (Position.mk 1 2) in
  let elementsOf := λ _ : nat, [0%nat] in
  Highlights.highlightedCode selectionOf
    (Highlights.highlight elementsOf 0%nat Highlights.initial)
    (InMemoryEditor.new (str "abc
def"))
  = Some (str "a[h1]bc
de[/h1]f").
Proof.
  intros selectionOf elementsOf.
  rewrite (highlight_tags selectionOf elementsOf Highlights.initial 0%nat
             0%nat [str "abc"; str "def"]).
  - reflexivity.
  - reflexivity.
  - rewrite !not_elem_of_cons. repeat split; try discriminate.
    apply not_elem_of_nil.
  - reflexivity.
  - reflexivity.
  - reflexivity.
Defined.

Lemma highlightedCode_answers_witness :
  Highlights.highlightedCode (λ _ : nat, Selection.cursorAt 0 0)
    (@Highlights.initial nat nat) (InMemoryEditor.new (str "abc
def"))
  = Some (str "abc
def").
Proof.
  destruct (highlightedCode_answers (λ _ : nat, Selection.cursorAt 0 0)
              (@Highlights.initial nat nat)
              (InMemoryEditor.new (str "abc
def"))) as (code & -> & Hcode).
  rewrite (Hcode eq_refl). reflexivity.
Defined.

Section HighlightRemoved.

Import Highlights.

Context {SelectionRef SelectionsRef : Type}.
Context `{!EqDecision SelectionRef, !EqDecision SelectionsRef}.
Variable elementsOf : SelectionsRef → list SelectionRef.

Lemma fold_mapDelete (keys : list SelectionRef) (map : list (SelectionRef * Z)) :
  fold_left (λ highlights selection, mapDelete highlights selection) keys map
  = filter (λ entry, entry.1 ∉ keys) map.
Proof.
  revert map. induction keys as [|key keys IH]; intros map; cbn [fold_left].
  - symmetry. apply filter_all. intros entry. apply not_elem_of_nil.
  - rewrite IH. unfold mapDelete. rewrite list_filter_filter.
    apply list_filter_iff. intros entry. rewrite not_elem_of_cons. tauto.
Qed.

Lemma filter_mapSet (keys : list SelectionRef) map key value :
  key ∈ keys →
  filter (λ entry, entry.1 ∉ keys) (mapSet map key value)
  = filter (λ entry : SelectionRef * Z, entry.1 ∉ keys) map.
Proof.
  intros Hkey. induction map as [|[key' value'] map IH]; cbn [mapSet].
  - apply filter_cons_False. cbn. tauto.
  - destruct (decide (key' = key)) as [->|Hne].
    + rewrite !filter_cons_False by (cbn; tauto). reflexivity.
    + rewrite !filter_cons. rewrite IH. reflexivity.
Qed.

Lemma filter_fold_mapSet (keys set : list SelectionRef) map value :
  (∀ key, key ∈ set → key ∈ keys) →
  filter (λ entry, entry.1 ∉ keys)
    (fold_left (λ highlights selection, mapSet highlights selection value)
       set map)
  = filter (λ entry : SelectionRef * Z, entry.1 ∉ keys) map.
Proof.
  revert map. induction set as [|key set IH]; intros map Hset; [reflexivity|].
  cbn [fold_left]. rewrite IH by (intros k Hk; apply Hset; right; exact Hk).
  apply filter_mapSet, Hset. left.
Qed.

End HighlightRemoved.

(** X21: [removeHighlight] undoes [highlight].  After [removeHighlight] of
    an array none of its Selections is highlighted any more, whichever
    array had them highlighted; and [highlight] of an array followed by
    [removeHighlight] of it gives the highlights there were, when the array
    was not held and none of its Selections was highlighted before. *)
Theorem removeHighlight_undoes_highlight {SelectionRef SelectionsRef : Type}
    `{!EqDecision SelectionRef, !EqDecision SelectionsRef}
    (elementsOf : SelectionsRef → list SelectionRef)
    (this : @Highlights.t SelectionRef SelectionsRef)
    (selections : SelectionsRef) :
  (∀ selection,
     selection ∈ elementsOf selections →
     Highlights.mapGet
       (Highlights.highlights
          (Highlights.removeHighlight elementsOf selections this))
       selection
     = None)
  ∧ ((∀ selection,
        selection ∈ elementsOf selections →
        Highlights.mapGet (Highlights.highlights this) selection = None) →
     selections ∉ Highlights.highlightSelections this →
     Highlights.removeHighlight elementsOf selections
       (Highlights.highlight elementsOf selections this)
     = this).
Proof.
  assert (∀ (map : list (SelectionRef * Z)) key,
            Highlights.mapGet map key = None ↔ key ∉ List.map fst map) as Hget.
  { intros map key. induction map as [|[key' value] map IH]; cbn.
    - split; [intros _; apply not_elem_of_nil | reflexivity].
    - destruct (decide (key' = key)) as [->|Hne].
      + split; [discriminate|]. intros Hnot. destruct Hnot. left.
      + rewrite IH, not_elem_of_cons. split; [auto | tauto]. }
  split.
  - intros selection Hin. apply Hget.
    unfold Highlights.removeHighlight. cbn [Highlights.highlights].
    rewrite fold_mapDelete. intros Hkey.
    apply list_elem_of_In, in_map_iff in Hkey as (entry & <- & Hentry).
    apply list_elem_of_In, list_elem_of_filter in Hentry as [Hnot _].
    exact (Hnot Hin).
  - intros Hfresh Hnew. destruct this as [map set next].
    unfold Highlights.removeHighlight, Highlights.highlight.
    cbn [Highlights.highlights Highlights.highlightSelections
         Highlights.nextHighlightColorIndex] in *.
    f_equal.
    + rewrite fold_mapDelete, filter_fold_mapSet by auto.
      clear Hnew. induction map as [|[key value] map IH]; [reflexivity|].
      rewrite filter_cons_True.
      * f_equal. apply IH. intros selection Hin.
        specialize (Hfresh selection Hin). cbn in Hfresh.
        destruct (decide (key = selection)); [discriminate | exact Hfresh].
      * cbn. intros Hin. specialize (Hfresh key Hin). cbn in Hfresh.
        rewrite decide_True in Hfresh by reflexivity. discriminate.
    + unfold Highlights.setAdd, Highlights.setDelete.
      rewrite decide_False by exact Hnew.
      rewrite filter_app, filter_cons_False, filter_nil, app_nil_r by tauto.
      clear Hfresh. induction set as [|value set IH]; [reflexivity|].
      apply not_elem_of_cons in Hnew as [Hne Hnew].
      rewrite filter_cons_True by congruence. f_equal. apply IH, Hnew.
Qed.

Lemma removeHighlight_undoes_highlight_witness :
  let elementsOf := λ selections : nat,
    match selections with 0%nat => [0%nat; 1%nat] | _ => [2%nat] end in
  let this := Highlights.highlight elementsOf 1%nat Highlights.initial in
  Highlights.removeHighlight elementsOf 0%nat
    (Highlights.highlight elementsOf 0%nat this)
  = this.
Proof.
  intros elementsOf this.
  apply (proj2 (removeHighlight_undoes_highlight elementsOf this 0%nat)).
  - intros selection Hin.
    repeat (apply elem_of_cons in Hin as [->|Hin]); [| |inversion Hin];
      reflexivity.
  - intros Hin. change (0%nat ∈ [1%nat]) in Hin.
    apply list_elem_of_singleton in Hin. discriminate.
Defined.

(** ** The callbacks of a visit *)

Section Callbacks.

Import RefactoringActionProvider.

Context {NodePath : Type}.








End Callbacks.


